(** * aero-accounting: CSV ingestion and the category tree, verified

    A shallow embedding of the statement parser ([lib/csvParser]), the
    deduplication filter of [useTransactions] and the category tree engine
    of [useCategories], with the properties of the specification stated
    and proved over it.

    Conventions of the embedding.
    - A JavaScript string is modelled by the [string] of its UTF-8 bytes.
    - A recursion of the source that need not terminate takes a [fuel]
      argument and returns [None] when the fuel runs out.
    - Facilities whose result is fixed by the environment (the collation of
      [localeCompare], [Date] parsing, the failures of the record store,
      ...) are the fields of the class [Host]; every property holds for
      every host. *)

From Stdlib Require Import ZArith Ascii String List Lia Permutation DecimalString.
From stdpp Require Import base option gmap strings list fin_maps sorting.

#[local] Open Scope Z_scope.
#[local] Open Scope nat_scope.

(** * Part I: the embedding *)

(** ** Data model ([types/index.ts]) *)

(** A JavaScript [number], as far as the parser produces and combines them:
    [Dec m e] is the decimal [m * 10^e].  The rounding of a decimal to the
    nearest binary64 value is not modelled. *)
Inductive number :=
  | NaN
  | Infinity (negative : bool)
  | Dec (mantissa exponent : Z).

#[global] Instance number_eq_dec : EqDecision number.
Proof. solve_decision. Defined.

Module Category.
Record t := mk {
  id : string;
  name : string;
  parent_id : option string;
  is_system : bool
}.

#[global] Instance eq_dec : EqDecision t.
Proof. solve_decision. Defined.
End Category.

(** A transaction, in memory or as a row of the [transactions] table.
    [user_id] is a column of the table; records that were not read from the
    table have none. *)
Module Transaction.
Record t := mk {
  id : string;
  date : string;
  description : string;
  amount : number;
  balance : option number;
  category : string;
  category_id : option string;
  account_id : option string;
  user_id : option string
}.

#[global] Instance eq_dec : EqDecision t.
Proof. solve_decision. Defined.

Definition with_category (label : string) (x : t) : t :=
  mk (id x) (date x) (description x) (amount x) (balance x) label
     (category_id x) (account_id x) (user_id x).
End Transaction.

Definition SYSTEM_CATEGORY_NAME : string := "Uncategorized".
Definition TEMP_USER_ID : string := "temp-user-1".

(** JavaScript truthiness of a string value. *)
Definition truthy (s : string) : bool :=
  match s with EmptyString => false | String _ _ => true end.

(** ** The record store (Supabase), as the hooks use it *)

Inductive StoreCall :=
  | UpdateCategoryRow (id : string) (name : option string)
      (parent_id : option (option string))
  | DeleteCategoryRow (id : string)
  | RelabelTransactions (oldLabel newLabel : string).

#[global] Instance StoreCall_eq_dec : EqDecision StoreCall.
Proof. solve_decision. Defined.

(** The store: the [transactions] table and the history of the calls issued
    against it.  The [categories] table is represented by the calls on it. *)
Record Store := mkStore {
  transactions : list Transaction.t;
  calls : list StoreCall
}.

(** What an operation of a hook can throw. *)
Inductive Thrown :=
  | Error (message : string)
  | TypeError (message : string)
  | StoreError (message : string).

(** How a call of an asynchronous operation ends: it resolves with a value,
    rejects with what was thrown, or does not come back. *)
Inductive Result (A : Type) :=
  | Ok (a : A)
  | Throw (e : Thrown)
  | Diverge.
Arguments Ok {A} a.
Arguments Throw {A} e.
Arguments Diverge {A}.

(** ** The host environment *)

(** The calendar fields of a valid [Date] in local time:
    [getFullYear()], [getMonth()] and [getDate()]. *)
Record LocalDate := mkLocalDate {
  fullYear : Z;
  month : nat;
  dayOfMonth : nat
}.

Class Host := {
  (** [a.localeCompare(b)], by the sign of its result. *)
  localeCompare : string → string → comparison;
  (** [String.prototype.toLowerCase]. *)
  toLowerCase : string → string;
  (** [new Date(s)]: [None] is an invalid date. *)
  newDate : string → option LocalDate;
  (** [n.toFixed(2)]. *)
  toFixed2 : number → string;
  (** The identifier built from [Date.now()] and [Math.random()] for row [i]. *)
  freshId : nat → string;
  (** The error, if any, with which the store answers a call, given the
      calls issued before it. *)
  storeError : list StoreCall → StoreCall → option string
}.

(** ** Strings *)

Definition bytes (codes : list nat) : string :=
  foldr (λ n s, String (ascii_of_nat n) s) EmptyString codes.

Definition concat_strings (l : list string) : string :=
  foldr String.app EmptyString l.

(** A byte [10xxxxxx] continues the character begun before it. *)
Definition is_continuation (b : ascii) : bool :=
  let n := nat_of_ascii b in (128 <=? n) && (n <? 192).

(** The characters of a string: each lead byte with the continuation bytes
    that follow it. *)
Fixpoint chars_go (current : string) (s : string) : list string :=
  match s with
  | EmptyString => [current]
  | String b s' =>
      if is_continuation b then chars_go (current +:+ String b EmptyString) s'
      else current :: chars_go (String b EmptyString) s'
  end.

Definition chars (s : string) : list string :=
  match s with
  | EmptyString => []
  | String b s' => chars_go (String b EmptyString) s'
  end.

(** The characters that [trim] removes and [\s] matches: WhiteSpace and
    LineTerminator of ECMAScript. *)
Definition white_space : list string :=
  [ bytes [9]; bytes [10]; bytes [11]; bytes [12]; bytes [13]; bytes [32];
    bytes [194; 160]; bytes [225; 154; 128];
    bytes [226; 128; 128]; bytes [226; 128; 129]; bytes [226; 128; 130];
    bytes [226; 128; 131]; bytes [226; 128; 132]; bytes [226; 128; 133];
    bytes [226; 128; 134]; bytes [226; 128; 135]; bytes [226; 128; 136];
    bytes [226; 128; 137]; bytes [226; 128; 138];
    bytes [226; 128; 168]; bytes [226; 128; 169]; bytes [226; 128; 175];
    bytes [226; 129; 159]; bytes [227; 128; 128]; bytes [239; 187; 191] ].

Definition in_class (class : list string) (ch : string) : bool :=
  bool_decide (ch ∈ class).

Fixpoint drop_while {A} (p : A → bool) (l : list A) : list A :=
  match l with
  | [] => []
  | x :: l' => if p x then drop_while p l' else l
  end.

Definition trimStart (s : string) : string :=
  concat_strings (drop_while (in_class white_space) (chars s)).

Definition trimEnd (s : string) : string :=
  concat_strings
    (rev (drop_while (in_class white_space) (rev (chars s)))).

Definition trim (s : string) : string := trimEnd (trimStart s).

(** [s.replace(/[class]/g, '')] *)
Definition remove_class (class : list string) (s : string) : string :=
  concat_strings (filter (λ ch, in_class class ch = false) (chars s)).

(** [drop_prefix p s] is the rest of [s] after its prefix [p]. *)
Fixpoint drop_prefix (p s : string) : option string :=
  match p, s with
  | EmptyString, _ => Some s
  | String a p', String b s' =>
      if bool_decide (a = b) then drop_prefix p' s' else None
  | String _ _, EmptyString => None
  end.

(** [s.includes(needle)] *)
Fixpoint includes (s needle : string) : bool :=
  match drop_prefix needle s with
  | Some _ => true
  | None =>
      match s with
      | EmptyString => false
      | String _ s' => includes s' needle
      end
  end.

(** [s.split(sep)] for a separator of one character. *)
Fixpoint split (sep : ascii) (s : string) : list string :=
  match s with
  | EmptyString => [EmptyString]
  | String c s' =>
      if bool_decide (c = sep) then EmptyString :: split sep s'
      else match split sep s' with
           | h :: t => String c h :: t
           | [] => [String c EmptyString]
           end
  end.

(** [l.findIndex(p)]: [None] is [-1]. *)
Fixpoint findIndex {A} (p : A → bool) (l : list A) : option nat :=
  match l with
  | [] => None
  | x :: l' => if p x then Some 0 else S <$> findIndex p l'
  end.

Definition is_digit (c : ascii) : bool :=
  let n := nat_of_ascii c in (48 <=? n) && (n <=? 57).

Fixpoint all_chars (p : ascii → bool) (s : string) : bool :=
  match s with
  | EmptyString => true
  | String c s' => p c && all_chars p s'
  end.

(** [String(n)] for an integer. *)
Definition string_of_Z (z : Z) : string := NilZero.string_of_int (Z.to_int z).
Definition string_of_nat (n : nat) : string := string_of_Z (Z.of_nat n).

(** [s.padStart(2, '0')] *)
Definition padStart2 (s : string) : string :=
  match String.length s with
  | 0 => "00"
  | 1 => "0" +:+ s
  | _ => s
  end.

(** ** Numbers *)

Definition zero : number := Dec 0 0.

Definition isNaN (n : number) : bool :=
  match n with NaN => true | _ => false end.

Definition isFinite (n : number) : bool :=
  match n with Dec _ _ => true | _ => false end.

(** [a - b] *)
Definition sub (a b : number) : number :=
  match a, b with
  | NaN, _ | _, NaN => NaN
  | Infinity s, Infinity s' => if bool_decide (s = s') then NaN else Infinity s
  | Infinity s, Dec _ _ => Infinity s
  | Dec _ _, Infinity s => Infinity (negb s)
  | Dec m1 e1, Dec m2 e2 =>
      let e := Z.min e1 e2 in
      Dec (m1 * 10 ^ (e1 - e) - m2 * 10 ^ (e2 - e))%Z e
  end.

(** The rational a finite number stands for, as numerator and denominator. *)
Definition value (n : number) : option (Z * Z) :=
  match n with
  | Dec m e => Some (if (0 <=? e)%Z then (m * 10 ^ e, 1)%Z else (m, 10 ^ (- e))%Z)
  | _ => None
  end.

(** Two numbers denote the same value. *)
Definition same_value (a b : number) : Prop :=
  match value a, value b with
  | Some (n1, d1), Some (n2, d2) => (n1 * d2 = n2 * d1)%Z
  | _, _ => a = b
  end.

Fixpoint take_digits (s : string) : string * string :=
  match s with
  | String c s' =>
      if is_digit c then let '(d, rest) := take_digits s' in (String c d, rest)
      else (EmptyString, s)
  | EmptyString => (EmptyString, EmptyString)
  end.

Definition digit_value (c : ascii) : Z := Z.of_nat (nat_of_ascii c - 48).

(** The number written by a string of digits. *)
Definition digits_value (s : string) : Z :=
  fold_left (λ acc c, (acc * 10 + digit_value c)%Z) (list_ascii_of_string s) 0%Z.

(** An optional sign: [true] is minus. *)
Definition take_sign (s : string) : bool * string :=
  match s with
  | String "-" s' => (true, s')
  | String "+" s' => (false, s')
  | _ => (false, s)
  end.

(** ExponentPart, if a complete one is there. *)
Definition take_exponent (s : string) : Z :=
  match s with
  | String c s' =>
      if bool_decide (c = "e"%char ∨ c = "E"%char) then
        let '(negative, s'') := take_sign s' in
        let '(d, _) := take_digits s'' in
        match d with
        | EmptyString => 0%Z
        | _ => if negative then (- digits_value d)%Z else digits_value d
        end
      else 0%Z
  | EmptyString => 0%Z
  end.

(** [parseFloat(s)]: the longest prefix of the trimmed string that is a
    StrDecimalLiteral, or [NaN] when there is none. *)
Definition parseFloat (s : string) : number :=
  let '(negative, s1) := take_sign (trimStart s) in
  match drop_prefix "Infinity" s1 with
  | Some _ => Infinity negative
  | None =>
      let '(int_part, s2) := take_digits s1 in
      let '(frac_part, s3) :=
        match s2 with
        | String "." s2' => take_digits s2'
        | _ => (EmptyString, s2)
        end in
      match int_part +:+ frac_part with
      | EmptyString => NaN
      | ds =>
          let m := digits_value ds in
          Dec (if negative then - m else m)%Z
              (take_exponent s3 - Z.of_nat (String.length frac_part))%Z
      end
  end.

(** ** Generic helpers *)

(** [Array.prototype.map] with a callback that threads a mutable state and
    may fail to return. *)
Fixpoint map_st {A B S : Type} (f : A → S → option (B * S))
    (l : list A) (s : S) : option (list B * S) :=
  match l with
  | [] => Some ([], s)
  | x :: l' =>
      '(y, s1) ← f x s;
      '(ys, s2) ← map_st f l' s1;
      Some (y :: ys, s2)
  end.

(** The states a successful [map_st] goes through. *)
Inductive steps {B S : Type} (R : S → B → S → Prop) : S → list B → S → Prop :=
  | steps_nil s : steps R s [] s
  | steps_cons s y s1 ys s2 :
      R s y s1 → steps R s1 ys s2 → steps R s (y :: ys) s2.

(** [Array.prototype.sort] with a comparator: a stable insertion sort. *)
Section Sort.
Context {A : Type} (cmp : A → A → comparison).

Fixpoint sort_insert (x : A) (l : list A) : list A :=
  match l with
  | [] => [x]
  | y :: l' =>
      match cmp x y with
      | Gt => y :: sort_insert x l'
      | _ => x :: y :: l'
      end
  end.

Fixpoint sort_by (l : list A) : list A :=
  match l with
  | [] => []
  | x :: l' => sort_insert x (sort_by l')
  end.
End Sort.

(** ** The category tree engine ([hooks/useCategories.ts]) *)

Abbreviation PathMap := (gmap string string).
Abbreviation DescendantsMap := (gmap string (list string)).
Abbreviation ChildrenMap := (gmap (option string) (list Category.t)).

#[local] Unset Elimination Schemes.
Inductive CategoryTreeNode := TreeNode {
  node_category : Category.t;
  children : list CategoryTreeNode;
  fullPath : string
}.
#[local] Set Elimination Schemes.

Definition createChildrenMap (categories : list Category.t) : ChildrenMap :=
  foldl (λ (map : ChildrenMap) category,
           let key := Category.parent_id category in
           let siblings := default [] (map !! key) in
           <[key := siblings ++ [category]]> map)
        ∅ categories.

(** [childrenMap.get(key) ?? []] *)
Definition children_of (childrenMap : ChildrenMap) (key : option string)
    : list Category.t :=
  default [] (childrenMap !! key).

Definition separator : string := " → ".

(** [parentPath ? `${parentPath} → ${name}` : name] *)
Definition joinPath (parentPath : option string) (name : string) : string :=
  match parentPath with
  | Some p => if truthy p then p +:+ separator +:+ name else name
  | None => name
  end.

Section Build.
Context `{Host}.

Definition by_name (a b : Category.t) : comparison :=
  localeCompare (Category.name a) (Category.name b).

Fixpoint buildNode (fuel : nat) (childrenMap : ChildrenMap)
    (category : Category.t) (parentPath : option string)
    (pathMap : PathMap) : option (CategoryTreeNode * PathMap) :=
  match fuel with
  | O => None
  | S fuel' =>
      let fullPath := joinPath parentPath (Category.name category) in
      let pathMap := <[Category.id category := fullPath]> pathMap in
      '(childNodes, pathMap) ←
        map_st (λ child pm, buildNode fuel' childrenMap child (Some fullPath) pm)
               (sort_by by_name
                  (children_of childrenMap (Some (Category.id category))))
               pathMap;
      Some (TreeNode category childNodes fullPath, pathMap)
  end.

Definition buildTreeAndPaths (fuel : nat) (categories : list Category.t)
    : option (list CategoryTreeNode * PathMap) :=
  let childrenMap := createChildrenMap categories in
  map_st (λ root pm, buildNode fuel childrenMap root None pm)
         (sort_by by_name (children_of childrenMap None)) ∅.
End Build.

Fixpoint collectDescendants (fuel : nat) (childrenMap : ChildrenMap)
    (categoryId : string) : option (list string) :=
  match fuel with
  | O => None
  | S fuel' =>
      let children := children_of childrenMap (Some categoryId) in
      foldl (λ (acc : option (list string)) child,
               acc ← acc;
               nested ← collectDescendants fuel' childrenMap (Category.id child);
               Some ((acc ++ [Category.id child]) ++ nested))
            (Some []) children
  end.

Definition buildDescendantsMap (fuel : nat) (categories : list Category.t)
    : option DescendantsMap :=
  let childrenMap := createChildrenMap categories in
  foldl (λ (map : option DescendantsMap) category,
           map ← map;
           d ← collectDescendants fuel childrenMap (Category.id category);
           Some (<[Category.id category := d]> map))
        (Some ∅) categories.

(** The nodes of a tree, parent before children. *)
Fixpoint flatten (t : CategoryTreeNode) : list Category.t :=
  node_category t :: flat_map flatten (children t).


(** *** The hook's operations *)

(** The values an operation closes over: the state [categories] and the
    memoised [pathMap] and [descendantsMap] of the same render. *)
Record View := mkView {
  categories : list Category.t;
  pathMap : PathMap;
  descendantsMap : DescendantsMap
}.

Definition render `{Host} (fuel : nat) (categories : list Category.t)
    : option View :=
  '(_, pathMap) ← buildTreeAndPaths fuel categories;
  descendantsMap ← buildDescendantsMap fuel categories;
  Some (mkView categories pathMap descendantsMap).

(** The argument [updates]: a field that is [None] is [undefined];
    [parent_id = Some None] is [null]. *)
Record Updates := mkUpdates {
  upd_name : option string;
  upd_parent_id : option (option string)
}.

(** Operations on the store: a state and error monad. *)
Definition M (A : Type) : Type := Store → Result A * Store.

Definition ret {A} (a : A) : M A := λ s, (Ok a, s).
Definition throw {A} (e : Thrown) : M A := λ s, (Throw e, s).
Definition diverge {A} : M A := λ s, (Diverge, s).
Definition bind {A B} (m : M A) (k : A → M B) : M B :=
  λ s, match m s with
       | (Ok a, s') => k a s'
       | (Throw e, s') => (Throw e, s')
       | (Diverge, s') => (Diverge, s')
       end.

Notation "m ;;; k" := (bind m (λ _, k))
  (at level 100, right associativity).

(** [.update({category: newLabel}).eq('user_id', TEMP_USER_ID)
     .eq('category', oldLabel)] on the rows. *)
Definition relabel (oldLabel newLabel : string) (t : Transaction.t)
    : Transaction.t :=
  if bool_decide (Transaction.user_id t = Some TEMP_USER_ID
                  ∧ Transaction.category t = oldLabel)
  then Transaction.with_category newLabel t
  else t.

Definition apply_call (c : StoreCall) (rows : list Transaction.t)
    : list Transaction.t :=
  match c with
  | RelabelTransactions oldLabel newLabel => relabel oldLabel newLabel <$> rows
  | UpdateCategoryRow _ _ _ | DeleteCategoryRow _ => rows
  end.

(** One awaited call: it is recorded, and either takes effect or is answered
    with an error, which the caller throws. *)
Definition request `{Host} (c : StoreCall) : M unit :=
  λ s, match storeError (calls s) c with
       | Some message =>
           (Throw (StoreError message), mkStore (transactions s) (calls s ++ [c]))
       | None =>
           (Ok tt, mkStore (apply_call c (transactions s)) (calls s ++ [c]))
       end.

Definition find_category (categoryId : string) (categories : list Category.t)
    : option Category.t :=
  find (λ cat, bool_decide (Category.id cat = categoryId)) categories.

(** [{...cat, name?, parent_id?}] *)
Definition apply_updates (trimmedName : option string)
    (parent : option (option string)) (cat : Category.t) : Category.t :=
  Category.mk (Category.id cat)
    (default (Category.name cat) trimmedName)
    (default (Category.parent_id cat) parent)
    (Category.is_system cat).

Section Hook.
Context `{Host}.

(** The loop over [affectedIds] of [updateCategory]. *)
Fixpoint rewrite_paths (oldPathMap newPathMap : PathMap)
    (affectedIds : list string) : M unit :=
  match affectedIds with
  | [] => ret tt
  | affectedId :: rest =>
      match oldPathMap !! affectedId, newPathMap !! affectedId with
      | Some oldPath, Some newPath =>
          if truthy oldPath && truthy newPath
             && bool_decide (oldPath ≠ newPath)
          then request (RelabelTransactions oldPath newPath) ;;;
               rewrite_paths oldPathMap newPathMap rest
          else rewrite_paths oldPathMap newPathMap rest
      | _, _ => rewrite_paths oldPathMap newPathMap rest
      end
  end.

(** [updateCategory]: the result is the argument of [setCategories].  The
    [catch] block only stores the message in the hook's [error] state and
    throws again; that state is not modelled. *)
Definition updateCategory (fuel : nat) (view : View) (categoryId : string)
    (updates : Updates) : M (list Category.t) :=
  match find_category categoryId (categories view) with
  | None => throw (Error "Category not found")
  | Some category =>
  if Category.is_system category
  then throw (Error "System categories cannot be modified") else
  let descendants := default [] (descendantsMap view !! categoryId) in
  let parent_check : option Thrown :=
    match upd_parent_id updates with
    | Some (Some parent) =>
        if truthy parent then
          if bool_decide (parent = categoryId)
          then Some (Error "A category cannot be its own parent")
          else if bool_decide (parent ∈ descendants)
          then Some (Error
                 "A category cannot be moved under one of its subcategories")
          else None
        else None
    | _ => None
    end in
  match parent_check with
  | Some e => throw e
  | None =>
  let trimmedName := trim <$> upd_name updates in
  match trimmedName with
  | Some EmptyString => throw (Error "Category name is required")
  | _ =>
  let oldPathMap := pathMap view in
  let affectedIds := categoryId :: descendants in
  let updatedCategories :=
    (λ cat, if bool_decide (Category.id cat = categoryId)
            then apply_updates trimmedName (upd_parent_id updates) cat
            else cat) <$> categories view in
  request (UpdateCategoryRow categoryId trimmedName (upd_parent_id updates)) ;;;
  match buildTreeAndPaths fuel updatedCategories with
  | None => diverge
  | Some (_, newPathMap) =>
      rewrite_paths oldPathMap newPathMap affectedIds ;;;
      ret updatedCategories
  end
  end
  end
  end.

(** The loop over [pathsToReset] of [deleteCategory]. *)
Fixpoint reset_paths (pathsToReset : list string) : M unit :=
  match pathsToReset with
  | [] => ret tt
  | path :: rest =>
      request (RelabelTransactions path SYSTEM_CATEGORY_NAME) ;;;
      reset_paths rest
  end.

(** [deleteCategory]: the result is the new value of [categories]; the
    [catch] block is as in [updateCategory]. *)
Definition deleteCategory (view : View) (categoryId : string)
    : M (list Category.t) :=
  match find_category categoryId (categories view) with
  | None => throw (Error "Category not found")
  | Some category =>
  if Category.is_system category
  then throw (Error "System categories cannot be deleted") else
  let affectedIds :=
    categoryId :: default [] (descendantsMap view !! categoryId) in
  let pathsToReset :=
    filter (λ path, truthy path = true)
           (omap (λ id, pathMap view !! id) affectedIds) in
  request (DeleteCategoryRow categoryId) ;;;
  reset_paths pathsToReset ;;;
  ret (filter (λ cat, Category.id cat ∉ affectedIds) (categories view))
  end.

(** The state [categories] after an operation: [setCategories] is reached
    only when nothing was thrown. *)
Definition categories_after (view : View) (r : Result (list Category.t))
    : list Category.t :=
  match r with
  | Ok updated => updated
  | Throw _ | Diverge => categories view
  end.
End Hook.

(** [categoryOptions] *)
Record CategoryOption := mkOption {
  opt_id : string;
  opt_label : string;
  opt_isSystem : bool
}.

Definition option_order `{Host} (a b : CategoryOption) : comparison :=
  if opt_isSystem a && negb (opt_isSystem b) then Lt
  else if negb (opt_isSystem a) && opt_isSystem b then Gt
  else localeCompare (opt_label a) (opt_label b).

Definition categoryOptions `{Host} (view : View) : list CategoryOption :=
  match categories view with
  | [] => [mkOption "system-uncategorized" SYSTEM_CATEGORY_NAME true]
  | _ =>
      sort_by option_order
        ((λ category,
            mkOption (Category.id category)
              (default (Category.name category)
                 (pathMap view !! Category.id category))
              (Category.is_system category)) <$> categories view)
  end.

(** ** The statement parser ([lib/csvParser.ts]) *)

Fixpoint parseCSVLine_go (line current : string) (inQuotes : bool)
    : list string :=
  match line with
  | EmptyString => [trim current]
  | String char rest =>
      if bool_decide (char = "034"%char)
      then parseCSVLine_go rest current (negb inQuotes)
      else if bool_decide (char = ","%char) && negb inQuotes
      then trim current :: parseCSVLine_go rest EmptyString inQuotes
      else parseCSVLine_go rest (current +:+ String char EmptyString) inQuotes
  end.

Definition parseCSVLine (line : string) : list string :=
  parseCSVLine_go line EmptyString false.

(** The class [[R$£€,\s]] and the class [[()]]. *)
Definition currency_class : list string :=
  ["R"; "$"; bytes [194; 163]; bytes [226; 130; 172]; ","] ++ white_space.
Definition paren_class : list string := ["("; ")"].

Definition clean_amount (value : string) : string :=
  remove_class paren_class (remove_class currency_class value).

Definition parseAmount (value : string) : number :=
  let cleaned := clean_amount value in
  let num := parseFloat cleaned in
  if isNaN num then zero else num.

(** [/^\d{8}$/.test(s)] *)
Definition is_8_digits (s : string) : bool :=
  bool_decide (String.length s = 8) && all_chars is_digit s.

Section Parser.
Context `{Host}.

Definition normalizeDate (value : string) : string :=
  let trimmed := trim value in
  if is_8_digits trimmed then
    let year := String.substring 0 4 trimmed in
    let month := String.substring 4 2 trimmed in
    let day := String.substring 6 2 trimmed in
    year +:+ "-" +:+ month +:+ "-" +:+ day
  else
    match newDate trimmed with
    | Some parsed =>
        let year := string_of_Z (fullYear parsed) in
        let month := padStart2 (string_of_nat (month parsed + 1)) in
        let day := padStart2 (string_of_nat (dayOfMonth parsed)) in
        year +:+ "-" +:+ month +:+ "-" +:+ day
    | None => trimmed
    end.

(** The column predicates, on a trimmed and lowercased header. *)
Definition is_date_header (h : string) : bool :=
  includes h "date" || includes h "transaction date"
  || includes h "posting date".
Definition is_description_header (h : string) : bool :=
  includes h "description" || includes h "narration"
  || includes h "details" || includes h "reference".
Definition is_amount_header (h : string) : bool :=
  includes h "amount" && negb (includes h "balance").
Definition is_balance_header (h : string) : bool :=
  includes h "balance" || includes h "running balance".
Definition is_debit_header (h : string) : bool :=
  includes h "debit" || includes h "withdrawal".
Definition is_credit_header (h : string) : bool :=
  includes h "credit" || includes h "deposit".

Definition headers_of (headerLine : string) : list string :=
  (λ h, toLowerCase (trim h)) <$> split ","%char headerLine.

(** The column positions found in the header row. *)
Record Columns := mkColumns {
  dateIndex : nat;
  descIndex : nat;
  amountIndex : option nat;
  balanceIndex : option nat;
  debitIndex : option nat;
  creditIndex : option nat
}.

(** [index !== -1 && values[index] ? parseAmount(values[index]) : otherwise] *)
Definition cell_amount (index : option nat) (values : list string)
    : option number :=
  match index with
  | Some i =>
      match values !! i with
      | Some cell => if truthy cell then Some (parseAmount cell) else None
      | None => None
      end
  | None => None
  end.

Definition row_amount (cols : Columns) (values : list string) : number :=
  match cell_amount (amountIndex cols) values with
  | Some amount => amount
  | None =>
      let debit := default zero (cell_amount (debitIndex cols) values) in
      let credit := default zero (cell_amount (creditIndex cols) values) in
      sub credit debit
  end.

(** One turn of the loop over the data lines: a line is skipped, or
    pushes one transaction. *)
Definition parse_row (cols : Columns) (i : nat) (rawLine : string)
    : Result (option Transaction.t) :=
  let line := trim rawLine in
  if negb (truthy line) then Ok None else
  let values := parseCSVLine line in
  if length values <=? Nat.max (dateIndex cols) (descIndex cols) then Ok None
  else
    let amount := row_amount cols values in
    let balance := cell_amount (balanceIndex cols) values in
    match values !! dateIndex cols with
    | None => Throw (TypeError "Cannot read properties of undefined")
    | Some rawDate =>
        let normalizedDate := normalizeDate rawDate in
        Ok (Some (Transaction.mk (freshId i) normalizedDate
                    (default EmptyString (values !! descIndex cols))
                    amount balance "Uncategorized" None None None))
    end.

Fixpoint parse_rows (cols : Columns) (i : nat) (lines : list string)
    : Result (list Transaction.t) :=
  match lines with
  | [] => Ok []
  | line :: rest =>
      match parse_row cols i line with
      | Ok None => parse_rows cols (S i) rest
      | Ok (Some t) =>
          match parse_rows cols (S i) rest with
          | Ok ts => Ok (t :: ts)
          | other => other
          end
      | Throw e => Throw e
      | Diverge => Diverge
      end
  end.

Definition parseCSV (csvText : string) : Result (list Transaction.t) :=
  let lines := split "010"%char (trim csvText) in
  if length lines <? 2 then
    Throw (Error "CSV file must have at least a header row and one data row")
  else
    let headers := headers_of (default EmptyString (head lines)) in
    let dateIndex := findIndex is_date_header headers in
    let descIndex := findIndex is_description_header headers in
    let amountIndex := findIndex is_amount_header headers in
    let balanceIndex := findIndex is_balance_header headers in
    let debitIndex := findIndex is_debit_header headers in
    let creditIndex := findIndex is_credit_header headers in
    match dateIndex, descIndex with
    | Some dateIndex, Some descIndex =>
        if bool_decide (amountIndex = None)
           && (bool_decide (debitIndex = None)
               || bool_decide (creditIndex = None))
        then Throw (Error "Could not find amount, debit, or credit columns.")
        else
          parse_rows
            (mkColumns dateIndex descIndex amountIndex balanceIndex
               debitIndex creditIndex)
            1 (tail lines)
    | _, _ =>
        Throw (Error
          "Could not find date or description columns. Ensure your CSV has proper headers.")
    end.
End Parser.

(** ** The deduplication filter ([hooks/useTransactions.ts]) *)

Section Dedup.
Context `{Host}.

(** [transaction.amount] has type [number], so the [typeof] test of the
    source takes its first branch. *)
Definition createTransactionKey (transaction : Transaction.t) : string :=
  let date := trim (Transaction.date transaction) in
  let description := toLowerCase (trim (Transaction.description transaction)) in
  let amountValue := Transaction.amount transaction in
  let amount := if isFinite amountValue then amountValue else zero in
  date +:+ "|" +:+ description +:+ "|" +:+ toFixed2 amount.

(** [newTransactions.filter(...)] with the set [existingKeys] that the
    callback reads and extends. *)
Fixpoint filter_new (existingKeys : gset string)
    (newTransactions : list Transaction.t) : list Transaction.t :=
  match newTransactions with
  | [] => []
  | t :: rest =>
      let key := createTransactionKey t in
      if bool_decide (key ∈ existingKeys) then filter_new existingKeys rest
      else t :: filter_new ({[key]} ∪ existingKeys) rest
  end.

(** [dedupedTransactions] of [addTransactions]. *)
Definition dedupedTransactions (transactions newTransactions : list Transaction.t)
    : list Transaction.t :=
  filter_new (list_to_set (createTransactionKey <$> transactions))
    newTransactions.
End Dedup.

(** *** What the cascades issue *)

(** The rewrite, if any, that the loop of [updateCategory] issues for an
    affected id. *)
Definition path_change (oldPathMap newPathMap : PathMap) (affectedId : string)
    : option (string * string) :=
  match oldPathMap !! affectedId, newPathMap !! affectedId with
  | Some oldPath, Some newPath =>
      if truthy oldPath && truthy newPath && bool_decide (oldPath ≠ newPath)
      then Some (oldPath, newPath) else None
  | _, _ => None
  end.

Definition path_changes (oldPathMap newPathMap : PathMap)
    (affectedIds : list string) : list (string * string) :=
  omap (path_change oldPathMap newPathMap) affectedIds.

(** A sequence of rewrites applied to one row, in order. *)
Definition relabel_seq (changes : list (string * string)) (t : Transaction.t)
    : Transaction.t :=
  foldl (λ t change, relabel change.1 change.2 t) t changes.

(** ** A host for the examples *)

Definition ascii_lower (c : ascii) : ascii :=
  let n := nat_of_ascii c in
  if (65 <=? n) && (n <=? 90) then ascii_of_nat (n + 32) else c.

Fixpoint map_string (f : ascii → ascii) (s : string) : string :=
  match s with
  | EmptyString => EmptyString
  | String c s' => String (f c) (map_string f s')
  end.

(** Two decimals of a finite number, half away from zero. *)
Definition decimal_toFixed2 (n : number) : string :=
  match n with
  | Dec m e =>
      let scaled :=
        if (0 <=? e + 2)%Z then (Z.abs m * 10 ^ (e + 2))%Z
        else ((2 * Z.abs m + 10 ^ (- (e + 2))) / (2 * 10 ^ (- (e + 2))))%Z in
      (if (m <? 0)%Z then "-" else "")
      +:+ string_of_Z (scaled / 100)
      +:+ "." +:+ padStart2 (string_of_Z (scaled mod 100))
  | NaN => "NaN"
  | Infinity negative => if negative then "-Infinity" else "Infinity"
  end.

(** Code-unit order, ASCII case mapping, a calendar that knows one date,
    and a store that never fails. *)
Definition example_host : Host := {|
  localeCompare := String.compare;
  toLowerCase := map_string ascii_lower;
  newDate s :=
    if bool_decide (s = "13 Nov 2025") then Some (mkLocalDate 2025 10 13)
    else None;
  toFixed2 := decimal_toFixed2;
  freshId i := "row-" +:+ string_of_nat i;
  storeError _ _ := None
|}.

(** ** Example collections *)

(** The seeded system category, [Transport] and its child [Fuel]. *)
Definition transport_example : list Category.t :=
  [ Category.mk "u" "Uncategorized" None true;
    Category.mk "t" "Transport" None false;
    Category.mk "f" "Fuel" (Some "t") false ].

(** Two categories that name each other as parent. *)
Definition cycle_example : list Category.t :=
  [ Category.mk "a" "A" (Some "b") false;
    Category.mk "b" "B" (Some "a") false ].

(** A root with a child, a category whose parent is not in the collection,
    and two categories that name each other as parent. *)
Definition stray_example : list Category.t :=
  [ Category.mk "t" "Transport" None false;
    Category.mk "f" "Fuel" (Some "t") false;
    Category.mk "o" "Tolls" (Some "gone") false;
    Category.mk "a" "A" (Some "b") false;
    Category.mk "b" "B" (Some "a") false ].

(** A root [A] with a child [B]. *)
Definition chain_example : list Category.t :=
  [ Category.mk "t" "A" None false;
    Category.mk "c" "B" (Some "t") false ].

(** A row of the owner with the given label. *)
Definition row (id label : string) : Transaction.t :=
  Transaction.mk id "2024-11-01" "Fuel stop" (Dec (-85050) (-2)) None label
    None None (Some TEMP_USER_ID).

(** *** Shapes of characters *)

(** One byte followed by continuation bytes. *)
Definition unit_shape (ch : string) : Prop :=
  match ch with
  | String _ rest => all_chars is_continuation rest = true
  | EmptyString => False
  end.

(** A character that does not begin with a continuation byte. *)
Definition lead_ok (ch : string) : Prop :=
  match ch with
  | String b _ => is_continuation b = false
  | EmptyString => False
  end.

(** A string that is empty or begins a character. *)
Definition starts_character (s : string) : Prop :=
  match s with
  | String b _ => is_continuation b = false
  | EmptyString => True
  end.

(** The run of the rename example: [Transport] is renamed to [Travel]. *)
Definition transport_view : View :=
  Eval vm_compute in
    default (mkView [] ∅ ∅) (@render example_host 4 transport_example).

Definition rename_store : Store :=
  mkStore [row "1" "Transport → Fuel"; row "2" "Travel → Fuel"] [].

Definition renamed_categories : list Category.t :=
  [ Category.mk "u" "Uncategorized" None true;
    Category.mk "t" "Travel" None false;
    Category.mk "f" "Fuel" (Some "t") false ].

Definition renamed_paths : PathMap :=
  Eval vm_compute in
    default ∅ (snd <$> @buildTreeAndPaths example_host 4 renamed_categories).

Definition renamed_tree : list CategoryTreeNode :=
  Eval vm_compute in
    default [] (fst <$> @buildTreeAndPaths example_host 4 renamed_categories).

Definition renamed_store : Store :=
  mkStore [row "1" "Travel → Fuel"; row "2" "Travel → Fuel"]
    [UpdateCategoryRow "t" (Some "Travel") None;
     RelabelTransactions "Transport" "Travel";
     RelabelTransactions "Transport → Fuel" "Travel → Fuel"].

(** A root whose name contains the separator, with a child [C]; renamed to
    [Q], the root leaves the old path ["Q → C"] to be the child's new one. *)
Definition prefix_example : list Category.t :=
  [ Category.mk "t" "Q → C" None false;
    Category.mk "c" "C" (Some "t") false ].

Definition prefix_view : View :=
  Eval vm_compute in
    default (mkView [] ∅ ∅) (@render example_host 3 prefix_example).

Definition prefix_store : Store :=
  mkStore [row "1" "Q → C"; row "2" "Q → C → C"; row "3" "Q"] [].

Definition prefix_renamed_categories : list Category.t :=
  [ Category.mk "t" "Q" None false;
    Category.mk "c" "C" (Some "t") false ].

Definition prefix_renamed_paths : PathMap :=
  Eval vm_compute in
    default ∅
      (snd <$> @buildTreeAndPaths example_host 3 prefix_renamed_categories).

Definition prefix_renamed_tree : list CategoryTreeNode :=
  Eval vm_compute in
    default []
      (fst <$> @buildTreeAndPaths example_host 3 prefix_renamed_categories).

Definition prefix_renamed_store : Store :=
  mkStore [row "1" "Q"; row "2" "Q → C"; row "3" "Q"]
    [UpdateCategoryRow "t" (Some "Q") None;
     RelabelTransactions "Q → C" "Q";
     RelabelTransactions "Q → C → C" "Q → C"].

(** *** Column roles *)

(** Some header of the row fills the role. *)
Definition has_role (role : string → bool) (headers : list string) : Prop :=
  ∃ h, h ∈ headers ∧ role h = true.

(** What a debit or credit cell contributes: the normalized value of the
    cell, and zero when the column or the cell is missing. *)
Definition contribution (index : option nat) (values : list string) : number :=
  match index with
  | Some i =>
      match values !! i with
      | Some cell => parseAmount cell
      | None => zero
      end
  | None => zero
  end.

(** *** The structure of a flat collection *)

(** Identifiers are primary keys. *)
Definition unique_ids (categories : list Category.t) : Prop :=
  NoDup (Category.id <$> categories).

(** [descendant_of categories a d]: [d] is the id of a category below [a],
    following child edges (a child names its parent in [parent_id]). *)
Inductive descendant_of (categories : list Category.t)
    : string → string → Prop :=
  | descendant_child a c :
      c ∈ categories → Category.parent_id c = Some a →
      descendant_of categories a (Category.id c)
  | descendant_nested a c d :
      c ∈ categories → Category.parent_id c = Some a →
      descendant_of categories (Category.id c) d →
      descendant_of categories a d.

(** No category is its own ancestor. *)
Definition acyclic (categories : list Category.t) : Prop :=
  ∀ x, ¬ descendant_of categories x x.

(** [reachable categories c]: following parent links from [c] through
    categories of the collection ends at a root. *)
Inductive reachable (categories : list Category.t) : Category.t → Prop :=
  | reachable_root c :
      c ∈ categories → Category.parent_id c = None →
      reachable categories c
  | reachable_child c p :
      c ∈ categories → p ∈ categories →
      Category.parent_id c = Some (Category.id p) →
      reachable categories p → reachable categories c.

(** The call stack of [buildNode]: a category, its parent, ..., a root. *)
Inductive chain (categories : list Category.t) : list Category.t → Prop :=
  | chain_root r :
      r ∈ categories → Category.parent_id r = None → chain categories [r]
  | chain_cons c p l :
      c ∈ categories → Category.parent_id c = Some (Category.id p) →
      chain categories (p :: l) → chain categories (c :: p :: l).

(** The call stack of [collectDescendants] started at [base]: the ids
    entered below [base], the current one first. *)
Inductive id_chain (categories : list Category.t) (base : string)
    : list string → Prop :=
  | id_chain_nil : id_chain categories base []
  | id_chain_cons c l :
      c ∈ categories → Category.parent_id c = Some (hd base l) →
      id_chain categories base l →
      id_chain categories base (Category.id c :: l).

(** [below categories c x]: [x] is [c] or lies under it. *)
Inductive below (categories : list Category.t)
    : Category.t → Category.t → Prop :=
  | below_refl c : below categories c c
  | below_step c d x :
      d ∈ categories → Category.parent_id d = Some (Category.id c) →
      below categories d x → below categories c x.

(** *** The filter, in the words of the specification *)

Section DedupSpec.
Context `{Host}.

(** The fingerprint of a transaction. *)
Definition fingerprint (t : Transaction.t) : string :=
  let date := trim (Transaction.date t) in
  let description := toLowerCase (trim (Transaction.description t)) in
  let amount := toFixed2 (Transaction.amount t) in
  date +:+ "|" +:+ description +:+ "|" +:+ amount.

(** The candidates whose fingerprint is neither in the reference set nor
    among the fingerprints of the candidates accepted before them. *)
Fixpoint first_occurrences (key : Transaction.t → string)
    (reference : list string) (accepted candidates : list Transaction.t)
    : list Transaction.t :=
  match candidates with
  | [] => []
  | t :: rest =>
      if decide ((key t ∉ reference) ∧ (key t ∉ (key <$> accepted)))
      then t :: first_occurrences key reference (accepted ++ [t]) rest
      else first_occurrences key reference accepted rest
  end.
End DedupSpec.

(** Records of the dedup example. *)
Definition salary (id date description : string) (amount : number)
    : Transaction.t :=
  Transaction.mk id date description amount None "Uncategorized" None None None.

Definition known_records : list Transaction.t :=
  [salary "k1" "2024-11-01" "Salary Deposit" (Dec 1500000 (-2))].

Definition candidate_records : list Transaction.t :=
  [ salary "c1" " 2024-11-01" "SALARY deposit " (Dec 15000 0);
    salary "c2" "2024-11-01" "Salary Deposit" (Dec 1500001 (-2));
    salary "c3" "2024-11-01" "salary deposit" (Dec 1500001 (-2)) ].

(** The statement of the debit and credit example. *)
Definition statement_example : string :=
  "Date,Description,Debit,Credit
2024-11-01,Groceries,850.50,
2024-11-02,Salary Deposit,,15000.00".

Definition statement_transactions : list Transaction.t :=
  Eval vm_compute in
    match @parseCSV example_host statement_example with
    | Ok ts => ts
    | _ => []
    end.

(** *** The amount, in the words of the specification *)

(** A decimal number as a string (StrDecimalLiteral): an optional sign; then
    [Infinity], or digits with an optional fraction, or a fraction alone;
    then an optional exponent. *)
Definition is_sign (s : string) : Prop := s = "" ∨ s = "+" ∨ s = "-".

Definition is_digits (s : string) : Prop := all_chars is_digit s = true.

Definition signed (sign : string) (m : Z) : Z :=
  if bool_decide (sign = "-") then (- m)%Z else m.

Inductive exponent_part : string → Z → Prop :=
  | exponent_none : exponent_part "" 0
  | exponent_some mark sign digits :
      mark = "e" ∨ mark = "E" → is_sign sign →
      is_digits digits → digits ≠ "" →
      exponent_part (mark +:+ sign +:+ digits)
        (signed sign (digits_value digits)).

(** [decimal_literal s v]: the whole of [s] is a decimal number, and [v] is
    its value. *)
Inductive decimal_literal : string → number → Prop :=
  | literal_infinity sign :
      is_sign sign →
      decimal_literal (sign +:+ "Infinity")
        (Infinity (bool_decide (sign = "-")))
  | literal_digits sign int point frac expo e :
      is_sign sign → is_digits int → is_digits frac →
      int +:+ frac ≠ "" →
      point = "." ∨ (point = "" ∧ frac = "") →
      exponent_part expo e →
      decimal_literal (sign +:+ int +:+ point +:+ frac +:+ expo)
        (Dec (signed sign (digits_value (int +:+ frac)))
             (e - Z.of_nat (String.length frac))).

(** The characters a decimal number is written with. *)
Definition literal_char (c : ascii) : bool :=
  is_digit c || bool_decide (c ∈ list_ascii_of_string "+-.eEInfity").

(** ** The rest of the hooks, and the components that use them *)

(** *** Full paths, read off the parent links *)

(** [has_path categories c p]: [p] is the full path of [c], its name joined
    to the names of its ancestors down from a root. *)
Inductive has_path (categories : list Category.t)
    : Category.t → string → Prop :=
  | has_path_root c :
      c ∈ categories → Category.parent_id c = None →
      has_path categories c (Category.name c)
  | has_path_child c p pp :
      c ∈ categories → p ∈ categories →
      Category.parent_id c = Some (Category.id p) →
      has_path categories p pp →
      has_path categories c (joinPath (Some pp) (Category.name c)).

(** All the nodes of a tree, a node before the nodes below it. *)
Fixpoint nodes (t : CategoryTreeNode) : list CategoryTreeNode :=
  t :: flat_map nodes (children t).

(** [systemCategory] *)
Definition systemCategory (categories : list Category.t) : option Category.t :=
  find Category.is_system categories.

(** [getCategoryFullPath]: [None] is [null] or [undefined]. *)
Definition getCategoryFullPath (view : View) (categoryId : option string)
    : string :=
  let fallback :=
    match systemCategory (categories view) with
    | Some system =>
        default (Category.name system) (pathMap view !! Category.id system)
    | None => SYSTEM_CATEGORY_NAME
    end in
  match categoryId with
  | Some i =>
      if truthy i then default SYSTEM_CATEGORY_NAME (pathMap view !! i)
      else fallback
  | None => fallback
  end.

Definition transport_tree : list CategoryTreeNode :=
  Eval vm_compute in
    default [] (fst <$> @buildTreeAndPaths example_host 4 transport_example).

Definition transport_descendants : DescendantsMap :=
  Eval vm_compute in default ∅ (buildDescendantsMap 4 transport_example).

(** *** Rows written and read back *)

(** [l.join(sep)] *)
Fixpoint join_with (sep : string) (l : list string) : string :=
  match l with
  | [] => EmptyString
  | [s] => s
  | s :: rest => s +:+ sep +:+ join_with sep rest
  end.

(** The byte [c] does not occur in [s]. *)
Definition free_of (c : ascii) (s : string) : Prop :=
  all_chars (λ b, negb (bool_decide (b = c))) s = true.

Fixpoint count_char (c : ascii) (s : string) : nat :=
  match s with
  | EmptyString => 0
  | String b s' => (if bool_decide (b = c) then 1 else 0) + count_char c s'
  end.

(** The replacement of every double quote by two of them, as [replace]
    with the global pattern of one double quote does it, and the removal of
    every double quote. *)
Fixpoint escape_quotes (s : string) : string :=
  match s with
  | EmptyString => EmptyString
  | String c s' =>
      if bool_decide (c = "034"%char)
      then String c (String c (escape_quotes s'))
      else String c (escape_quotes s')
  end.

Fixpoint strip_quotes (s : string) : string :=
  match s with
  | EmptyString => EmptyString
  | String c s' =>
      if bool_decide (c = "034"%char) then strip_quotes s'
      else String c (strip_quotes s')
  end.

(** The row that [exportToCSV] of [components/ExportButtons.tsx] writes
    for a transaction. *)
Definition export_balance `{Host} (balance : option number) : string :=
  match balance with
  | Some b => if truthy (toFixed2 b) then toFixed2 b else EmptyString
  | None => EmptyString
  end.

Definition export_row `{Host} (t : Transaction.t) : string :=
  join_with ","
    [ Transaction.date t;
      String "034"%char
        (escape_quotes (Transaction.description t)
         +:+ String "034"%char EmptyString);
      Transaction.category t;
      toFixed2 (Transaction.amount t);
      export_balance (Transaction.balance t) ].

(** The characters of a string without the white space at its ends. *)
Definition strip_ends (l : list string) : list string :=
  rev (drop_while (in_class white_space)
         (rev (drop_while (in_class white_space) l))).

Definition double_quote : string := String "034"%char EmptyString.

Definition coffee : Transaction.t :=
  Transaction.mk "7" "2024-11-03"
    ("Coffee, " +:+ double_quote +:+ "to go" +:+ double_quote)
    (Dec (-4550) (-2)) (Some (Dec 120000 (-2))) "Dining" None None None.

(** *** The data lines that yield a transaction *)

(** The lines with their numbers, counted from [i]. *)
Fixpoint numbered (i : nat) (lines : list string) : list (nat * string) :=
  match lines with
  | [] => []
  | line :: rest => (i, line) :: numbered (S i) rest
  end.

(** A data line that is neither blank nor too short to hold the date and
    the description: the loop of [parseCSV] does not [continue] on it. *)
Definition kept_line (dateIndex descIndex : nat) (line : string) : bool :=
  truthy (trim line)
  && negb (length (parseCSVLine (trim line))
           <=? Nat.max dateIndex descIndex).

(** A statement with a blank line and a line that is too short. *)
Definition gappy_statement : string :=
  "Date,Description,Amount
2024-11-01,Groceries,-850.50

broken
2024-11-02,Salary,15000".

Definition gappy_transactions : list Transaction.t :=
  Eval vm_compute in
    match @parseCSV example_host gappy_statement with
    | Ok ts => ts
    | _ => []
    end.

(** ** The operations of the transactions hook ([hooks/useTransactions.ts]) *)

(** A row handed to [insert]: the columns that [addTransactions] sets. *)
Module NewTransaction.
Record t := mk {
  date : string;
  description : string;
  amount : number;
  balance : option number;
  category : string;
  category_id : option string;
  user_id : string
}.

#[global] Instance eq_dec : EqDecision t.
Proof. solve_decision. Defined.
End NewTransaction.

(** The calls of the hook on the [transactions] table; each one is
    restricted to the rows of [TEMP_USER_ID]. *)
Inductive TransactionsCall :=
  | InsertTransactions (rows : list NewTransaction.t)
  | DeleteAllTransactions
  | UpdateTransactionRow (id label : string) (category_id : option string)
  | DeleteTransactionRow (id : string).

(** The answers of the table: the message of the error of a call, if it
    fails, and the [data] that a successful [insert(...).select()]
    returns ([None] is [null]), given the calls issued before. *)
Class TransactionsTable := {
  tableError : list TransactionsCall → TransactionsCall → option string;
  insertedRows :
    list TransactionsCall → list NewTransaction.t → option (list Transaction.t)
}.

(** The state [transactions] of the hook, with the calls issued so far.
    The state [error], which only keeps the last message, is not
    modelled. *)
Record HookState := mkHook {
  hook_transactions : list Transaction.t;
  hook_calls : list TransactionsCall
}.

Definition transactionsToInsert (t : Transaction.t) : NewTransaction.t :=
  NewTransaction.mk (Transaction.date t) (Transaction.description t)
    (Transaction.amount t) (Transaction.balance t) (Transaction.category t)
    (Transaction.category_id t) TEMP_USER_ID.

(** [message || fallback] *)
Definition message_or (message fallback : string) : string :=
  if truthy message then message else fallback.

Section TransactionsHook.
Context `{Host} `{TransactionsTable}.

(** [addTransactions]: the result is the returned value, [None] for
    [null]. *)
Definition addTransactions (newTransactions : list Transaction.t)
    (s : HookState) : Result (option (list Transaction.t)) * HookState :=
  match dedupedTransactions (hook_transactions s) newTransactions with
  | [] => (Ok (Some []), s)
  | deduped =>
      let rows := transactionsToInsert <$> deduped in
      let calls := hook_calls s ++ [InsertTransactions rows] in
      match tableError (hook_calls s) (InsertTransactions rows) with
      | Some message =>
          (Throw (Error (message_or message "Failed to add transactions")),
           mkHook (hook_transactions s) calls)
      | None =>
          let data := insertedRows (hook_calls s) rows in
          (Ok data, mkHook (hook_transactions s ++ default [] data) calls)
      end
  end.

Definition clearTransactions (s : HookState) : Result unit * HookState :=
  let calls := hook_calls s ++ [DeleteAllTransactions] in
  match tableError (hook_calls s) DeleteAllTransactions with
  | Some message =>
      (Throw (Error (message_or message "Failed to clear transactions")),
       mkHook (hook_transactions s) calls)
  | None => (Ok tt, mkHook [] calls)
  end.

(** [updateTransactionCategory(id, {id: categoryId, label})] *)
Definition updateTransactionCategory (id : string)
    (categoryId : option string) (label : string) (s : HookState)
    : Result unit * HookState :=
  let call := UpdateTransactionRow id label categoryId in
  let calls := hook_calls s ++ [call] in
  match tableError (hook_calls s) call with
  | Some message =>
      (Throw (StoreError message), mkHook (hook_transactions s) calls)
  | None =>
      (Ok tt,
       mkHook ((λ t, if bool_decide (Transaction.id t = id)
                     then Transaction.mk (Transaction.id t)
                            (Transaction.date t) (Transaction.description t)
                            (Transaction.amount t) (Transaction.balance t)
                            label categoryId (Transaction.account_id t)
                            (Transaction.user_id t)
                     else t) <$> hook_transactions s) calls)
  end.

Definition deleteTransaction (id : string) (s : HookState)
    : Result unit * HookState :=
  let call := DeleteTransactionRow id in
  let calls := hook_calls s ++ [call] in
  match tableError (hook_calls s) call with
  | Some message =>
      (Throw (StoreError message), mkHook (hook_transactions s) calls)
  | None =>
      (Ok tt,
       mkHook (filter (λ t, Transaction.id t ≠ id) (hook_transactions s))
         calls)
  end.
End TransactionsHook.

(** The table returns the rows it was given, with whatever it adds to
    them: the date, the description and the amount of each returned row
    are those of the row handed in. *)
Definition returns_rows `{TransactionsTable} : Prop :=
  ∀ calls rows, ∃ data,
    insertedRows calls rows = Some data
    ∧ Forall2 (λ (row : NewTransaction.t) (t : Transaction.t),
                 Transaction.date t = NewTransaction.date row
                 ∧ Transaction.description t = NewTransaction.description row
                 ∧ Transaction.amount t = NewTransaction.amount row)
        rows data.

(** A table that never fails and numbers the rows it stores. *)
Fixpoint stored_rows (i : nat) (rows : list NewTransaction.t)
    : list Transaction.t :=
  match rows with
  | [] => []
  | row :: rest =>
      Transaction.mk ("tx-" +:+ string_of_nat i) (NewTransaction.date row)
        (NewTransaction.description row) (NewTransaction.amount row)
        (NewTransaction.balance row) (NewTransaction.category row)
        (NewTransaction.category_id row) None
        (Some (NewTransaction.user_id row))
      :: stored_rows (S i) rest
  end.

Definition example_table : TransactionsTable := {|
  tableError _ _ := None;
  insertedRows calls rows := Some (stored_rows (length calls) rows)
|}.

Definition known_state : HookState := mkHook known_records [].

(** ** The categories page ([app/settings/categories/page.tsx]) *)

#[global] Instance CategoryOption_eq_dec : EqDecision CategoryOption.
Proof. solve_decision. Defined.

(** [s.startsWith(prefix)] *)
Definition startsWith (s prefix : string) : bool :=
  match drop_prefix prefix s with Some _ => true | None => false end.

Definition savedCategoryOptions (categoryOptions : list CategoryOption)
    : list CategoryOption :=
  filter (λ option, startsWith (opt_id option) "legacy-" = false
                    ∧ opt_id option ≠ "system-uncategorized")
    categoryOptions.

(** The first result of [f] over a list: a loop that returns from inside. *)
Fixpoint find_first {A B} (f : A → option B) (l : list A) : option B :=
  match l with
  | [] => None
  | x :: l' => match f x with Some y => Some y | None => find_first f l' end
  end.

(** One turn of the loop of [findNodeById]. *)
Fixpoint findNode (id : string) (node : CategoryTreeNode)
    : option CategoryTreeNode :=
  if bool_decide (Category.id (node_category node) = id) then Some node
  else find_first (findNode id) (children node).

Definition findNodeById (nodes : list CategoryTreeNode) (id : string)
    : option CategoryTreeNode :=
  find_first (findNode id) nodes.

(** [traverse] of [collectDescendantIds], with the set [ids] it fills. *)
Fixpoint traverse (ids : gset string) (current : CategoryTreeNode)
    : gset string :=
  foldl (λ ids child,
           traverse ({[Category.id (node_category child)]} ∪ ids) child)
        ids (children current).

Definition collectDescendantIds (node : option CategoryTreeNode)
    : gset string :=
  match node with
  | None => ∅
  | Some node => traverse ∅ node
  end.

Definition availableParentOptions (categoryTree : list CategoryTreeNode)
    (categoryOptions : list CategoryOption) (categoryId : option string)
    : list CategoryOption :=
  let saved := savedCategoryOptions categoryOptions in
  match categoryId with
  | Some id =>
      if truthy id then
        let node := findNodeById categoryTree id in
        let forbiddenIds := {[id]} ∪ collectDescendantIds node in
        filter (λ option, opt_id option ∉ forbiddenIds) saved
      else saved
  | None => saved
  end.

(** ** Creating and seeding categories ([hooks/useCategories.ts]) *)

(** The row handed to [insert] on the [categories] table. *)
Record CategoryPayload := mkPayload {
  pay_name : string;
  pay_parent_id : option string;
  pay_user_id : string;
  pay_is_system : bool
}.

(** The answer of the table to [insert(payload).select().single()], given
    the rows it holds: the message of an error, or the stored row. *)
Class CategoriesTable := {
  insertCategoryRow : list Category.t → CategoryPayload → string + Category.t
}.

(** The rows of the [categories] table in the order of their creation, the
    payloads handed to it so far, and the state [categories] of the hook. *)
Record CategoryState := mkCategoryState {
  table_rows : list Category.t;
  table_inserts : list CategoryPayload;
  state_categories : list Category.t
}.

(** The table stores what it is given under a key of its own choice, which
    no row has yet. *)
Definition stores_payload `{CategoriesTable} : Prop :=
  ∀ rows payload data,
    insertCategoryRow rows payload = inr data →
    Category.name data = pay_name payload
    ∧ Category.parent_id data = pay_parent_id payload
    ∧ Category.is_system data = pay_is_system payload
    ∧ Category.id data ∉ Category.id <$> rows.

(** A seed: [children] and [isSystem] are optional. *)
#[local] Unset Elimination Schemes.
Inductive CategorySeed := Seed {
  seed_name : string;
  seed_children : option (list CategorySeed);
  seed_isSystem : option bool
}.
#[local] Set Elimination Schemes.

(** The callback of [flattenSeeds], and [flattenSeeds]. *)
Fixpoint flattenSeed (parentPath : option string) (seed : CategorySeed)
    : list string :=
  let fullPath := joinPath parentPath (seed_name seed) in
  let childPaths :=
    match seed_children seed with
    | Some seeds => flat_map (flattenSeed (Some fullPath)) seeds
    | None => []
    end in
  fullPath :: childPaths.

Definition flattenSeeds (seeds : list CategorySeed)
    (parentPath : option string) : list string :=
  flat_map (flattenSeed parentPath) seeds.

(** [for (const x of l) await f(x)] *)
Definition for_each {A S : Type} (f : A → S → Result unit * S)
    : list A → S → Result unit * S :=
  fix go l s :=
    match l with
    | [] => (Ok tt, s)
    | x :: l' =>
        match f x s with
        | (Ok _, s') => go l' s'
        | other => other
        end
    end.

Section Seeding.
Context `{CategoriesTable}.

(** [insertCategory] of [seedDefaultCategories] *)
Fixpoint insertCategory (seed : CategorySeed) (parentId : option string)
    (s : CategoryState) : Result Category.t * CategoryState :=
  let payload :=
    mkPayload (seed_name seed) parentId TEMP_USER_ID
      (default false (seed_isSystem seed)) in
  match insertCategoryRow (table_rows s) payload with
  | inl message =>
      (Throw (Error message),
       mkCategoryState (table_rows s) (table_inserts s ++ [payload])
         (state_categories s))
  | inr category =>
      let s1 :=
        mkCategoryState (table_rows s ++ [category])
          (table_inserts s ++ [payload]) (state_categories s) in
      match seed_children seed with
      | Some (child :: rest) =>
          match for_each
                  (λ child s,
                     match insertCategory child (Some (Category.id category)) s
                     with
                     | (Ok _, s') => (Ok tt, s')
                     | (Throw e, s') => (Throw e, s')
                     | (Diverge, s') => (Diverge, s')
                     end)
                  (child :: rest) s1 with
          | (Ok _, s2) => (Ok category, s2)
          | (Throw e, s2) => (Throw e, s2)
          | (Diverge, s2) => (Diverge, s2)
          end
      | _ => (Ok category, s1)
      end
  end.

(** The loop of [seedDefaultCategories] over the seeds. *)
Definition seedCategories (seeds : list CategorySeed) (s : CategoryState)
    : Result unit * CategoryState :=
  for_each (λ seed s,
              match insertCategory seed None s with
              | (Ok _, s') => (Ok tt, s')
              | (Throw e, s') => (Throw e, s')
              | (Diverge, s') => (Diverge, s')
              end) seeds s.

(** [createCategory] *)
Definition createCategory (name : string) (parentId : option string)
    (s : CategoryState) : Result unit * CategoryState :=
  let trimmedName := trim name in
  if negb (truthy trimmedName)
  then (Throw (Error "Category name is required"), s)
  else
    let payload := mkPayload trimmedName parentId TEMP_USER_ID false in
    match insertCategoryRow (table_rows s) payload with
    | inl message =>
        (Throw (StoreError message),
         mkCategoryState (table_rows s) (table_inserts s ++ [payload])
           (state_categories s))
    | inr data =>
        (Ok tt,
         mkCategoryState (table_rows s ++ [data])
           (table_inserts s ++ [payload]) (state_categories s ++ [data]))
    end.
End Seeding.

Definition DEFAULT_CATEGORY_STRUCTURE : list CategorySeed :=
  [ Seed SYSTEM_CATEGORY_NAME None (Some true);
    Seed "Income"
      (Some [ Seed "Salary" None None; Seed "Business Income" None None;
              Seed "Other Income" None None ]) None;
    Seed "Housing"
      (Some [ Seed "Rent" None None; Seed "Utilities" None None;
              Seed "Maintenance" None None ]) None;
    Seed "Living Expenses"
      (Some [ Seed "Groceries" None None; Seed "Dining" None None;
              Seed "Shopping" None None; Seed "Entertainment" None None ])
      None;
    Seed "Transport"
      (Some [ Seed "Fuel" None None; Seed "Rideshare (Uber/Bolt)" None None;
              Seed "Vehicle Maintenance" None None;
              Seed "Public Transport" None None ]) None;
    Seed "Insurance" None None;
    Seed "Healthcare" None None;
    Seed "Subscriptions" None None;
    Seed "Bank Fees" None None;
    Seed "Tax" None None;
    Seed "Other Expenses" None None ].

(** A table that never fails; the key of a new row is longer than the
    keys of the rows it holds. *)
Definition longer_id (rows : list Category.t) : string :=
  bytes (replicate
           (S (foldr Nat.max 0
                 ((λ c, String.length (Category.id c)) <$> rows))) 99).

Definition example_categories_table : CategoriesTable := {|
  insertCategoryRow rows payload :=
    inr (Category.mk (longer_id rows) (pay_name payload)
           (pay_parent_id payload) (pay_is_system payload))
|}.

Definition seeded_state : CategoryState :=
  Eval vm_compute in
    (@seedCategories example_categories_table DEFAULT_CATEGORY_STRUCTURE
       (mkCategoryState [] [] [])).2.

Definition seeded_tree : list CategoryTreeNode :=
  Eval vm_compute in
    default [] (fst <$> @buildTreeAndPaths example_host 28
                          (table_rows seeded_state)).

Definition seeded_paths : PathMap :=
  Eval vm_compute in
    default ∅ (snd <$> @buildTreeAndPaths example_host 28
                         (table_rows seeded_state)).

(** *** What seeding leaves in the table *)

(** Every category with the parent [parentId] has the path that joins its
    name to [parentPath]. *)
Definition path_under (cats : list Category.t) (parentId : option string)
    (parentPath : option string) : Prop :=
  ∀ c, c ∈ cats → Category.parent_id c = parentId →
    has_path cats c (joinPath parentPath (Category.name c)).

(** What [insertCategory] leaves in the table for a seed. *)
Definition seed_inserted `{CategoriesTable} (seed : CategorySeed) : Prop :=
  ∀ parentId s c s',
    insertCategory seed parentId s = (Ok c, s') →
    ∃ new,
      table_rows s' = table_rows s ++ c :: new
      ∧ Category.parent_id c = parentId
      ∧ Category.name c = seed_name seed
      ∧ (unique_ids (table_rows s) → unique_ids (table_rows s'))
      ∧ (∀ cats parentPath,
           (∀ x, x ∈ c :: new → x ∈ cats) →
           path_under cats parentId parentPath →
           Forall2 (has_path cats) (c :: new) (flattenSeed parentPath seed)).

(** *** Runs of the examples *)

Definition added_data : option (list Transaction.t) :=
  Eval vm_compute in
    match (@addTransactions example_host example_table candidate_records
             known_state).1 with
    | Ok data => data
    | _ => None
    end.

Definition added_state : HookState :=
  Eval vm_compute in
    (@addTransactions example_host example_table candidate_records
       known_state).2.

Definition recategorised_state : HookState :=
  Eval vm_compute in
    (@updateTransactionCategory example_table "k1" (Some "f")
       "Transport → Fuel" known_state).2.

Definition deleted_state : HookState :=
  Eval vm_compute in (@deleteTransaction example_table "k1" known_state).2.

Definition transport_state : CategoryState :=
  mkCategoryState transport_example [] transport_example.

Definition created_state : CategoryState :=
  Eval vm_compute in
    (@createCategory example_categories_table " Tolls " (Some "t")
       transport_state).2.

Definition created_tree : list CategoryTreeNode :=
  Eval vm_compute in
    default [] (fst <$> @buildTreeAndPaths example_host 5
                          (state_categories created_state)).

Definition created_paths : PathMap :=
  Eval vm_compute in
    default ∅ (snd <$> @buildTreeAndPaths example_host 5
                         (state_categories created_state)).

Definition unchanged_store : Store :=
  Eval vm_compute in
    (@updateCategory example_host 4 transport_view "t"
       (mkUpdates (Some " Transport ") (Some None)) rename_store).2.

(** ** The options of the transaction table
    ([components/TransactionList.tsx]) *)

(** [Array.from(new Set(l))]: the values of [l] in the order of their
    first occurrence. *)
Definition unique_values (l : list string) : list string :=
  foldl (λ acc x, if bool_decide (x ∈ acc) then acc else acc ++ [x]) [] l.

Definition legacyCategories (transactions : list Transaction.t)
    (categories : list CategoryOption) : list CategoryOption :=
  let uniqueCategories :=
    unique_values (Transaction.category <$> transactions) in
  let categoryLabels := opt_label <$> categories in
  (λ category,
     mkOption ("legacy-" +:+ category) category
       (bool_decide (category = SYSTEM_CATEGORY_NAME)))
  <$> filter (λ category, category ∉ categoryLabels) uniqueCategories.

(** The [reduce] that keeps the first option of every label. *)
Definition mergedCategoryOptions (transactions : list Transaction.t)
    (categories : list CategoryOption) : list CategoryOption :=
  foldl (λ acc option,
           match find (λ existing,
                         bool_decide (opt_label existing = opt_label option))
                   acc with
           | Some _ => acc
           | None => acc ++ [option]
           end)
        [] (categories ++ legacyCategories transactions categories).

Definition sortedCategoryOptions `{Host} (transactions : list Transaction.t)
    (categories : list CategoryOption) : list CategoryOption :=
  sort_by option_order (mergedCategoryOptions transactions categories).

(** *** Well-formed collections *)

(** Every parent named by a category is in the collection. *)
Definition parents_exist (categories : list Category.t) : Prop :=
  ∀ c p, c ∈ categories → Category.parent_id c = Some p →
    p ∈ Category.id <$> categories.

Definition moved_store : Store :=
  Eval vm_compute in
    (@updateCategory example_host 4 transport_view "f"
       (mkUpdates None (Some None)) rename_store).2.

Definition moved_categories : list Category.t :=
  [ Category.mk "u" "Uncategorized" None true;
    Category.mk "t" "Transport" None false;
    Category.mk "f" "Fuel" None false ].

Definition fuel_deleted_store : Store :=
  Eval vm_compute in
    (@deleteCategory example_host transport_view "f" rename_store).2.

Definition fuel_deleted_categories : list Category.t :=
  [ Category.mk "u" "Uncategorized" None true;
    Category.mk "t" "Transport" None false ].

Definition fuel_deleted_tree : list CategoryTreeNode :=
  Eval vm_compute in
    default [] (fst <$> @buildTreeAndPaths example_host 3
                          fuel_deleted_categories).

Definition fuel_deleted_paths : PathMap :=
  Eval vm_compute in
    default ∅ (snd <$> @buildTreeAndPaths example_host 3
                         fuel_deleted_categories).

(** * Part II: properties *)

(** A decidable proposition about concrete data, settled by evaluation. *)
Ltac by_evaluation := refine (bool_decide_unpack _ _); vm_compute; exact I.

(** *** Facts about the helpers *)

Lemma sort_insert_perm {A} (cmp : A → A → comparison) x l :
  sort_insert cmp x l ≡ₚ x :: l.
Proof.
  induction l as [|y l IH]; simpl; [done|].
  destruct (cmp x y); try done.
  rewrite IH. apply Permutation_swap.
Qed.

Lemma sort_by_perm {A} (cmp : A → A → comparison) l : sort_by cmp l ≡ₚ l.
Proof.
  induction l as [|x l IH]; simpl; [done|].
  by rewrite sort_insert_perm, IH.
Qed.

Lemma elem_of_sort_by {A} (cmp : A → A → comparison) x l :
  x ∈ sort_by cmp l ↔ x ∈ l.
Proof. by rewrite sort_by_perm. Qed.

Lemma children_of_foldl (m0 : ChildrenMap) categories key :
  children_of
    (foldl (λ (map : ChildrenMap) category,
              let key := Category.parent_id category in
              let siblings := default [] (map !! key) in
              <[key := siblings ++ [category]]> map) m0 categories) key
  = children_of m0 key
      ++ filter (λ c, Category.parent_id c = key) categories.
Proof.
  revert m0. induction categories as [|c cs IH]; intros m0; simpl.
  - by rewrite app_nil_r.
  - rewrite IH. unfold children_of at 1.
    rewrite filter_cons. destruct (decide (Category.parent_id c = key)) as [->|Hne].
    + rewrite lookup_insert_eq. simpl. by rewrite <-app_assoc.
    + by rewrite lookup_insert_ne.
Qed.

Lemma children_of_create categories key :
  children_of (createChildrenMap categories) key
  = filter (λ c, Category.parent_id c = key) categories.
Proof.
  unfold createChildrenMap. rewrite children_of_foldl.
  unfold children_of. by rewrite lookup_empty.
Qed.

Lemma elem_of_children categories key c :
  c ∈ children_of (createChildrenMap categories) key
  ↔ c ∈ categories ∧ Category.parent_id c = key.
Proof. rewrite children_of_create, list_elem_of_filter. tauto. Qed.


(** *** [map_st] *)

Lemma map_st_is_Some {A B S} (f : A → S → option (B * S)) l s :
  (∀ x s, x ∈ l → is_Some (f x s)) → is_Some (map_st f l s).
Proof.
  revert s. induction l as [|x l IH]; intros s Hf; simpl; [by eexists|].
  destruct (Hf x s (list_elem_of_here _ _)) as [[y s1] ->]. simpl.
  destruct (IH s1) as [[ys s2] ->]; [|by eexists].
  intros ???. apply Hf. by apply list_elem_of_further.
Qed.

Lemma map_st_ext_in {A B S} (f g : A → S → option (B * S)) l s r :
  (∀ x s r, x ∈ l → f x s = Some r → g x s = Some r) →
  map_st f l s = Some r → map_st g l s = Some r.
Proof.
  revert s r. induction l as [|x l IH]; intros s r Hfg; simpl; [done|].
  destruct (f x s) as [[y s1]|] eqn:Hx; simpl; [|done].
  rewrite (Hfg x s (y, s1) (list_elem_of_here _ _) Hx). simpl.
  destruct (map_st f l s1) as [[ys s2]|] eqn:Hl; simpl; [|done].
  intros <-. rewrite (IH s1 (ys, s2)); [done| |done].
  intros x' ?? Hin. apply Hfg. by apply list_elem_of_further.
Qed.

Lemma map_st_steps {A B S} (f : A → S → option (B * S))
    (R : S → B → S → Prop) l s ys s' :
  (∀ x s y s', x ∈ l → f x s = Some (y, s') → R s y s') →
  map_st f l s = Some (ys, s') → steps R s ys s'.
Proof.
  revert s ys s'. induction l as [|x l IH]; intros s ys s' Hf; simpl.
  - intros [= <- <-]. constructor.
  - destruct (f x s) as [[y s1]|] eqn:Hx; simpl; [|done].
    destruct (map_st f l s1) as [[ys' s2]|] eqn:Hl; simpl; [|done].
    intros [= <- <-]. econstructor.
    + apply (Hf x); [apply list_elem_of_here|exact Hx].
    + apply IH; [|done]. intros x' ??? Hin. apply Hf. by apply list_elem_of_further.
Qed.

(** Every output of a successful [map_st] comes from an input, and every
    input has an output. *)
Lemma map_st_outputs {A B S} (f : A → S → option (B * S)) l s ys s' :
  map_st f l s = Some (ys, s') →
  Forall2 (λ x y, ∃ s1 s2, f x s1 = Some (y, s2)) l ys.
Proof.
  revert s ys s'. induction l as [|x l IH]; intros s ys s'; simpl.
  - intros [= <- <-]. constructor.
  - destruct (f x s) as [[y s1]|] eqn:Hx; simpl; [|done].
    destruct (map_st f l s1) as [[ys' s2]|] eqn:Hl; simpl; [|done].
    intros [= <- <-]. constructor; eauto.
Qed.

(** *** Fuel *)

Section BuildFacts.
Context `{Host}.

Lemma buildNode_fuel_mono n m cm c pp pm r :
  n ≤ m → buildNode n cm c pp pm = Some r → buildNode m cm c pp pm = Some r.
Proof.
  revert m c pp pm r. induction n as [|n IH]; intros m c pp pm r Hle; [done|].
  destruct m as [|m]; [lia|]. simpl.
  destruct (map_st _ _ _) as [[ys s2]|] eqn:Hm; simpl; [|done].
  intros <-.
  erewrite (map_st_ext_in _ _ _ _ (ys, s2)); [done| |exact Hm].
  intros x s r' _. apply IH. lia.
Qed.

Lemma buildTreeAndPaths_fuel_mono n m cats r :
  n ≤ m → buildTreeAndPaths n cats = Some r → buildTreeAndPaths m cats = Some r.
Proof.
  intros Hle. unfold buildTreeAndPaths. apply map_st_ext_in.
  intros x s r' _. by apply buildNode_fuel_mono.
Qed.
End BuildFacts.

(** *** Termination of the tree build *)

Lemma unique_ids_eq cats x y :
  unique_ids cats → x ∈ cats → y ∈ cats →
  Category.id x = Category.id y → x = y.
Proof.
  unfold unique_ids. induction cats as [|c cats IH]; simpl.
  - by intros _ ?%elem_of_nil.
  - intros [Hc Hnd]%NoDup_cons [->|Hx]%elem_of_cons [->|Hy]%elem_of_cons Heq;
      try done.
    + exfalso. apply Hc. rewrite Heq. by apply list_elem_of_fmap_2.
    + exfalso. apply Hc. rewrite <-Heq. by apply list_elem_of_fmap_2.
    + by apply IH.
Qed.

Lemma chain_in cats l x : chain cats l → x ∈ l → x ∈ cats.
Proof.
  induction 1 as [r Hr _|c p l Hc _ _ IH].
  - by intros ->%list_elem_of_singleton.
  - intros [->|Hx]%elem_of_cons; [done|by apply IH].
Qed.

Lemma chain_parent cats p rest x :
  chain cats (p :: rest) → x ∈ p :: rest →
  Category.parent_id x = None
  ∨ ∃ q, q ∈ rest ∧ Category.parent_id x = Some (Category.id q).
Proof.
  revert p. induction rest as [|q rest IH]; intros p Hch Hx.
  - inversion Hch; subst. apply list_elem_of_singleton in Hx as ->. by left.
  - inversion Hch as [|? ? ? Hc Hp Hch']; subst.
    apply elem_of_cons in Hx as [->|Hx].
    + right. exists q. split; [apply list_elem_of_here|done].
    + destruct (IH q Hch' Hx) as [?|(q' & Hq' & ?)]; [by left|].
      right. exists q'. split; [by apply list_elem_of_further|done].
Qed.

Lemma chain_NoDup cats l :
  unique_ids cats → chain cats l → NoDup (Category.id <$> l).
Proof.
  intros Hu. induction 1 as [r Hr _|c p l Hc Hp Hch IH].
  - apply NoDup_singleton.
  - rewrite fmap_cons. apply NoDup_cons. split; [|done].
    intros (x & Hid & Hx)%list_elem_of_fmap_1.
    assert (x = c) as ->.
    { symmetry. apply (unique_ids_eq cats); [done|done| |done].
      by apply (chain_in cats (p :: l)). }
    destruct (chain_parent _ _ _ _ Hch Hx) as [Hn|(q & Hq & Hpq)]; [congruence|].
    assert (Category.id p = Category.id q) as Heq by congruence.
    rewrite fmap_cons in IH. apply NoDup_cons in IH as [Hnotin _].
    apply Hnotin. rewrite Heq. by apply list_elem_of_fmap_2.
Qed.

Lemma ids_length_le cats (ids : list string) :
  NoDup ids → (∀ i, i ∈ ids → i ∈ Category.id <$> cats) →
  length ids ≤ length cats.
Proof.
  intros Hnd Hsub.
  rewrite <-(length_fmap Category.id cats).
  apply submseteq_length, NoDup_submseteq; done.
Qed.

Lemma chain_length cats l :
  unique_ids cats → chain cats l → length l ≤ length cats.
Proof.
  intros Hu Hch. rewrite <-(length_fmap Category.id l).
  apply ids_length_le; [by eapply chain_NoDup|].
  intros i (x & -> & Hx)%list_elem_of_fmap_1.
  apply list_elem_of_fmap_2. by eapply chain_in.
Qed.

Section Termination.
Context `{Host}.

Lemma buildNode_total cats n c stack pp pm :
  unique_ids cats → chain cats (c :: stack) →
  length cats ≤ n + length stack →
  is_Some (buildNode n (createChildrenMap cats) c pp pm).
Proof.
  intros Hu. revert c stack pp pm.
  induction n as [|n IH]; intros c stack pp pm Hch Hlen.
  - pose proof (chain_length _ _ Hu Hch) as Hl. simpl in Hl, Hlen. lia.
  - simpl.
    destruct (map_st_is_Some
      (λ child pm0, buildNode n (createChildrenMap cats) child
         (Some (joinPath pp (Category.name c))) pm0)
      (sort_by by_name
         (children_of (createChildrenMap cats) (Some (Category.id c))))
      (<[Category.id c := joinPath pp (Category.name c)]> pm))
      as [[ys s2] Hm].
    + intros d s [Hd Hp]%elem_of_sort_by%elem_of_children.
      apply (IH d (c :: stack)).
      * destruct stack; constructor; try done; by inversion Hch.
      * simpl. lia.
    + rewrite Hm. by eexists.
Qed.

Lemma buildTreeAndPaths_total cats :
  unique_ids cats → is_Some (buildTreeAndPaths (length cats) cats).
Proof.
  intros Hu. unfold buildTreeAndPaths. apply map_st_is_Some.
  intros r s [Hr Hp]%elem_of_sort_by%elem_of_children.
  apply (buildNode_total cats _ r []); [done| |simpl; lia].
  by constructor.
Qed.
End Termination.

(** *** [collectDescendants] *)

Lemma foldl_collect (g : string → option (list string)) acc
    (l : list Category.t) :
  foldl (λ (acc : option (list string)) child,
           acc ← acc;
           nested ← g (Category.id child);
           Some ((acc ++ [Category.id child]) ++ nested)) acc l
  = acc0 ← acc;
    parts ← mapM (λ child, (Category.id child ::.) <$> g (Category.id child)) l;
    Some (acc0 ++ mjoin parts).
Proof.
  revert acc. induction l as [|c l IH]; intros acc; simpl.
  - destruct acc; simpl; [|done]. by rewrite app_nil_r.
  - rewrite IH. destruct acc as [acc0|]; simpl; [|done].
    destruct (g (Category.id c)) as [nested|]; simpl; [|done].
    destruct (mapM _ l) as [parts|]; simpl; [|done].
    f_equal. by rewrite <-!app_assoc.
Qed.

Lemma collectDescendants_S n cm a :
  collectDescendants (S n) cm a
  = mjoin <$> mapM (λ child, (Category.id child ::.)
                        <$> collectDescendants n cm (Category.id child))
                    (children_of cm (Some a)).
Proof.
  simpl. rewrite foldl_collect. simpl.
  by destruct (mapM _ _).
Qed.

Lemma collectDescendants_fuel_mono n m cm a r :
  n ≤ m → collectDescendants n cm a = Some r →
  collectDescendants m cm a = Some r.
Proof.
  revert m a r. induction n as [|n IH]; intros m a r Hle; [done|].
  destruct m as [|m]; [lia|]. rewrite !collectDescendants_S.
  destruct (mapM _ _) as [parts|] eqn:Hparts; simpl; [|done].
  intros [= <-].
  assert (mapM (λ child, (Category.id child ::.)
                  <$> collectDescendants m cm (Category.id child))
               (children_of cm (Some a)) = Some parts) as ->; [|done].
  apply mapM_Some. apply mapM_Some in Hparts.
  eapply Forall2_impl; [exact Hparts|]. intros c part Hc. simpl in *.
  destruct (collectDescendants n cm (Category.id c)) as [nested|] eqn:Hn;
    simpl in Hc; [|done].
  rewrite (IH m _ nested); [done|lia|done].
Qed.

Lemma buildDescendantsMap_fuel_mono n m cats r :
  n ≤ m → buildDescendantsMap n cats = Some r →
  buildDescendantsMap m cats = Some r.
Proof.
  intros Hle. unfold buildDescendantsMap.
  generalize (createChildrenMap cats) as cm.
  generalize (Some (∅ : DescendantsMap)) as acc. intros acc cm. revert acc r.
  induction cats as [|c cats IH]; intros acc r; simpl; [done|].
  destruct acc as [acc|]; simpl.
  - destruct (collectDescendants n cm (Category.id c)) as [d|] eqn:Hd; simpl.
    + rewrite (collectDescendants_fuel_mono n m cm _ d Hle Hd). simpl. apply IH.
    + intros Hnone. exfalso. revert Hnone. clear.
      induction cats as [|c' cats IH]; simpl; [done|]. exact IH.
  - apply IH.
Qed.

Lemma descendant_snoc cats a b c :
  descendant_of cats a b → c ∈ cats → Category.parent_id c = Some b →
  descendant_of cats a (Category.id c).
Proof.
  induction 1 as [a x Hx Hp|a x d Hx Hp _ IH]; intros Hc Hpc.
  - eapply descendant_nested; [exact Hx|exact Hp|]. by apply descendant_child.
  - eapply descendant_nested; [exact Hx|exact Hp|]. by apply IH.
Qed.

Lemma descendant_trans cats a b c :
  descendant_of cats a b → descendant_of cats b c → descendant_of cats a c.
Proof.
  intros Hab. induction 1 as [b x Hx Hp|b x d Hx Hp _ IH].
  - by eapply descendant_snoc.
  - apply IH. by eapply descendant_snoc.
Qed.

(** The result of [collectDescendants] lists exactly the descendants. *)
Lemma collectDescendants_spec cats n a l :
  collectDescendants n (createChildrenMap cats) a = Some l →
  ∀ d, d ∈ l ↔ descendant_of cats a d.
Proof.
  revert a l. induction n as [|n IH]; intros a l; [done|].
  rewrite collectDescendants_S.
  destruct (mapM _ _) as [parts|] eqn:Hparts; simpl; [|done].
  intros [= <-] d. apply mapM_Some in Hparts. split.
  - intros (part & Hd & Hpart)%list_elem_of_join.
    apply list_elem_of_lookup_1 in Hpart as [i Hi].
    destruct (Forall2_lookup_r _ _ _ _ _ Hparts Hi) as (c & Hc & Hcp).
    apply list_elem_of_lookup_2, elem_of_children in Hc as [Hc Hpc].
    destruct (collectDescendants n _ (Category.id c)) as [nested|] eqn:Hn;
      simpl in Hcp; [|done].
    injection Hcp as <-.
    apply elem_of_cons in Hd as [->|Hd]; [by apply descendant_child|].
    eapply descendant_nested; [exact Hc|exact Hpc|].
    by apply (IH _ nested).
  - intros Hd. apply list_elem_of_join.
    assert (∃ c, c ∈ cats ∧ Category.parent_id c = Some a
                 ∧ (d = Category.id c ∨ descendant_of cats (Category.id c) d))
      as (c & Hc & Hpc & Hcase).
    { inversion Hd; subst; eauto 6. }
    assert (c ∈ children_of (createChildrenMap cats) (Some a)) as Hin
      by by apply elem_of_children.
    apply list_elem_of_lookup_1 in Hin as [i Hi].
    destruct (Forall2_lookup_l _ _ _ _ _ Hparts Hi) as (part & Hpart & Hcp).
    destruct (collectDescendants n _ (Category.id c)) as [nested|] eqn:Hn;
      simpl in Hcp; [|done].
    injection Hcp as <-.
    exists (Category.id c :: nested). split; [|by eapply list_elem_of_lookup_2].
    destruct Hcase as [->|Hdesc]; [apply list_elem_of_here|].
    apply list_elem_of_further. by apply (IH (Category.id c) nested).
Qed.

Lemma foldl_descendants_None n cm (cats : list Category.t) :
  foldl (λ (map : option DescendantsMap) category,
           map ← map;
           d ← collectDescendants n cm (Category.id category);
           Some (<[Category.id category := d]> map)) None cats = None.
Proof. induction cats as [|c cats IH]; simpl; [done|exact IH]. Qed.

Lemma foldl_descendants_lookup n cm (cats : list Category.t) acc dm :
  foldl (λ (map : option DescendantsMap) category,
           map ← map;
           d ← collectDescendants n cm (Category.id category);
           Some (<[Category.id category := d]> map)) (Some acc) cats = Some dm →
  ∀ i, dm !! i = if decide (i ∈ Category.id <$> cats)
                 then collectDescendants n cm i else acc !! i.
Proof.
  revert acc. induction cats as [|c cats IH]; intros acc; cbn [foldl].
  - intros [= <-] i. case_decide as Hin; [by apply elem_of_nil in Hin|done].
  - cbn [mbind option_bind].
    destruct (collectDescendants n cm (Category.id c)) as [d|] eqn:Hd;
      cbn [mbind option_bind].
    + intros Hf i. rewrite (IH _ Hf i). rewrite fmap_cons.
      destruct (decide (i ∈ Category.id <$> cats)) as [Hin|Hnin];
        case_decide as Hin'.
      * done.
      * exfalso. apply Hin'. by apply list_elem_of_further.
      * apply elem_of_cons in Hin' as [->|?]; [|done].
        by rewrite lookup_insert_eq.
      * rewrite lookup_insert_ne; [done|].
        intros <-. apply Hin', list_elem_of_here.
    + by rewrite foldl_descendants_None.
Qed.

Lemma buildDescendantsMap_lookup n cats dm :
  buildDescendantsMap n cats = Some dm →
  ∀ i, dm !! i = if decide (i ∈ Category.id <$> cats)
                 then collectDescendants n (createChildrenMap cats) i
                 else None.
Proof.
  intros Hb i. unfold buildDescendantsMap in Hb.
  rewrite (foldl_descendants_lookup _ _ _ _ _ Hb i).
  by rewrite lookup_empty.
Qed.

Lemma foldl_descendants_is_Some n cm (cats : list Category.t) acc :
  (∀ c, c ∈ cats → is_Some (collectDescendants n cm (Category.id c))) →
  is_Some
    (foldl (λ (map : option DescendantsMap) category,
              map ← map;
              d ← collectDescendants n cm (Category.id category);
              Some (<[Category.id category := d]> map)) (Some acc) cats).
Proof.
  revert acc. induction cats as [|c cats IH]; intros acc Hall; simpl.
  - by eexists.
  - destruct (Hall c (list_elem_of_here _ _)) as [d ->]. simpl.
    apply IH. intros ??. apply Hall. by apply list_elem_of_further.
Qed.

Lemma id_chain_descendants cats base x l :
  id_chain cats base (x :: l) →
  descendant_of cats base x ∧ ∀ y, y ∈ l → descendant_of cats y x.
Proof.
  revert x. induction l as [|z l IH]; intros x Hch;
    inversion Hch as [|c ? Hc Hp Hch']; subst; simpl in Hp.
  - split; [by apply descendant_child|]. by intros ? ?%elem_of_nil.
  - destruct (IH z Hch') as [Hbase Hl]. split.
    + by eapply descendant_snoc.
    + intros y [->|Hy]%elem_of_cons; [by apply descendant_child|].
      eapply descendant_snoc; [by apply Hl|done..].
Qed.

Lemma id_chain_ids cats base l i :
  id_chain cats base l → i ∈ l → i ∈ Category.id <$> cats.
Proof.
  induction 1 as [|c l Hc _ _ IH]; [by intros ?%elem_of_nil|].
  intros [->|Hi]%elem_of_cons; [by apply list_elem_of_fmap_2|by apply IH].
Qed.

Lemma id_chain_NoDup cats base l :
  acyclic cats → id_chain cats base l → NoDup l.
Proof.
  intros Hac Hch. induction Hch as [|c l Hc Hp Hch IH]; [constructor|].
  apply NoDup_cons. split; [|done].
  intros Hin.
  destruct (id_chain_descendants cats base (Category.id c) l) as [_ Hl].
  { by constructor. }
  by apply (Hac (Category.id c)), Hl.
Qed.

Lemma collectDescendants_total cats n base l :
  acyclic cats → id_chain cats base l →
  length cats < n + length l →
  is_Some (collectDescendants n (createChildrenMap cats) (hd base l)).
Proof.
  intros Hac. revert l. induction n as [|n IH]; intros l Hch Hlen.
  - pose proof (ids_length_le cats l (id_chain_NoDup _ _ _ Hac Hch)
                  (λ i, id_chain_ids _ _ _ i Hch)). simpl in Hlen. lia.
  - rewrite collectDescendants_S. apply fmap_is_Some, mapM_is_Some.
    apply Forall_forall. intros c [Hc Hp]%elem_of_children. simpl.
    apply fmap_is_Some.
    apply (IH (Category.id c :: l)); [by constructor|simpl; lia].
Qed.

Lemma buildDescendantsMap_total cats :
  acyclic cats → is_Some (buildDescendantsMap (S (length cats)) cats).
Proof.
  intros Hac. unfold buildDescendantsMap. apply foldl_descendants_is_Some.
  intros c _.
  apply (collectDescendants_total cats _ (Category.id c) []);
    [done|constructor|simpl; lia].
Qed.

(** *** What the tree build visits *)

Lemma below_trans cats a b c :
  below cats a b → below cats b c → below cats a c.
Proof.
  induction 1 as [|a d b Hd Hp _ IH]; [done|].
  intros Hbc. eapply below_step; [exact Hd|exact Hp|by apply IH].
Qed.

Lemma reachable_in cats c : reachable cats c → c ∈ cats.
Proof. by destruct 1. Qed.

Lemma reachable_below cats c x :
  reachable cats c → below cats c x → reachable cats x.
Proof.
  intros Hc Hb. induction Hb as [|c d x Hd Hp _ IH]; [done|].
  apply IH. eapply reachable_child; [exact Hd| |exact Hp|exact Hc].
  by apply reachable_in.
Qed.

Lemma reachable_from_root cats x :
  reachable cats x ↔
  ∃ r, r ∈ cats ∧ Category.parent_id r = None ∧ below cats r x.
Proof.
  split.
  - induction 1 as [c Hc Hp|c p Hc Hpin Hp _ (r & Hr & Hrp & Hb)].
    + exists c. split_and!; [done..|constructor].
    + exists r. split_and!; [done..|].
      eapply below_trans; [exact Hb|].
      eapply below_step; [exact Hc|exact Hp|constructor].
  - intros (r & Hr & Hp & Hb).
    eapply reachable_below; [|exact Hb]. by constructor.
Qed.

Lemma flatten_unfold c ts fp :
  flatten (TreeNode c ts fp) = c :: flat_map flatten ts.
Proof. done. Qed.

Lemma elem_of_flat_map {A B} (f : A → list B) (l : list A) y :
  y ∈ flat_map f l ↔ ∃ x, x ∈ l ∧ y ∈ f x.
Proof.
  rewrite list_elem_of_In, in_flat_map.
  setoid_rewrite list_elem_of_In. done.
Qed.

Section Visits.
Context `{Host}.

(** The nodes of the subtree built for [c] are the categories below [c]. *)
Lemma buildNode_flatten cats n c pp pm t pm' :
  buildNode n (createChildrenMap cats) c pp pm = Some (t, pm') →
  ∀ x, x ∈ flatten t ↔ below cats c x.
Proof.
  revert c pp pm t pm'. induction n as [|n IH]; intros c pp pm t pm'; [done|].
  simpl. destruct (map_st _ _ _) as [[ts s2]|] eqn:Hm; simpl; [|done].
  intros [= <- <-] x. rewrite flatten_unfold, elem_of_cons, elem_of_flat_map.
  apply map_st_outputs in Hm. split.
  - intros [->|(t & Ht & Hx)]; [constructor|].
    apply list_elem_of_lookup_1 in Ht as [i Hi].
    destruct (Forall2_lookup_r _ _ _ _ _ Hm Hi) as (d & Hd & s1 & s3 & Hb).
    apply list_elem_of_lookup_2, elem_of_sort_by, elem_of_children in Hd
      as [Hd Hp].
    eapply below_step; [exact Hd|exact Hp|]. by eapply IH.
  - intros Hb. inversion Hb as [|? d ? Hd Hp Hb']; subst; [by left|right].
    assert (d ∈ sort_by by_name
              (children_of (createChildrenMap cats) (Some (Category.id c))))
      as Hin by by apply elem_of_sort_by, elem_of_children.
    apply list_elem_of_lookup_1 in Hin as [i Hi].
    destruct (Forall2_lookup_l _ _ _ _ _ Hm Hi) as (t & Ht & s1 & s3 & Hbd).
    exists t. split; [by eapply list_elem_of_lookup_2|]. by eapply IH.
Qed.

(** The keys written by [buildNode] are the ids of the nodes it builds. *)
Lemma steps_dom (pm : PathMap) ts pm' :
  steps (λ (pm : PathMap) t pm',
           ∀ i, is_Some (pm' !! i) ↔
                is_Some (pm !! i) ∨ i ∈ Category.id <$> flatten t) pm ts pm' →
  ∀ i, is_Some (pm' !! i) ↔
       is_Some (pm !! i) ∨ i ∈ Category.id <$> flat_map flatten ts.
Proof.
  induction 1 as [|pm t pm1 ts pm2 Ht _ IH]; intros i; simpl.
  - rewrite elem_of_nil. tauto.
  - rewrite IH, Ht, fmap_app, elem_of_app. tauto.
Qed.

Lemma buildNode_dom n cm c pp pm t pm' :
  buildNode n cm c pp pm = Some (t, pm') →
  ∀ i, is_Some (pm' !! i) ↔
       is_Some (pm !! i) ∨ i ∈ Category.id <$> flatten t.
Proof.
  revert c pp pm t pm'. induction n as [|n IH]; intros c pp pm t pm'; [done|].
  simpl. destruct (map_st _ _ _) as [[ts s2]|] eqn:Hm; simpl; [|done].
  intros [= <- <-] i. rewrite flatten_unfold, fmap_cons, elem_of_cons.
  rewrite (steps_dom (<[Category.id c:=joinPath pp (Category.name c)]> pm)
             ts s2).
  - rewrite lookup_insert_is_Some.
    destruct (decide (Category.id c = i)); intuition congruence.
  - eapply map_st_steps; [|exact Hm].
    intros d s y s' _ Hd. simpl in Hd. by eapply IH.
Qed.

Lemma buildTreeAndPaths_nodes fuel cats tree pm :
  buildTreeAndPaths fuel cats = Some (tree, pm) →
  ∀ x, x ∈ flat_map flatten tree ↔ reachable cats x.
Proof.
  unfold buildTreeAndPaths. intros Hm x. apply map_st_outputs in Hm.
  rewrite elem_of_flat_map, reachable_from_root. split.
  - intros (t & Ht & Hx).
    apply list_elem_of_lookup_1 in Ht as [i Hi].
    destruct (Forall2_lookup_r _ _ _ _ _ Hm Hi) as (r & Hr & s1 & s3 & Hb).
    apply list_elem_of_lookup_2, elem_of_sort_by, elem_of_children in Hr
      as [Hr Hp].
    exists r. split_and!; [done..|]. by eapply buildNode_flatten.
  - intros (r & Hr & Hp & Hb).
    assert (r ∈ sort_by by_name (children_of (createChildrenMap cats) None))
      as Hin by by apply elem_of_sort_by, elem_of_children.
    apply list_elem_of_lookup_1 in Hin as [i Hi].
    destruct (Forall2_lookup_l _ _ _ _ _ Hm Hi) as (t & Ht & s1 & s3 & Hbd).
    exists t. split; [by eapply list_elem_of_lookup_2|].
    by eapply buildNode_flatten.
Qed.

Lemma buildTreeAndPaths_dom fuel cats tree pm :
  buildTreeAndPaths fuel cats = Some (tree, pm) →
  ∀ i, is_Some (pm !! i) ↔ i ∈ Category.id <$> flat_map flatten tree.
Proof.
  unfold buildTreeAndPaths. intros Hm i.
  rewrite (steps_dom ∅ tree pm).
  - rewrite lookup_empty, is_Some_alt. tauto.
  - eapply map_st_steps; [|exact Hm].
    intros d s y s' _ Hd. simpl in Hd. by eapply buildNode_dom.
Qed.

Lemma pathMap_entry_iff fuel cats tree pm i :
  buildTreeAndPaths fuel cats = Some (tree, pm) →
  is_Some (pm !! i) ↔
  ∃ c, c ∈ cats ∧ Category.id c = i ∧ reachable cats c.
Proof.
  intros Hb. rewrite (buildTreeAndPaths_dom _ _ _ _ Hb). split.
  - intros (c & -> & Hc)%list_elem_of_fmap_1.
    apply (buildTreeAndPaths_nodes _ _ _ _ Hb) in Hc.
    exists c. split_and!; [by apply reachable_in|done..].
  - intros (c & _ & <- & Hr). apply list_elem_of_fmap_2.
    by apply (buildTreeAndPaths_nodes _ _ _ _ Hb).
Qed.
End Visits.

(** *** Acyclicity is necessary for the descendant map *)

Lemma descendant_in_ids cats a d :
  descendant_of cats a d → d ∈ Category.id <$> cats.
Proof. induction 1; [by apply list_elem_of_fmap_2|done]. Qed.

Lemma collectDescendants_child cats n a c l :
  collectDescendants (S n) (createChildrenMap cats) a = Some l →
  c ∈ cats → Category.parent_id c = Some a →
  is_Some (collectDescendants n (createChildrenMap cats) (Category.id c)).
Proof.
  rewrite collectDescendants_S.
  destruct (mapM _ _) as [parts|] eqn:Hparts; simpl; [|done].
  intros _ Hc Hp. apply mapM_Some in Hparts.
  assert (c ∈ children_of (createChildrenMap cats) (Some a)) as Hin
    by by apply elem_of_children.
  apply list_elem_of_lookup_1 in Hin as [i Hi].
  destruct (Forall2_lookup_l _ _ _ _ _ Hparts Hi) as (part & _ & Hcp).
  destruct (collectDescendants n _ (Category.id c)); [by eexists|done].
Qed.

Lemma collectDescendants_descends cats n a d l :
  descendant_of cats a d →
  collectDescendants n (createChildrenMap cats) a = Some l →
  ∃ m, m < n ∧ is_Some (collectDescendants m (createChildrenMap cats) d).
Proof.
  intros Hd. revert n l.
  induction Hd as [a c Hc Hp|a c d Hc Hp _ IH]; intros [|n] l Hl; try done.
  - exists n. split; [lia|]. by eapply collectDescendants_child.
  - destruct (collectDescendants_child _ _ _ _ _ Hl Hc Hp) as [nested Hn].
    destruct (IH _ _ Hn) as (m & Hm & Hsome). exists m. split; [lia|done].
Qed.

Lemma collectDescendants_cycle cats x n :
  descendant_of cats x x →
  collectDescendants n (createChildrenMap cats) x = None.
Proof.
  intros Hx. induction n as [n IH] using lt_wf_ind.
  destruct (collectDescendants n _ x) as [l|] eqn:Hl; [|done].
  destruct (collectDescendants_descends _ _ _ _ _ Hx Hl) as (m & Hm & [l' Hl']).
  by rewrite (IH m Hm) in Hl'.
Qed.

Lemma foldl_descendants_Some_inv n cm (cats : list Category.t) acc dm :
  foldl (λ (map : option DescendantsMap) category,
           map ← map;
           d ← collectDescendants n cm (Category.id category);
           Some (<[Category.id category := d]> map)) (Some acc) cats = Some dm →
  ∀ c, c ∈ cats → is_Some (collectDescendants n cm (Category.id c)).
Proof.
  revert acc. induction cats as [|c cats IH]; intros acc; cbn [foldl].
  - by intros _ ? ?%elem_of_nil.
  - cbn [mbind option_bind].
    destruct (collectDescendants n cm (Category.id c)) as [d|] eqn:Hd;
      cbn [mbind option_bind].
    + intros Hf x [->|Hx]%elem_of_cons; [by rewrite Hd|by eapply IH].
    + by rewrite foldl_descendants_None.
Qed.

Lemma buildDescendantsMap_acyclic n cats :
  is_Some (buildDescendantsMap n cats) → acyclic cats.
Proof.
  intros [dm Hdm] x Hx.
  pose proof (descendant_in_ids _ _ _ Hx) as (c & -> & Hc)%list_elem_of_fmap_1.
  destruct (foldl_descendants_Some_inv _ _ _ _ _ Hdm c Hc) as [l Hl].
  by rewrite collectDescendants_cycle in Hl.
Qed.

(** *** Termination of the tree build (C9) *)

(** C9, refuted as stated, at the two-category cycle [cycle_example]: the
    collection has a parent-link cycle, building the tree and the paths
    returns normally (an empty forest and an empty path map, no error),
    and building the descendant map never returns, whatever the fuel. *)
Lemma tree_build_cycle_counterexample :
  descendant_of cycle_example "a" "a"
  ∧ (∀ fuel, @buildTreeAndPaths example_host fuel cycle_example = Some ([], ∅))
  ∧ (∀ fuel, buildDescendantsMap fuel cycle_example = None).
Proof.
  assert (descendant_of cycle_example "a" "a") as Hcycle.
  { apply (descendant_nested _ "a" (Category.mk "b" "B" (Some "a") false));
      [apply list_elem_of_further, list_elem_of_here|done|].
    apply (descendant_child _ "b" (Category.mk "a" "A" (Some "b") false));
      [apply list_elem_of_here|done]. }
  split_and!; [done| |].
  - intros fuel. unfold buildTreeAndPaths. by rewrite children_of_create.
  - intros fuel.
    destruct (buildDescendantsMap fuel cycle_example) as [dm|] eqn:Hdm; [|done].
    exfalso. apply (buildDescendantsMap_acyclic fuel cycle_example) in Hcycle;
      [done|by eexists].
Qed.

Section AcyclicBuild.
Context `{Host}.

Lemma buildNode_total_acyclic cats n c base l pp pm :
  acyclic cats → id_chain cats base l → hd base l = Category.id c →
  length cats < n + length l →
  is_Some (buildNode n (createChildrenMap cats) c pp pm).
Proof.
  intros Hac. revert c l pp pm.
  induction n as [|n IH]; intros c l pp pm Hch Hhd Hlen.
  - pose proof (ids_length_le cats l (id_chain_NoDup _ _ _ Hac Hch)
                  (λ i, id_chain_ids _ _ _ i Hch)). simpl in Hlen. lia.
  - simpl.
    destruct (map_st_is_Some
      (λ child pm0, buildNode n (createChildrenMap cats) child
         (Some (joinPath pp (Category.name c))) pm0)
      (sort_by by_name
         (children_of (createChildrenMap cats) (Some (Category.id c))))
      (<[Category.id c := joinPath pp (Category.name c)]> pm))
      as [[ys s2] Hm].
    + intros d s [Hd Hp]%elem_of_sort_by%elem_of_children.
      apply (IH d (Category.id d :: l)); [|done|simpl; lia].
      constructor; [done| |done]. by rewrite Hhd.
    + rewrite Hm. by eexists.
Qed.

Lemma buildTreeAndPaths_total_acyclic cats :
  acyclic cats → is_Some (buildTreeAndPaths (S (length cats)) cats).
Proof.
  intros Hac. unfold buildTreeAndPaths. apply map_st_is_Some.
  intros r s [Hr Hp]%elem_of_sort_by%elem_of_children.
  apply (buildNode_total_acyclic cats _ r (Category.id r) []);
    [done|constructor|done|simpl; lia].
Qed.
End AcyclicBuild.

(** C9, amended: building the tree and the paths terminates on every
    collection whose ids are unique, with or without a parent-link cycle,
    and on every collection without a parent-link cycle; building the
    descendant map terminates on every collection without a parent-link
    cycle.  In each case a fuel above the size of the collection is enough
    and more fuel gives the same result.  Neither operation has a cycle
    guard or raises an error. *)
Theorem tree_build_termination `{Host} (categories : list Category.t) :
  (unique_ids categories ∨ acyclic categories →
     ∃ r, ∀ fuel, length categories < fuel →
          buildTreeAndPaths fuel categories = Some r)
  ∧ (acyclic categories →
     ∃ dm, ∀ fuel, length categories < fuel →
           buildDescendantsMap fuel categories = Some dm).
Proof.
  split.
  - intros [Hu|Hac].
    + destruct (buildTreeAndPaths_total categories Hu) as [r Hr].
      exists r. intros fuel Hlt.
      eapply buildTreeAndPaths_fuel_mono; [|exact Hr]. lia.
    + destruct (buildTreeAndPaths_total_acyclic categories Hac) as [r Hr].
      exists r. intros fuel Hlt.
      eapply buildTreeAndPaths_fuel_mono; [|exact Hr]. lia.
  - intros Hac. destruct (buildDescendantsMap_total categories Hac) as [dm Hdm].
    exists dm. intros fuel Hlt.
    eapply buildDescendantsMap_fuel_mono; [|exact Hdm]. lia.
Qed.

Lemma transport_example_unique : unique_ids transport_example.
Proof. unfold unique_ids. by_evaluation. Defined.

Lemma transport_example_acyclic : acyclic transport_example.
Proof.
  apply (buildDescendantsMap_acyclic 4). vm_compute. by eexists.
Defined.

Lemma cycle_example_unique : unique_ids cycle_example.
Proof. unfold unique_ids. by_evaluation. Defined.

Lemma tree_build_termination_witness :
  unique_ids transport_example ∧ acyclic transport_example
  ∧ unique_ids cycle_example
  ∧ (∃ r, ∀ fuel, 3 < fuel →
          @buildTreeAndPaths example_host fuel transport_example = Some r)
  ∧ (∃ r, ∀ fuel, 2 < fuel →
          @buildTreeAndPaths example_host fuel cycle_example = Some r)
  ∧ (∃ dm, ∀ fuel, 3 < fuel →
           buildDescendantsMap fuel transport_example = Some dm).
Proof.
  destruct (@tree_build_termination example_host transport_example)
    as [Htree Hdesc].
  destruct (@tree_build_termination example_host cycle_example)
    as [Hcycle _].
  split_and!.
  - exact transport_example_unique.
  - exact transport_example_acyclic.
  - exact cycle_example_unique.
  - exact (Htree (or_intror transport_example_acyclic)).
  - exact (Hcycle (or_introl cycle_example_unique)).
  - exact (Hdesc transport_example_acyclic).
Defined.

(** *** The entries of the path map (C10) *)

Lemma descendant_last cats a d :
  descendant_of cats a d →
  ∃ x p, x ∈ cats ∧ Category.id x = d ∧ Category.parent_id x = Some p
         ∧ (p = a ∨ descendant_of cats a p).
Proof.
  induction 1 as [a c Hc Hp|a c d Hc Hp _ (x & p & Hx & Hid & Hpx & Hcase)].
  - exists c, a. split_and!; [done..|by left].
  - exists x, p. split_and!; [done..|]. right.
    destruct Hcase as [->|Hd]; [by apply descendant_child|].
    eapply descendant_nested; [exact Hc|exact Hp|exact Hd].
Qed.

Lemma reachable_not_on_cycle cats c :
  unique_ids cats → reachable cats c →
  ¬ descendant_of cats (Category.id c) (Category.id c).
Proof.
  intros Hu. induction 1 as [c Hc Hp|c p Hc Hpin Hp Hr IH]; intros Hcyc.
  - destruct (descendant_last _ _ _ Hcyc) as (x & q & Hx & Hid & Hq & _).
    assert (x = c) as -> by by apply (unique_ids_eq cats). congruence.
  - destruct (descendant_last _ _ _ Hcyc) as (x & q & Hx & Hid & Hq & Hcase).
    assert (x = c) as -> by by apply (unique_ids_eq cats).
    assert (q = Category.id p) as -> by congruence.
    apply IH. destruct Hcase as [Heq|Hd].
    + by rewrite Heq.
    + eapply descendant_trans; [|exact Hd]. by apply descendant_child.
Qed.

Lemma orphan_not_reachable cats c p :
  Category.parent_id c = Some p → p ∉ Category.id <$> cats →
  ¬ reachable cats c.
Proof.
  intros Hp Hmiss Hr. inversion Hr as [? ? Hn|? q ? Hq Hpq ?]; subst.
  - congruence.
  - apply Hmiss. assert (p = Category.id q) as -> by congruence.
    by apply list_elem_of_fmap_2.
Qed.

(** C10: with unique ids and fuel for every category the tree build
    returns; and whenever it returns, the path map has an entry for an id
    exactly when a category of that id is reachable from a root through
    parent links to categories of the collection.  With unique ids, a
    category whose parent is not in the collection, or which lies on a
    parent cycle, has no entry; and for every category without an entry
    the option list carries its bare name as label. *)
Theorem path_map_entries `{Host} (fuel : nat) (categories : list Category.t) :
  (unique_ids categories → length categories ≤ fuel →
   is_Some (buildTreeAndPaths fuel categories))
  ∧ ∀ (tree : list CategoryTreeNode) (pathMap : PathMap),
      buildTreeAndPaths fuel categories = Some (tree, pathMap) →
      (∀ i, is_Some (pathMap !! i) ↔
            ∃ c, c ∈ categories ∧ Category.id c = i ∧ reachable categories c)
      ∧ (unique_ids categories →
         ∀ c, c ∈ categories →
           (∃ p, Category.parent_id c = Some p
                 ∧ p ∉ Category.id <$> categories)
           ∨ descendant_of categories (Category.id c) (Category.id c) →
           pathMap !! Category.id c = None)
      ∧ (∀ c descendantsMap, c ∈ categories →
           pathMap !! Category.id c = None →
           mkOption (Category.id c) (Category.name c) (Category.is_system c)
           ∈ categoryOptions (mkView categories pathMap descendantsMap)).
Proof.
  split.
  { intros Hu Hlen. destruct (buildTreeAndPaths_total categories Hu) as [r Hr].
    exists r. by apply (buildTreeAndPaths_fuel_mono (length categories)). }
  intros tree pathMap Hb. split_and!.
  - intros i. by eapply pathMap_entry_iff.
  - intros Hu c Hc Hcase. apply eq_None_not_Some.
    intros (c' & Hc' & Hid & Hr)%(pathMap_entry_iff _ _ _ _ _ Hb).
    assert (c' = c) as -> by by apply (unique_ids_eq categories).
    destruct Hcase as [(p & Hp & Hmiss)|Hcyc].
    + by eapply orphan_not_reachable.
    + by eapply reachable_not_on_cycle.
  - intros c dm Hc Hnone. unfold categoryOptions. simpl.
    destruct categories as [|c0 cs] eqn:Hcats; [by apply elem_of_nil in Hc|].
    apply elem_of_sort_by. rewrite <-Hcats in *.
    apply list_elem_of_fmap. exists c. split; [|done]. by rewrite Hnone.
Qed.

Lemma stray_example_unique : unique_ids stray_example.
Proof. unfold unique_ids. by_evaluation. Qed.

Lemma stray_fuel_reachable :
  reachable stray_example (Category.mk "f" "Fuel" (Some "t") false).
Proof.
  apply (reachable_child _ _ (Category.mk "t" "Transport" None false)).
  - apply list_elem_of_further, list_elem_of_here.
  - apply list_elem_of_here.
  - reflexivity.
  - apply reachable_root; [apply list_elem_of_here|reflexivity].
Qed.

Lemma stray_cycle : descendant_of stray_example "a" "a".
Proof.
  apply (descendant_nested _ "a" (Category.mk "b" "B" (Some "a") false));
    [by_evaluation|reflexivity|].
  apply (descendant_child _ "b" (Category.mk "a" "A" (Some "b") false));
    [by_evaluation|reflexivity].
Qed.

Lemma path_map_entries_witness :
  unique_ids stray_example
  ∧ length stray_example ≤ 5
  ∧ ∃ tree pathMap,
      @buildTreeAndPaths example_host 5 stray_example = Some (tree, pathMap)
      ∧ is_Some (pathMap !! "t")
      ∧ is_Some (pathMap !! "f")
      ∧ pathMap !! "o" = None
      ∧ pathMap !! "a" = None
      ∧ mkOption "o" "Tolls" false
        ∈ @categoryOptions example_host (mkView stray_example pathMap ∅)
      ∧ mkOption "a" "A" false
        ∈ @categoryOptions example_host (mkView stray_example pathMap ∅).
Proof.
  assert (length stray_example ≤ 5) as Hlen by (simpl; lia).
  destruct (@path_map_entries example_host 5 stray_example) as [Htotal Hentries].
  destruct (Htotal stray_example_unique Hlen) as [[tree pathMap] Hb].
  destruct (Hentries tree pathMap Hb) as (Hiff & Hnone & Hlabel).
  assert (Category.mk "o" "Tolls" (Some "gone") false ∈ stray_example) as Ho
    by by_evaluation.
  assert (Category.mk "a" "A" (Some "b") false ∈ stray_example) as Ha
    by by_evaluation.
  assert (pathMap !! "o" = None) as Hno.
  { apply (Hnone stray_example_unique _ Ho). left. exists "gone".
    split; [reflexivity|by_evaluation]. }
  assert (pathMap !! "a" = None) as Hna.
  { apply (Hnone stray_example_unique _ Ha). right. exact stray_cycle. }
  split; [exact stray_example_unique|]. split; [exact Hlen|].
  exists tree, pathMap. split_and!.
  - exact Hb.
  - apply Hiff. exists (Category.mk "t" "Transport" None false).
    split_and!; [apply list_elem_of_here|reflexivity|].
    apply reachable_root; [apply list_elem_of_here|reflexivity].
  - apply Hiff. exists (Category.mk "f" "Fuel" (Some "t") false).
    split_and!; [by_evaluation|reflexivity|exact stray_fuel_reachable].
  - exact Hno.
  - exact Hna.
  - exact (Hlabel _ ∅ Ho Hno).
  - exact (Hlabel _ ∅ Ha Hna).
Defined.


(** *** The view of a render *)

Section RenderFacts.
Context `{Host}.

Lemma render_inv fuel cats view :
  render fuel cats = Some view →
  categories view = cats
  ∧ (∃ tree, buildTreeAndPaths fuel cats = Some (tree, pathMap view))
  ∧ buildDescendantsMap fuel cats = Some (descendantsMap view).
Proof.
  unfold render.
  destruct (buildTreeAndPaths fuel cats) as [[tree pm]|]; simpl; [|done].
  destruct (buildDescendantsMap fuel cats) as [dm|]; simpl; [|done].
  intros [= <-]. simpl. eauto.
Qed.

Lemma view_descendants fuel cats view cid :
  render fuel cats = Some view → cid ∈ Category.id <$> cats →
  ∃ l, descendantsMap view !! cid = Some l
       ∧ ∀ d, d ∈ l ↔ descendant_of cats cid d.
Proof.
  intros (_ & _ & Hdm)%render_inv Hin.
  pose proof (buildDescendantsMap_lookup _ _ _ Hdm cid) as Hl.
  rewrite decide_True in Hl by done.
  apply list_elem_of_fmap_1 in Hin as (c & -> & Hc).
  destruct (foldl_descendants_Some_inv _ _ _ _ _ Hdm c Hc) as [l Hc'].
  exists l. split; [congruence|]. by eapply collectDescendants_spec.
Qed.
End RenderFacts.

Lemma find_category_Some cid cats c :
  find_category cid cats = Some c → c ∈ cats ∧ Category.id c = cid.
Proof.
  intros [Hin Hid]%find_some. split; [by apply list_elem_of_In|].
  by apply bool_decide_eq_true in Hid.
Qed.

Lemma find_category_None cid cats :
  find_category cid cats = None ↔ cid ∉ Category.id <$> cats.
Proof.
  split.
  - intros Hnone (c & -> & Hc)%list_elem_of_fmap_1.
    apply list_elem_of_In in Hc.
    pose proof (find_none _ _ Hnone c Hc) as Hf. simpl in Hf.
    by apply bool_decide_eq_false in Hf.
  - intros Hnot. destruct (find_category cid cats) as [c|] eqn:Hf; [|done].
    apply find_category_Some in Hf as [Hc <-].
    exfalso. apply Hnot. by apply list_elem_of_fmap_2.
Qed.

(** *** Paths are not empty when names are not *)

Lemma truthy_true s : truthy s = true ↔ s ≠ "".
Proof. destruct s; simpl; split; congruence. Qed.

Lemma joinPath_nonempty pp name : name ≠ "" → joinPath pp name ≠ "".
Proof.
  intros Hn. unfold joinPath. destruct pp as [p|]; [|done].
  destruct p as [|a p]; simpl; [done|]. unfold separator. by simpl.
Qed.

Section PathsNonEmpty.
Context `{Host}.

Lemma steps_preserve {B S} (P : S → Prop) (s : S) (ys : list B) s' :
  steps (λ s _ s', P s → P s') s ys s' → P s → P s'.
Proof. induction 1; auto. Qed.

Lemma buildNode_paths_nonempty cats n c pp pm t pm' :
  (∀ c, c ∈ cats → Category.name c ≠ "") → c ∈ cats →
  buildNode n (createChildrenMap cats) c pp pm = Some (t, pm') →
  (∀ i p, pm !! i = Some p → p ≠ "") → (∀ i p, pm' !! i = Some p → p ≠ "").
Proof.
  intros Hnames. revert c pp pm t pm'.
  induction n as [|n IH]; intros c pp pm t pm' Hc; [done|].
  simpl. destruct (map_st _ _ _) as [[ts s2]|] eqn:Hm; simpl; [|done].
  intros [= <- <-] Hpm.
  eapply (steps_preserve (λ pm : PathMap, ∀ i p, pm !! i = Some p → p ≠ "")).
  - eapply map_st_steps; [|exact Hm].
    intros d s y s' [Hd _]%elem_of_sort_by%elem_of_children Hb. simpl in Hb.
    by eapply IH.
  - intros i p. rewrite lookup_insert. case_decide; [|by apply Hpm].
    intros [= <-]. by apply joinPath_nonempty, Hnames.
Qed.

Lemma buildTreeAndPaths_paths_nonempty fuel cats tree pm :
  (∀ c, c ∈ cats → Category.name c ≠ "") →
  buildTreeAndPaths fuel cats = Some (tree, pm) →
  ∀ i p, pm !! i = Some p → p ≠ "".
Proof.
  intros Hnames Hb.
  eapply (steps_preserve (λ pm : PathMap, ∀ i p, pm !! i = Some p → p ≠ "")).
  - eapply map_st_steps; [|exact Hb].
    intros d s y s' [Hd _]%elem_of_sort_by%elem_of_children Hbd. simpl in Hbd.
    by eapply buildNode_paths_nonempty.
  - intros i p. by rewrite lookup_empty.
Qed.
End PathsNonEmpty.

(** *** Rewrites applied to one row *)

Lemma with_category_id t : Transaction.with_category (Transaction.category t) t = t.
Proof. by destruct t. Qed.

Lemma with_category_twice l l' t :
  Transaction.with_category l (Transaction.with_category l' t)
  = Transaction.with_category l t.
Proof. done. Qed.

Lemma relabel_label_only o n t :
  relabel o n t = Transaction.with_category (Transaction.category (relabel o n t)) t.
Proof.
  unfold relabel. case_bool_decide; simpl; [done|].
  by rewrite with_category_id.
Qed.

Lemma relabel_seq_cons o n changes t :
  relabel_seq ((o, n) :: changes) t = relabel_seq changes (relabel o n t).
Proof. done. Qed.

Lemma relabel_seq_label_only changes t :
  relabel_seq changes t
  = Transaction.with_category (Transaction.category (relabel_seq changes t)) t.
Proof.
  revert t. induction changes as [|[o n] changes IH]; intros t.
  - simpl. by rewrite with_category_id.
  - rewrite relabel_seq_cons. rewrite (IH (relabel o n t)) at 1.
    generalize (Transaction.category (relabel_seq changes (relabel o n t))).
    intros l. unfold relabel. by case_bool_decide.
Qed.

Lemma relabel_other o n t :
  Transaction.category t ≠ o → relabel o n t = t.
Proof. intros Hne. unfold relabel. rewrite bool_decide_eq_false_2; [done|tauto]. Qed.

Lemma relabel_match o n t :
  Transaction.user_id t = Some TEMP_USER_ID → Transaction.category t = o →
  relabel o n t = Transaction.with_category n t.
Proof. intros Hu Hc. unfold relabel. by rewrite bool_decide_eq_true_2. Qed.

Lemma relabel_seq_untouched changes t :
  (∀ o n, (o, n) ∈ changes → Transaction.category t ≠ o) →
  relabel_seq changes t = t.
Proof.
  induction changes as [|[o n] changes IH]; intros Hno; [done|].
  rewrite relabel_seq_cons, relabel_other.
  - apply IH. intros o' n' Hin. apply (Hno o' n'). by apply list_elem_of_further.
  - apply (Hno o n), list_elem_of_here.
Qed.

Lemma relabel_seq_app changes changes' t :
  relabel_seq (changes ++ changes') t
  = relabel_seq changes' (relabel_seq changes t).
Proof. unfold relabel_seq. by rewrite foldl_app. Qed.

Lemma relabel_foreign o n t :
  Transaction.user_id t ≠ Some TEMP_USER_ID → relabel o n t = t.
Proof. intros Hne. unfold relabel. rewrite bool_decide_eq_false_2; [done|tauto]. Qed.

Lemma relabel_seq_foreign changes t :
  Transaction.user_id t ≠ Some TEMP_USER_ID → relabel_seq changes t = t.
Proof.
  intros Hne. induction changes as [|[o n] changes IH]; [done|].
  by rewrite relabel_seq_cons, relabel_foreign.
Qed.

(** A row is rewritten by the first rewrite that matches its label, and
    keeps the new label when no rewrite issued later matches that one. *)
Lemma relabel_seq_first_match before o n after t :
  (∀ o' n', (o', n') ∈ before → o' ≠ o) →
  (∀ o' n', (o', n') ∈ after → o' ≠ n) →
  Transaction.user_id t = Some TEMP_USER_ID → Transaction.category t = o →
  relabel_seq (before ++ (o, n) :: after) t = Transaction.with_category n t.
Proof.
  intros Hbefore Hafter Hu Hc.
  rewrite relabel_seq_app, (relabel_seq_untouched before), relabel_seq_cons.
  - rewrite relabel_match by done. apply relabel_seq_untouched.
    intros o' n' Hin. simpl. intros Heq. by apply (Hafter o' n').
  - intros o' n' Hin. rewrite Hc. intros Heq. by apply (Hbefore o' n').
Qed.

(** A later rewrite whose old label is the new label of the first match
    rewrites the row again. *)
Lemma relabel_seq_chained before o n middle n' after t :
  (∀ o' n0, (o', n0) ∈ before → o' ≠ o) →
  (∀ o' n0, (o', n0) ∈ middle → o' ≠ n) →
  (∀ o' n0, (o', n0) ∈ after → o' ≠ n') →
  Transaction.user_id t = Some TEMP_USER_ID → Transaction.category t = o →
  relabel_seq (before ++ (o, n) :: middle ++ (n, n') :: after) t
  = Transaction.with_category n' t.
Proof.
  intros Hbefore Hmiddle Hafter Hu Hc.
  rewrite (app_comm_cons middle), app_assoc, relabel_seq_app.
  rewrite relabel_seq_first_match by done.
  rewrite relabel_seq_cons, relabel_match by done.
  rewrite with_category_twice. apply relabel_seq_untouched.
  intros o' n0 Hin. simpl. intros Heq. by apply (Hafter o' n0).
Qed.

(** Resets to one label: a row matching any of the paths ends with it. *)
Lemma relabel_seq_reset (paths : list string) label t p :
  p ∈ paths →
  Transaction.user_id t = Some TEMP_USER_ID → Transaction.category t = p →
  relabel_seq ((λ path, (path, label)) <$> paths) t
  = Transaction.with_category label t.
Proof.
  assert (∀ paths, relabel_seq ((λ path, (path, label)) <$> paths)
                     (Transaction.with_category label t)
                   = Transaction.with_category label t) as Hfix.
  { clear. intros paths. induction paths as [|q paths IH]; [done|].
    rewrite fmap_cons, relabel_seq_cons.
    unfold relabel at 1. case_bool_decide; simpl; by rewrite ?IH. }
  revert t Hfix. induction paths as [|q paths IH]; intros t Hfix Hin Hu Hc.
  - by apply elem_of_nil in Hin.
  - rewrite fmap_cons, relabel_seq_cons.
    destruct (decide (q = p)) as [->|Hne].
    + rewrite relabel_match by done. apply Hfix.
    + rewrite relabel_other by congruence.
      apply IH; [done|by apply elem_of_cons in Hin as [?|?]|done..].
Qed.

Lemma elem_of_path_changes old new ids o n :
  (o, n) ∈ path_changes old new ids ↔
  ∃ i, i ∈ ids ∧ old !! i = Some o ∧ new !! i = Some n
       ∧ o ≠ "" ∧ n ≠ "" ∧ o ≠ n.
Proof.
  unfold path_changes. rewrite list_elem_of_omap. unfold path_change. split.
  - intros (i & Hi & Hch). exists i. split; [done|].
    destruct (old !! i) as [o'|]; [|done]. destruct (new !! i) as [n'|]; [|done].
    destruct (truthy o') eqn:Ho; [|done]. destruct (truthy n') eqn:Hn; [|done].
    simpl in Hch. case_bool_decide; [|done]. injection Hch as <- <-.
    by rewrite <-!truthy_true.
  - intros (i & Hi & Hold & Hnew & Ho & Hn & Hne). exists i. split; [done|].
    rewrite Hold, Hnew.
    apply truthy_true in Ho, Hn. rewrite Ho, Hn. simpl.
    by rewrite bool_decide_eq_true_2.
Qed.

(** *** The loops over the store *)

Section HookFacts.
Context `{Host}.

Lemma path_changes_cons old new i ids :
  path_changes old new (i :: ids)
  = match path_change old new i with
    | Some change => change :: path_changes old new ids
    | None => path_changes old new ids
    end.
Proof. done. Qed.

Lemma rewrite_paths_Ok old new ids s s' :
  rewrite_paths old new ids s = (Ok tt, s') →
  s' = mkStore
         (relabel_seq (path_changes old new ids) <$> transactions s)
         (calls s ++ ((λ change, RelabelTransactions change.1 change.2)
                        <$> path_changes old new ids)).
Proof.
  revert s. induction ids as [|i ids IH]; intros s.
  - simpl. unfold ret. intros [= <-]. destruct s as [rows log]. simpl.
    by rewrite app_nil_r, list_fmap_id.
  - rewrite path_changes_cons. cbn [rewrite_paths]. unfold path_change.
    destruct (old !! i) as [o|]; [|apply IH].
    destruct (new !! i) as [n|]; [|apply IH].
    destruct (truthy o && truthy n && bool_decide (o ≠ n)); [|apply IH].
    unfold bind, request.
    destruct (storeError (calls s) (RelabelTransactions o n)); [done|].
    intros ->%IH. simpl. f_equal.
    + rewrite <-list_fmap_compose. by apply list_fmap_ext.
    + by rewrite <-app_assoc.
Qed.

Lemma reset_paths_Ok paths s s' :
  reset_paths paths s = (Ok tt, s') →
  s' = mkStore
         (relabel_seq ((λ path, (path, SYSTEM_CATEGORY_NAME)) <$> paths)
            <$> transactions s)
         (calls s ++ ((λ path, RelabelTransactions path SYSTEM_CATEGORY_NAME)
                        <$> paths)).
Proof.
  revert s. induction paths as [|p paths IH]; intros s.
  - simpl. unfold ret. intros [= <-]. destruct s as [rows log]. simpl.
    by rewrite app_nil_r, list_fmap_id.
  - cbn [reset_paths]. unfold bind, request.
    destruct (storeError (calls s) (RelabelTransactions p SYSTEM_CATEGORY_NAME));
      [done|].
    intros ->%IH. simpl. f_equal.
    + rewrite <-list_fmap_compose. by apply list_fmap_ext.
    + by rewrite <-app_assoc.
Qed.

(** The categories that [updateCategory] passes to [setCategories]. *)
Lemma updateCategory_Ok fuel view cid upd s cats' s' :
  updateCategory fuel view cid upd s = (Ok cats', s') →
  ∃ c tree newPathMap,
    find_category cid (categories view) = Some c
    ∧ Category.is_system c = false
    ∧ trim <$> upd_name upd ≠ Some ""
    ∧ cats' = (λ cat, if bool_decide (Category.id cat = cid)
                      then apply_updates (trim <$> upd_name upd)
                             (upd_parent_id upd) cat
                      else cat) <$> categories view
    ∧ buildTreeAndPaths fuel cats' = Some (tree, newPathMap)
    ∧ s' = mkStore
        (relabel_seq
           (path_changes (pathMap view) newPathMap
              (cid :: default [] (descendantsMap view !! cid)))
           <$> transactions s)
        (calls s
         ++ UpdateCategoryRow cid (trim <$> upd_name upd) (upd_parent_id upd)
         :: ((λ change, RelabelTransactions change.1 change.2)
               <$> path_changes (pathMap view) newPathMap
                     (cid :: default [] (descendantsMap view !! cid)))).
Proof.
  unfold updateCategory.
  destruct (find_category cid (categories view)) as [c|] eqn:Hfind; [|done].
  destruct (Category.is_system c) eqn:Hsys; [done|].
  match goal with |- context [match ?check with Some e => throw e | None => _ end] =>
    destruct check; [done|] end.
  destruct (trim <$> upd_name upd) as [[|a nm]|] eqn:Hname; [done| |].
  all: unfold bind at 1, request.
  all: destruct (storeError _ _); [done|].
  all: destruct (buildTreeAndPaths fuel _) as [[tree newPM]|] eqn:Hb; [|done].
  all: unfold bind, ret.
  all: destruct (rewrite_paths _ _ _ _) as [[[]| |] s1] eqn:Hrw; try done.
  all: intros [= <- <-]; apply rewrite_paths_Ok in Hrw as ->; simpl.
  all: exists c, tree, newPM; split_and!; try done.
  all: by rewrite <-app_assoc.
Qed.

(** The categories that [deleteCategory] leaves. *)
Lemma deleteCategory_Ok view cid s cats' s' :
  deleteCategory view cid s = (Ok cats', s') →
  let affectedIds := cid :: default [] (descendantsMap view !! cid) in
  let pathsToReset :=
    filter (λ path, truthy path = true)
           (omap (λ id, pathMap view !! id) affectedIds) in
  ∃ c,
    find_category cid (categories view) = Some c
    ∧ Category.is_system c = false
    ∧ cats' = filter (λ cat, Category.id cat ∉ affectedIds) (categories view)
    ∧ s' = mkStore
        (relabel_seq ((λ path, (path, SYSTEM_CATEGORY_NAME)) <$> pathsToReset)
           <$> transactions s)
        (calls s ++ DeleteCategoryRow cid
           :: ((λ path, RelabelTransactions path SYSTEM_CATEGORY_NAME)
                 <$> pathsToReset)).
Proof.
  unfold deleteCategory.
  destruct (find_category cid (categories view)) as [c|] eqn:Hfind; [|done].
  destruct (Category.is_system c) eqn:Hsys; [done|].
  unfold bind at 1, request.
  destruct (storeError _ _); [done|].
  unfold bind, ret.
  destruct (reset_paths _ _) as [[[]| |] s1] eqn:Hrs; try done.
  intros [= <- <-]. apply reset_paths_Ok in Hrs as ->. simpl.
  exists c. split_and!; try done. by rewrite <-app_assoc.
Qed.
End HookFacts.


(** *** The rename and reparent cascade (C1) *)

Lemma descendant_ind_up cats (P : string → string → Prop) :
  (∀ a c, c ∈ cats → Category.parent_id c = Some a → P a (Category.id c)) →
  (∀ a p c, descendant_of cats a p → P a p →
            c ∈ cats → Category.parent_id c = Some p → P a (Category.id c)) →
  ∀ a d, descendant_of cats a d → P a d.
Proof.
  intros Hbase Hstep a d Hd. revert P Hbase Hstep.
  induction Hd as [a c Hc Hp|a c d Hc Hp Hd IH]; intros P Hbase Hstep.
  - by apply Hbase.
  - refine (proj2 (IH (λ b y, descendant_of cats b y
                      ∧ ∀ a0 c0, c0 ∈ cats → Category.id c0 = b →
                                 Category.parent_id c0 = Some a0 → P a0 y)
                     _ _) a c Hc eq_refl Hp).
    + intros b c' Hc' Hp'. split; [by apply descendant_child|].
      intros a0 c0 Hc0 <- Hp0. apply (Hstep a0 (Category.id c0)); try done.
      * by apply descendant_child.
      * by apply Hbase.
    + intros b p c' Hbp [_ HP] Hc' Hp'. split; [by eapply descendant_snoc|].
      intros a0 c0 Hc0 <- Hp0. apply (Hstep a0 p); try done.
      * by eapply descendant_nested.
      * by eapply HP.
Qed.

(** With unique ids, the ancestors of an id lie on one line. *)
Lemma ancestors_comparable cats a b x :
  unique_ids cats → descendant_of cats a x → descendant_of cats b x →
  a = b ∨ descendant_of cats a b ∨ descendant_of cats b a.
Proof.
  intros Hu Ha. revert b.
  induction Ha as [a c Hc Hp|a p c Hap IH Hc Hp] using descendant_ind_up;
    intros b Hb.
  - destruct (descendant_last _ _ _ Hb) as (y & q & Hy & Hid & Hq & Hcase).
    assert (y = c) as -> by by apply (unique_ids_eq cats).
    assert (q = a) as -> by congruence.
    destruct Hcase as [->|Hba]; auto.
  - destruct (descendant_last _ _ _ Hb) as (y & q & Hy & Hid & Hq & Hcase).
    assert (y = c) as -> by by apply (unique_ids_eq cats).
    assert (q = p) as -> by congruence.
    destruct Hcase as [->|Hbp]; auto.
Qed.

(** The subtrees of two different children of one category share no id. *)
Lemma sibling_subtrees_disjoint cats a c c' x :
  unique_ids cats → acyclic cats →
  c ∈ cats → Category.parent_id c = Some a →
  c' ∈ cats → Category.parent_id c' = Some a →
  x = Category.id c ∨ descendant_of cats (Category.id c) x →
  x = Category.id c' ∨ descendant_of cats (Category.id c') x →
  c = c'.
Proof.
  intros Hu Hac Hc Hp Hc' Hp' Hx Hx'.
  assert (∀ d d', d ∈ cats → Category.parent_id d = Some a →
                  d' ∈ cats → Category.parent_id d' = Some a →
                  ¬ descendant_of cats (Category.id d) (Category.id d'))
    as Hno.
  { intros d d' Hd Hpd Hd' Hpd' Hdd'.
    destruct (descendant_last _ _ _ Hdd') as (y & q & Hy & Hid & Hq & Hcase).
    assert (y = d') as -> by by apply (unique_ids_eq cats).
    assert (q = a) as -> by congruence.
    apply (Hac a). destruct Hcase as [Heq|Hda].
    - rewrite Heq at 2. by apply descendant_child.
    - eapply descendant_trans; [|exact Hda]. by apply descendant_child. }
  apply (unique_ids_eq cats); [done..|].
  destruct Hx as [->|Hx], Hx' as [Heq|Hx'].
  - done.
  - exfalso. by apply (Hno c' c).
  - subst x. exfalso. by apply (Hno c c').
  - destruct (ancestors_comparable _ _ _ _ Hu Hx Hx') as [?|[?|?]]; [done|..].
    + exfalso. by apply (Hno c c').
    + exfalso. by apply (Hno c' c).
Qed.

Lemma NoDup_filter_fmap {A B} (f : A → B) (P : A → Prop)
    `{!∀ x, Decision (P x)} (l : list A) :
  NoDup (f <$> l) → NoDup (f <$> filter P l).
Proof.
  induction l as [|x l IH]; [done|]. rewrite fmap_cons.
  intros [Hx Hl]%NoDup_cons. rewrite filter_cons.
  case_decide; [|by apply IH].
  rewrite fmap_cons. apply NoDup_cons. split; [|by apply IH].
  intros (y & Hy & [_ Hin]%list_elem_of_filter)%list_elem_of_fmap_1.
  apply Hx. rewrite Hy. apply list_elem_of_fmap. by exists y.
Qed.

(** With unique ids, [collectDescendants] lists no id twice. *)
Lemma collectDescendants_NoDup cats n a l :
  unique_ids cats → acyclic cats →
  collectDescendants n (createChildrenMap cats) a = Some l → NoDup l.
Proof.
  intros Hu Hac. revert a l. induction n as [|n IH]; intros a l; [done|].
  rewrite collectDescendants_S.
  destruct (mapM _ _) as [parts|] eqn:Hparts; simpl; [|done].
  intros [= <-]. apply mapM_Some in Hparts.
  assert (NoDup (children_of (createChildrenMap cats) (Some a))) as Hnd.
  { rewrite children_of_create.
    apply (NoDup_fmap_1 Category.id), NoDup_filter_fmap, Hu. }
  assert (∀ c, c ∈ children_of (createChildrenMap cats) (Some a) →
               c ∈ cats ∧ Category.parent_id c = Some a) as Hchildren.
  { intros c. by rewrite elem_of_children. }
  revert Hparts Hnd Hchildren.
  generalize (children_of (createChildrenMap cats) (Some a)) as cs.
  intros cs Hparts. induction Hparts as [|c part cs parts Hpart Hparts' IHparts].
  - constructor.
  - intros [Hc Hnd]%NoDup_cons Hchildren.
    destruct (collectDescendants n _ (Category.id c)) as [nested|] eqn:Hn;
      simpl in Hpart; [|done].
    injection Hpart as <-.
    destruct (Hchildren c (list_elem_of_here _ _)) as [Hcin Hcp].
    pose proof (collectDescendants_spec _ _ _ _ Hn) as Hnested.
    change (NoDup ((Category.id c :: nested) ++ mjoin parts)).
    apply NoDup_app. split_and!.
    + apply NoDup_cons. split; [|by eapply IH].
      intros Hin%Hnested. by apply (Hac (Category.id c)).
    + intros x Hx (part' & Hx' & Hpart')%list_elem_of_join.
      apply list_elem_of_lookup_1 in Hpart' as [i Hi].
      destruct (Forall2_lookup_r _ _ _ _ _ Hparts' Hi) as (c' & Hc' & Hcp').
      apply list_elem_of_lookup_2 in Hc'.
      destruct (collectDescendants n _ (Category.id c')) as [nested'|] eqn:Hn';
        simpl in Hcp'; [|done].
      injection Hcp' as <-.
      destruct (Hchildren c' (list_elem_of_further _ _ _ Hc')) as [Hcin' Hcp'].
      apply Hc. replace c with c'; [done|].
      apply (sibling_subtrees_disjoint cats a c' c x); try done.
      * apply elem_of_cons in Hx' as [->|Hx']; [by left|right].
        by apply (collectDescendants_spec _ _ _ _ Hn').
      * apply elem_of_cons in Hx as [->|Hx]; [by left|right].
        by apply Hnested.
    + apply IHparts; [done|].
      intros c' Hc'. apply Hchildren. by apply list_elem_of_further.
Qed.

Section Cascade.
Context `{Host}.

Lemma updated_names_nonempty (cats : list Category.t) cid
    (trimmedName : option string) parent :
  (∀ c, c ∈ cats → Category.name c ≠ "") → trimmedName ≠ Some "" →
  ∀ c, c ∈ (λ cat, if bool_decide (Category.id cat = cid)
                   then apply_updates trimmedName parent cat else cat) <$> cats →
       Category.name c ≠ "".
Proof.
  intros Hnames Hname c (c0 & -> & Hc0)%list_elem_of_fmap_1.
  case_bool_decide; [|by apply Hnames]. simpl.
  destruct trimmedName as [nm|]; simpl; [congruence|by apply Hnames].
Qed.

Lemma affected_ids fuel0 cats view cid c :
  render fuel0 cats = Some view → find_category cid cats = Some c →
  ∀ i, i ∈ cid :: default [] (descendantsMap view !! cid)
       ↔ i = cid ∨ descendant_of cats cid i.
Proof.
  intros Hr [Hc Hid]%find_category_Some i.
  destruct (view_descendants _ _ _ cid Hr) as (l & -> & Hl).
  { rewrite <-Hid. by apply list_elem_of_fmap_2. }
  simpl. by rewrite elem_of_cons, Hl.
Qed.

(** The ids that the loop of [updateCategory] visits: the category, then
    its descendants, none twice when ids are unique. *)
Lemma affected_ids_NoDup fuel0 cats view cid c :
  render fuel0 cats = Some view → find_category cid cats = Some c →
  ∃ descendants,
    descendantsMap view !! cid = Some descendants
    ∧ (∀ d, d ∈ descendants ↔ descendant_of cats cid d)
    ∧ (unique_ids cats → NoDup (cid :: descendants)).
Proof.
  intros Hr [Hc Hid]%find_category_Some.
  assert (cid ∈ Category.id <$> cats) as Hin.
  { rewrite <-Hid. by apply list_elem_of_fmap_2. }
  destruct (view_descendants _ _ _ cid Hr Hin) as (l & Hl & Hspec).
  exists l. split_and!; [done..|]. intros Hu.
  destruct (render_inv _ _ _ Hr) as (_ & _ & Hdm).
  assert (acyclic cats) as Hac by by eapply buildDescendantsMap_acyclic.
  apply NoDup_cons. split.
  - intros Hcyc%Hspec. by apply (Hac cid).
  - pose proof (buildDescendantsMap_lookup _ _ _ Hdm cid) as Hlookup.
    rewrite decide_True in Hlookup by done. rewrite Hl in Hlookup.
    by eapply collectDescendants_NoDup.
Qed.

Lemma path_change_Some fuel fuel' cats cats' tree tree'
    (oldPathMap newPathMap : PathMap) i o n :
  (∀ c, c ∈ cats → Category.name c ≠ "") →
  (∀ c, c ∈ cats' → Category.name c ≠ "") →
  buildTreeAndPaths fuel cats = Some (tree, oldPathMap) →
  buildTreeAndPaths fuel' cats' = Some (tree', newPathMap) →
  path_change oldPathMap newPathMap i = Some (o, n)
  ↔ oldPathMap !! i = Some o ∧ newPathMap !! i = Some n ∧ o ≠ n.
Proof.
  intros Hnames Hnames' Hold Hnew. unfold path_change.
  destruct (oldPathMap !! i) as [o'|] eqn:Ho; [|by split; [|intros [? _]]].
  destruct (newPathMap !! i) as [n'|] eqn:Hn;
    [|by split; [|intros (_ & ? & _)]].
  assert (truthy o' = true) as ->.
  { apply truthy_true. by eapply (buildTreeAndPaths_paths_nonempty fuel cats). }
  assert (truthy n' = true) as ->.
  { apply truthy_true.
    by eapply (buildTreeAndPaths_paths_nonempty fuel' cats'). }
  simpl. case_bool_decide as Hne; split.
  - by intros [= <- <-].
  - by intros ([= <-] & [= <-] & _).
  - done.
  - intros ([= <-] & [= <-] & Hne'). by destruct Hne.
Qed.

(** C1, amended: after a successful update the affected ids are the
    updated category followed by its descendants as the descendant map of
    the render lists them, none twice when ids are unique.  The store has
    received the category write and then, in the order of the affected
    ids, exactly one rewrite for each of them whose full path changed (old
    and new path present and different), from that id's old path to that
    id's new path, and nothing else.  Every row of the store is the old
    row after these rewrites, applied in that order: it keeps everything
    but its label; a row of another owner, or one whose label is the old
    path of no rewrite, is untouched, also when the label equals a new
    path; a row of the owner is rewritten to the new path of the first
    rewrite whose old path is its label, and carries that path afterwards
    provided no rewrite issued later has it as old path; if one has, the
    row carries the new path of the first such rewrite instead, provided
    no rewrite issued after that one has this path as old path. *)
Theorem update_cascade (fuel0 fuel : nat) (categories : list Category.t)
    (view : View) (store : Store) (categoryId : string) (updates : Updates)
    (updated : list Category.t) (store' : Store)
    (tree : list CategoryTreeNode) (newPathMap : PathMap) :
  render fuel0 categories = Some view →
  (∀ c, c ∈ categories → Category.name c ≠ "") →
  updateCategory fuel view categoryId updates store = (Ok updated, store') →
  buildTreeAndPaths fuel updated = Some (tree, newPathMap) →
  ∃ descendants,
    descendantsMap view !! categoryId = Some descendants
    ∧ (∀ d, d ∈ descendants ↔ descendant_of categories categoryId d)
    ∧ (unique_ids categories → NoDup (categoryId :: descendants))
    ∧ (∀ i o n,
         path_change (pathMap view) newPathMap i = Some (o, n)
         ↔ pathMap view !! i = Some o ∧ newPathMap !! i = Some n ∧ o ≠ n)
    ∧ let changes :=
        omap (path_change (pathMap view) newPathMap)
             (categoryId :: descendants) in
      calls store'
      = calls store
        ++ UpdateCategoryRow categoryId (trim <$> upd_name updates)
             (upd_parent_id updates)
        :: ((λ change, RelabelTransactions change.1 change.2) <$> changes)
      ∧ length (transactions store') = length (transactions store)
      ∧ ∀ k t, transactions store !! k = Some t →
          ∃ t', transactions store' !! k = Some t'
            ∧ t' = relabel_seq changes t
            ∧ t' = Transaction.with_category (Transaction.category t') t
            ∧ (Transaction.user_id t ≠ Some TEMP_USER_ID → t' = t)
            ∧ ((∀ o n, (o, n) ∈ changes → Transaction.category t ≠ o) →
               t' = t)
            ∧ (Transaction.user_id t = Some TEMP_USER_ID →
               ∀ before o n after,
                 changes = before ++ (o, n) :: after →
                 Transaction.category t = o →
                 (∀ o' n', (o', n') ∈ before → o' ≠ o) →
                 ((∀ o' n', (o', n') ∈ after → o' ≠ n) →
                  Transaction.category t' = n)
                 ∧ ∀ middle n' rest,
                     after = middle ++ (n, n') :: rest →
                     (∀ o' n0, (o', n0) ∈ middle → o' ≠ n) →
                     (∀ o' n0, (o', n0) ∈ rest → o' ≠ n') →
                     Transaction.category t' = n').
Proof.
  intros Hr Hnames Hupd Hnew.
  destruct (updateCategory_Ok _ _ _ _ _ _ _ Hupd)
    as (c & tree' & newPM & Hfind & Hsys & Hname & Hcats & Hb & ->).
  rewrite Hb in Hnew. injection Hnew as -> ->.
  destruct (render_inv _ _ _ Hr) as (Hview & [oldTree Hold] & _).
  rewrite Hview in *.
  destruct (affected_ids_NoDup _ _ _ _ _ Hr Hfind)
    as (descendants & Hdesc & Hspec & Hnodup).
  exists descendants. rewrite Hdesc.
  change (default [] (Some descendants)) with descendants.
  cbv zeta. cbn [transactions calls].
  fold (path_changes (pathMap view) newPathMap (categoryId :: descendants)).
  generalize (path_changes (pathMap view) newPathMap
                (categoryId :: descendants)) as changes.
  intros changes. split_and!; [done..| | | |].
  - intros i o n.
    apply (path_change_Some fuel0 fuel categories updated oldTree tree);
      [done| |done..].
    rewrite Hcats. by apply updated_names_nonempty.
  - done.
  - by rewrite length_fmap.
  - intros k t Hk. exists (relabel_seq changes t). split_and!.
    + by rewrite list_lookup_fmap, Hk.
    + done.
    + apply relabel_seq_label_only.
    + apply relabel_seq_foreign.
    + apply relabel_seq_untouched.
    + intros Hu before o n after -> Hc Hbefore. split.
      * intros Hafter. by rewrite relabel_seq_first_match.
      * intros middle n' rest -> Hmiddle Hrest.
        by rewrite relabel_seq_chained.
Qed.
End Cascade.


(** C1, refuted as stated: rename the root [A], which has a child [B], to
    ["A → B"].  The update succeeds; the path of the root changes from
    ["A"] to ["A → B"]; but the row that was labelled ["A"] ends with the
    label ["A → B → B"], because the rewrite issued next for the child
    (old path ["A → B"]) matches it again. *)
Lemma update_cascade_counterexample :
  ∃ view updated store' tree newPathMap,
    @render example_host 3 chain_example = Some view
    ∧ @updateCategory example_host 3 view "t"
        (mkUpdates (Some "A → B") None) (mkStore [row "1" "A"] [])
      = (Ok updated, store')
    ∧ @buildTreeAndPaths example_host 3 updated = Some (tree, newPathMap)
    ∧ pathMap view !! "t" = Some "A"
    ∧ newPathMap !! "t" = Some "A → B"
    ∧ Transaction.category <$> transactions store' = ["A → B → B"].
Proof.
  do 5 eexists.
  split; [vm_compute; reflexivity|].
  split; [vm_compute; reflexivity|].
  split; [vm_compute; reflexivity|].
  split_and!; vm_compute; reflexivity.
Qed.

(** The pairs of a concrete list, one case each. *)
Ltac cases_of_elem H :=
  repeat (apply elem_of_cons in H as [H|H]; [injection H as -> ->|]);
  try (by apply elem_of_nil in H).

Lemma transport_render :
  @render example_host 4 transport_example = Some transport_view.
Proof. vm_compute. reflexivity. Qed.

Lemma transport_names c : c ∈ transport_example → Category.name c ≠ "".
Proof. revert c. apply (proj1 (Forall_forall _ _)). by_evaluation. Qed.

Lemma rename_run :
  @updateCategory example_host 4 transport_view "t"
    (mkUpdates (Some "Travel") None) rename_store
  = (Ok renamed_categories, renamed_store).
Proof. vm_compute. reflexivity. Qed.

Lemma renamed_build :
  @buildTreeAndPaths example_host 4 renamed_categories
  = Some (renamed_tree, renamed_paths).
Proof. vm_compute. reflexivity. Qed.

Lemma prefix_render :
  @render example_host 3 prefix_example = Some prefix_view.
Proof. vm_compute. reflexivity. Qed.

Lemma prefix_names c : c ∈ prefix_example → Category.name c ≠ "".
Proof. revert c. apply (proj1 (Forall_forall _ _)). by_evaluation. Qed.

Lemma prefix_run :
  @updateCategory example_host 3 prefix_view "t"
    (mkUpdates (Some "Q") None) prefix_store
  = (Ok prefix_renamed_categories, prefix_renamed_store).
Proof. vm_compute. reflexivity. Qed.

Lemma prefix_renamed_build :
  @buildTreeAndPaths example_host 3 prefix_renamed_categories
  = Some (prefix_renamed_tree, prefix_renamed_paths).
Proof. vm_compute. reflexivity. Qed.

Lemma prefix_descendants : descendantsMap prefix_view !! "t" = Some ["c"].
Proof. vm_compute. reflexivity. Qed.

Lemma prefix_changes :
  omap (path_change (pathMap prefix_view) prefix_renamed_paths) ["t"; "c"]
  = [("Q → C", "Q"); ("Q → C → C", "Q → C")].
Proof. vm_compute. reflexivity. Qed.

Lemma transport_descendants_entry :
  descendantsMap transport_view !! "t" = Some ["f"].
Proof. vm_compute. reflexivity. Qed.

Lemma rename_changes :
  omap (path_change (pathMap transport_view) renamed_paths) ["t"; "f"]
  = [("Transport", "Travel"); ("Transport → Fuel", "Travel → Fuel")].
Proof. vm_compute. reflexivity. Qed.

Lemma update_cascade_witness :
  (@render example_host 3 prefix_example = Some prefix_view
   ∧ (∀ c, c ∈ prefix_example → Category.name c ≠ "")
   ∧ @updateCategory example_host 3 prefix_view "t"
       (mkUpdates (Some "Q") None) prefix_store
     = (Ok prefix_renamed_categories, prefix_renamed_store)
   ∧ @buildTreeAndPaths example_host 3 prefix_renamed_categories
     = Some (prefix_renamed_tree, prefix_renamed_paths)
   ∧ calls prefix_renamed_store
     = [UpdateCategoryRow "t" (Some "Q") None;
        RelabelTransactions "Q → C" "Q";
        RelabelTransactions "Q → C → C" "Q → C"]
   ∧ (∃ t', transactions prefix_renamed_store !! 0 = Some t'
            ∧ Transaction.category t' = "Q")
   ∧ (∃ t', transactions prefix_renamed_store !! 1 = Some t'
            ∧ Transaction.category t' = "Q → C")
   ∧ (∃ t', transactions prefix_renamed_store !! 2 = Some t'
            ∧ t' = row "3" "Q"))
  ∧ (@render example_host 4 transport_example = Some transport_view
     ∧ (∀ c, c ∈ transport_example → Category.name c ≠ "")
     ∧ @updateCategory example_host 4 transport_view "t"
         (mkUpdates (Some "Travel") None) rename_store
       = (Ok renamed_categories, renamed_store)
     ∧ @buildTreeAndPaths example_host 4 renamed_categories
       = Some (renamed_tree, renamed_paths)
     ∧ (∃ t', transactions renamed_store !! 0 = Some t'
              ∧ Transaction.category t' = "Travel → Fuel")
     ∧ (∃ t', transactions renamed_store !! 1 = Some t'
              ∧ t' = row "2" "Travel → Fuel")).
Proof.
  split.
  - destruct (@update_cascade example_host 3 3 prefix_example prefix_view
                prefix_store "t" (mkUpdates (Some "Q") None)
                prefix_renamed_categories prefix_renamed_store
                prefix_renamed_tree prefix_renamed_paths
                prefix_render prefix_names prefix_run prefix_renamed_build)
      as (descendants & Hdesc & _ & _ & _ & Hall).
    rewrite prefix_descendants in Hdesc. injection Hdesc as <-.
    cbv zeta in Hall. rewrite prefix_changes in Hall.
    destruct Hall as (Hcalls & _ & Hrow).
    split; [exact prefix_render|]. split; [exact prefix_names|].
    split; [exact prefix_run|]. split; [exact prefix_renamed_build|].
    split; [exact Hcalls|]. split_and!.
    + destruct (Hrow 0 (row "1" "Q → C") eq_refl)
        as (t' & Ht' & _ & _ & _ & _ & Hmatch).
      exists t'. split; [exact Ht'|].
      apply (Hmatch eq_refl [] "Q → C" "Q" [("Q → C → C", "Q → C")]
               eq_refl eq_refl).
      * intros o' n' Hin. by apply elem_of_nil in Hin.
      * intros o' n' Hin. cases_of_elem Hin. discriminate.
    + destruct (Hrow 1 (row "2" "Q → C → C") eq_refl)
        as (t' & Ht' & _ & _ & _ & _ & Hmatch).
      exists t'. split; [exact Ht'|].
      apply (Hmatch eq_refl [("Q → C", "Q")] "Q → C → C" "Q → C" []
               eq_refl eq_refl).
      * intros o' n' Hin. cases_of_elem Hin. discriminate.
      * intros o' n' Hin. by apply elem_of_nil in Hin.
    + destruct (Hrow 2 (row "3" "Q") eq_refl)
        as (t' & Ht' & _ & _ & _ & Hsame & _).
      exists t'. split; [exact Ht'|].
      apply Hsame. intros o n Hin. cases_of_elem Hin; discriminate.
  - destruct (@update_cascade example_host 4 4 transport_example
                transport_view rename_store "t"
                (mkUpdates (Some "Travel") None)
                renamed_categories renamed_store renamed_tree renamed_paths
                transport_render transport_names rename_run renamed_build)
      as (descendants & Hdesc & _ & _ & _ & Hall).
    rewrite transport_descendants_entry in Hdesc. injection Hdesc as <-.
    cbv zeta in Hall. rewrite rename_changes in Hall.
    destruct Hall as (_ & _ & Hrow).
    split; [exact transport_render|]. split; [exact transport_names|].
    split; [exact rename_run|]. split; [exact renamed_build|]. split.
    + destruct (Hrow 0 (row "1" "Transport → Fuel") eq_refl)
        as (t' & Ht' & _ & _ & _ & _ & Hmatch).
      exists t'. split; [exact Ht'|].
      apply (Hmatch eq_refl [("Transport", "Travel")] "Transport → Fuel"
               "Travel → Fuel" [] eq_refl eq_refl).
      * intros o' n' Hin. cases_of_elem Hin. discriminate.
      * intros o' n' Hin. by apply elem_of_nil in Hin.
    + destruct (Hrow 1 (row "2" "Travel → Fuel") eq_refl)
        as (t' & Ht' & _ & _ & _ & Hsame & _).
      exists t'. split; [exact Ht'|].
      apply Hsame. intros o n Hin. cases_of_elem Hin; discriminate.
Defined.

(** *** Validation of update and delete (C2) *)

Section Validation.
Context `{Host}.

(** C2: an update whose target is not in the collection, or is the system
    category, or whose new name trims to the empty string, or whose new
    parent is the category itself or one of its descendants, and a delete
    whose target is not in the collection or is the system category, throw
    an [Error] of the hook and leave the store as it was: no call is
    recorded and no row has changed; the collection in memory stays the
    one of the view.  Ids are the store's keys and are not empty. *)
Theorem validation_fails_fast (fuel0 fuel : nat) (categories : list Category.t)
    (view : View) (store : Store) (categoryId : string) (updates : Updates) :
  render fuel0 categories = Some view →
  (∀ c, c ∈ categories → Category.id c ≠ "") →
  ((categoryId ∉ Category.id <$> categories
    ∨ (∃ c, find_category categoryId categories = Some c
            ∧ Category.is_system c = true)
    ∨ (∃ name, upd_name updates = Some name ∧ trim name = "")
    ∨ upd_parent_id updates = Some (Some categoryId)
    ∨ (∃ p, upd_parent_id updates = Some (Some p)
            ∧ descendant_of categories categoryId p)) →
   ∃ message,
     updateCategory fuel view categoryId updates store
     = (Throw (Error message), store)
     ∧ categories_after view (Throw (Error message)) = categories)
  ∧ ((categoryId ∉ Category.id <$> categories
      ∨ (∃ c, find_category categoryId categories = Some c
              ∧ Category.is_system c = true)) →
     ∃ message,
       deleteCategory view categoryId store = (Throw (Error message), store)
       ∧ categories_after view (Throw (Error message)) = categories).
Proof.
  intros Hr Hids.
  destruct (render_inv _ _ _ Hr) as (Hview & _ & _).
  unfold categories_after. rewrite Hview. split.
  - intros Hbad. unfold updateCategory. rewrite Hview.
    destruct (find_category categoryId categories) as [c|] eqn:Hfind;
      [|by eexists].
    destruct (Category.is_system c) eqn:Hsys; [by eexists|].
    pose proof (find_category_Some _ _ _ Hfind) as [Hc Hid].
    assert (categoryId ∈ Category.id <$> categories) as Hin.
    { rewrite <-Hid. by apply list_elem_of_fmap_2. }
    destruct (view_descendants _ _ _ categoryId Hr Hin) as (l & Hl & Hdesc).
    rewrite Hl. simpl.
    destruct Hbad as [Hnot|[(c' & [= <-] & Hsys')|Hbad]];
      [done|congruence|].
    assert (∀ p, upd_parent_id updates = Some (Some p) →
                 p = categoryId ∨ descendant_of categories categoryId p →
                 ∃ message,
                   (if truthy p then
                      if bool_decide (p = categoryId)
                      then Some (Error "A category cannot be its own parent")
                      else if bool_decide (p ∈ l)
                      then Some (Error
                        "A category cannot be moved under one of its subcategories")
                      else None
                    else None) = Some (Error message)) as Hparent.
    { intros p _ Hp.
      assert (truthy p = true) as ->.
      { apply truthy_true. destruct Hp as [->|Hp].
        - rewrite <-Hid. by apply Hids.
        - apply descendant_in_ids in Hp as (x & -> & Hx)%list_elem_of_fmap_1.
          by apply Hids. }
      case_bool_decide; [by eexists|].
      destruct Hp as [?|Hp]; [done|].
      rewrite bool_decide_eq_true_2; [by eexists|by apply Hdesc]. }
    destruct Hbad as [(name & Hname & Htrim)|Hbad].
    + match goal with
      | |- context [match ?check with Some e => throw e | None => _ end] =>
          assert (∀ e, check = Some e → ∃ m, e = Error m) as Hcheck;
          [|destruct check as [e|]]
      end.
      * destruct (upd_parent_id updates) as [[p|]|]; try done.
        destruct (truthy p); [|done].
        repeat case_bool_decide; intros e [= <-]; by eexists.
      * destruct (Hcheck e eq_refl) as [m ->]. by eexists.
      * rewrite Hname. simpl. rewrite Htrim. by eexists.
    + destruct Hbad as [Hp|(p & Hp & Hd)].
      * destruct (Hparent categoryId Hp (or_introl eq_refl)) as [m Hm].
        rewrite Hp, Hm. by eexists.
      * destruct (Hparent p Hp (or_intror Hd)) as [m Hm].
        rewrite Hp, Hm. by eexists.
  - intros Hbad. unfold deleteCategory. rewrite Hview.
    destruct (find_category categoryId categories) as [c|] eqn:Hfind;
      [|by eexists].
    destruct (Category.is_system c) eqn:Hsys; [by eexists|].
    destruct Hbad as [Hnot|(c' & [= <-] & Hsys')]; [|congruence].
    exfalso. apply Hnot. apply find_category_Some in Hfind as [Hc <-].
    by apply list_elem_of_fmap_2.
Qed.
End Validation.

Lemma validation_fails_fast_witness :
  ∃ view,
    @render example_host 4 transport_example = Some view
    ∧ (∀ c, c ∈ transport_example → Category.id c ≠ "")
    ∧ descendant_of transport_example "t" "f"
    ∧ (∃ c, find_category "u" transport_example = Some c
            ∧ Category.is_system c = true)
    ∧ (∃ message,
         @updateCategory example_host 4 view "t"
           (mkUpdates None (Some (Some "f")))
           (mkStore [row "1" "Transport → Fuel"] [])
         = (Throw (Error message), mkStore [row "1" "Transport → Fuel"] [])
         ∧ categories_after view (Throw (Error message)) = transport_example)
    ∧ (∃ message,
         @deleteCategory example_host view "u"
           (mkStore [row "1" "Transport → Fuel"] [])
         = (Throw (Error message), mkStore [row "1" "Transport → Fuel"] [])
         ∧ categories_after view (Throw (Error message)) = transport_example).
Proof.
  eexists. split; [vm_compute; reflexivity|].
  assert (∀ c, c ∈ transport_example → Category.id c ≠ "") as Hids.
  { apply (proj1 (Forall_forall _ _)). by_evaluation. }
  assert (descendant_of transport_example "t" "f") as Hdesc.
  { apply (descendant_child _ "t" (Category.mk "f" "Fuel" (Some "t") false));
      [|done].
    do 2 apply list_elem_of_further. apply list_elem_of_here. }
  assert (∃ c, find_category "u" transport_example = Some c
               ∧ Category.is_system c = true) as Hsys.
  { eexists. split; [vm_compute; reflexivity|done]. }
  split; [exact Hids|]. split; [exact Hdesc|]. split; [exact Hsys|].
  split.
  - apply (@validation_fails_fast example_host 4 4 transport_example _
             (mkStore [row "1" "Transport → Fuel"] []) "t"
             (mkUpdates None (Some (Some "f"))) eq_refl Hids).
    do 4 right. by exists "f".
  - apply (@validation_fails_fast example_host 4 4 transport_example _
             (mkStore [row "1" "Transport → Fuel"] []) "u"
             (mkUpdates None None) eq_refl Hids).
    by right.
Defined.

(** *** The delete cascade (C3) *)

Section DeleteCascade.
Context `{Host}.

Lemma unique_ids_filter (P : Category.t → Prop) `{!∀ c, Decision (P c)} cats :
  unique_ids cats → unique_ids (filter P cats).
Proof.
  unfold unique_ids. intros Hu. eapply sublist_NoDup; [exact Hu|].
  apply fmap_sublist, sublist_filter.
Qed.

(** C3: after a successful delete of a category (which is then not the
    system category), every row of the owner whose label is the full path
    of the deleted category or of one of its descendants carries the system
    label; the collection left in memory is the old one without the deleted
    category and its descendants; and a tree build over it has no path and
    no node for any of them (and, ids being unique, does return). *)
Theorem delete_cascade (fuel0 : nat) (categories : list Category.t)
    (view : View) (store : Store) (categoryId : string)
    (remaining : list Category.t) (store' : Store) :
  render fuel0 categories = Some view →
  (∀ c, c ∈ categories → Category.name c ≠ "") →
  deleteCategory view categoryId store = (Ok remaining, store') →
  (∃ c, find_category categoryId categories = Some c
        ∧ Category.is_system c = false)
  ∧ length (transactions store') = length (transactions store)
  ∧ (∀ k t i,
       transactions store !! k = Some t →
       Transaction.user_id t = Some TEMP_USER_ID →
       i = categoryId ∨ descendant_of categories categoryId i →
       pathMap view !! i = Some (Transaction.category t) →
       transactions store' !! k
       = Some (Transaction.with_category SYSTEM_CATEGORY_NAME t))
  ∧ (∀ c, c ∈ remaining ↔
          c ∈ categories
          ∧ ¬ (Category.id c = categoryId
               ∨ descendant_of categories categoryId (Category.id c)))
  ∧ (∀ fuel tree newPathMap,
       buildTreeAndPaths fuel remaining = Some (tree, newPathMap) →
       ∀ i, i = categoryId ∨ descendant_of categories categoryId i →
            newPathMap !! i = None
            ∧ i ∉ Category.id <$> flat_map flatten tree)
  ∧ (unique_ids categories →
     is_Some (buildTreeAndPaths (length remaining) remaining)).
Proof.
  intros Hr Hnames Hdel.
  destruct (render_inv _ _ _ Hr) as (Hview & [oldTree Hold] & _).
  destruct (deleteCategory_Ok _ _ _ _ _ Hdel) as (c & Hfind & Hsys & -> & ->).
  rewrite Hview in *.
  pose proof (affected_ids _ _ _ _ _ Hr Hfind) as Haff.
  assert (∀ x, x ∈ filter (λ cat, Category.id cat ∉
                 categoryId :: default [] (descendantsMap view !! categoryId))
               categories ↔
               x ∈ categories
               ∧ ¬ (Category.id x = categoryId
                    ∨ descendant_of categories categoryId (Category.id x)))
    as Hleft.
  { intros x. rewrite list_elem_of_filter, Haff. tauto. }
  cbn [transactions calls]. split_and!.
  - by exists c.
  - by rewrite length_fmap.
  - intros k t i Hk Hu Hi Hp. rewrite list_lookup_fmap, Hk.
    cbn [fmap option_fmap option_map]. f_equal.
    apply (relabel_seq_reset _ _ _ (Transaction.category t)); [|done..].
    apply list_elem_of_filter. split.
    + apply (proj2 (truthy_true _)).
      by eapply (buildTreeAndPaths_paths_nonempty fuel0 categories).
    + apply list_elem_of_omap. exists i. split; [by apply Haff|done].
  - exact Hleft.
  - intros fuel tree pm Hb i Hi. split.
    + apply eq_None_not_Some.
      intros (x & Hx & <- & _)%(pathMap_entry_iff _ _ _ _ _ Hb).
      apply Hleft in Hx as [_ Hx]. by apply Hx.
    + intros (x & -> & Hx)%list_elem_of_fmap_1.
      apply (buildTreeAndPaths_nodes _ _ _ _ Hb), reachable_in in Hx.
      apply Hleft in Hx as [_ Hx]. by apply Hx.
  - intros Hu. by apply buildTreeAndPaths_total, unique_ids_filter.
Qed.
End DeleteCascade.

Lemma delete_cascade_witness :
  ∃ view remaining store',
    @render example_host 4 transport_example = Some view
    ∧ (∀ c, c ∈ transport_example → Category.name c ≠ "")
    ∧ @deleteCategory example_host view "t"
        (mkStore [row "1" "Transport → Fuel"; row "2" "Transport";
                  row "3" "Uncategorized"] [])
      = (Ok remaining, store')
    ∧ unique_ids transport_example
    ∧ transactions store' !! 0 = Some (row "1" "Uncategorized")
    ∧ transactions store' !! 1 = Some (row "2" "Uncategorized")
    ∧ (∀ c, c ∈ remaining → Category.id c ≠ "t" ∧ Category.id c ≠ "f")
    ∧ is_Some (@buildTreeAndPaths example_host (length remaining) remaining).
Proof.
  do 3 eexists. split; [vm_compute; reflexivity|].
  assert (∀ c, c ∈ transport_example → Category.name c ≠ "") as Hnames.
  { apply (proj1 (Forall_forall _ _)). by_evaluation. }
  split; [exact Hnames|]. split; [vm_compute; reflexivity|].
  split; [exact transport_example_unique|].
  assert (descendant_of transport_example "t" "f") as Hdesc.
  { apply (descendant_child _ "t" (Category.mk "f" "Fuel" (Some "t") false));
      [|done].
    do 2 apply list_elem_of_further. apply list_elem_of_here. }
  destruct (@delete_cascade example_host 4 transport_example _
              (mkStore [row "1" "Transport → Fuel"; row "2" "Transport";
                        row "3" "Uncategorized"] [])
              "t" _ _ eq_refl Hnames eq_refl)
    as (_ & _ & Hrows & Hleft & _ & Hbuild).
  split_and!.
  - by apply (Hrows 0 (row "1" "Transport → Fuel") "f"); [..|right|].
  - by apply (Hrows 1 (row "2" "Transport") "t"); [..|left|].
  - intros c [_ Hc]%Hleft. split; intros Hid; apply Hc; rewrite Hid;
      [by left|by right].
  - exact (Hbuild transport_example_unique).
Defined.

(** *** Strings and their characters *)

Lemma string_app_nil_l s : "" +:+ s = s.
Proof. done. Qed.

Lemma string_app_cons c s t : String c s +:+ t = String c (s +:+ t).
Proof. done. Qed.

Lemma string_app_nil_r s : s +:+ "" = s.
Proof.
  induction s as [|c s IH]; [done|]. by rewrite string_app_cons, IH.
Qed.

Lemma string_app_assoc s t u : (s +:+ t) +:+ u = s +:+ t +:+ u.
Proof.
  induction s as [|c s IH]; [done|]. by rewrite !string_app_cons, IH.
Qed.

Lemma concat_strings_cons s l : concat_strings (s :: l) = s +:+ concat_strings l.
Proof. done. Qed.

Lemma concat_strings_app l k :
  concat_strings (l ++ k) = concat_strings l +:+ concat_strings k.
Proof.
  induction l as [|s l IH]; [done|].
  by rewrite <-app_comm_cons, !concat_strings_cons, IH, string_app_assoc.
Qed.

Lemma all_chars_app p s t :
  all_chars p (s +:+ t) = all_chars p s && all_chars p t.
Proof.
  induction s as [|c s IH]; [done|].
  rewrite string_app_cons. simpl. by rewrite IH, andb_assoc.
Qed.

(** Continuation bytes join the character under construction. *)
Lemma chars_go_continuation current rest s :
  all_chars is_continuation rest = true →
  chars_go current (rest +:+ s) = chars_go (current +:+ rest) s.
Proof.
  revert current. induction rest as [|b rest IH]; intros current Hall.
  - by rewrite string_app_nil_l, string_app_nil_r.
  - simpl in Hall. apply andb_true_iff in Hall as [Hb Hrest].
    rewrite string_app_cons. simpl. rewrite Hb, IH by done.
    by rewrite string_app_assoc.
Qed.

Lemma chars_go_concat current l :
  Forall unit_shape l → Forall lead_ok l →
  chars_go current (concat_strings l) = current :: l.
Proof.
  revert current. induction l as [|ch l IH]; intros current Hshape Hlead; [done|].
  apply Forall_cons in Hshape as [Hch Hshape].
  apply Forall_cons in Hlead as [Hl Hlead].
  destruct ch as [|b rest]; [done|]. simpl in Hch, Hl.
  rewrite concat_strings_cons, string_app_cons. simpl. rewrite Hl.
  rewrite chars_go_continuation by done. by rewrite IH.
Qed.

(** Joining characters and splitting again gives the characters back. *)
Lemma chars_concat l :
  Forall unit_shape l → Forall lead_ok (tail l) →
  chars (concat_strings l) = l.
Proof.
  destruct l as [|ch l]; [done|]. intros [Hch Hshape]%Forall_cons Hlead.
  destruct ch as [|b rest]; [done|]. simpl in Hch, Hlead.
  rewrite concat_strings_cons, string_app_cons. unfold chars.
  rewrite chars_go_continuation by done. by rewrite chars_go_concat.
Qed.

Lemma chars_go_shape current s :
  unit_shape current →
  Forall unit_shape (chars_go current s)
  ∧ Forall lead_ok (tail (chars_go current s))
  ∧ (lead_ok current → Forall lead_ok (chars_go current s)).
Proof.
  revert current. induction s as [|b s IH]; intros current Hcur; simpl.
  - split_and!; [by constructor|constructor|by constructor].
  - destruct (is_continuation b) eqn:Hb.
    + destruct current as [|c cur]; [done|]. simpl in Hcur.
      destruct (IH (String c cur +:+ String b "")) as (Hs & Ht & Hl).
      { rewrite string_app_cons. simpl. rewrite all_chars_app, Hcur. simpl.
        by rewrite Hb. }
      split_and!; [done..|]. intros Hlead. apply Hl.
      by rewrite string_app_cons.
    + destruct (IH (String b "")) as (Hs & _ & Hl); [done|].
      split_and!; [by constructor|by apply Hl|].
      intros Hlead. constructor; [done|by apply Hl].
Qed.

Lemma chars_shape s :
  Forall unit_shape (chars s) ∧ Forall lead_ok (tail (chars s)).
Proof.
  destruct s as [|b s]; [split; constructor|].
  destruct (chars_go_shape (String b "") s) as (Hs & Ht & _); done.
Qed.

Lemma Forall_filter_list {A} (P Q : A → Prop) `{!∀ x, Decision (Q x)} l :
  Forall P l → Forall P (filter Q l).
Proof.
  rewrite !Forall_forall. intros Hl x [_ Hx]%list_elem_of_filter. by apply Hl.
Qed.

Lemma tail_filter_lead_ok (P : string → Prop) `{!∀ x, Decision (P x)} l :
  Forall lead_ok (tail l) → Forall lead_ok (tail (filter P l)).
Proof.
  destruct l as [|x l]; [done|]. simpl. intros Hl. rewrite filter_cons.
  assert (Forall lead_ok (filter P l)) as Hf by by apply Forall_filter_list.
  destruct (decide (P x)); [done|].
  destruct (filter P l); [constructor|]. by apply Forall_cons in Hf as [_ ?].
Qed.

(** Removing a class of characters, seen on the characters. *)
Lemma chars_remove_class class s :
  chars (remove_class class s)
  = filter (λ ch, in_class class ch = false) (chars s).
Proof.
  unfold remove_class. destruct (chars_shape s) as [Hs Ht].
  apply chars_concat.
  - by apply Forall_filter_list.
  - by apply tail_filter_lead_ok.
Qed.

Lemma chars_go_snoc current s c :
  is_continuation c = false →
  chars_go current (s +:+ String c "") = chars_go current s ++ [String c ""].
Proof.
  intros Hc. revert current. induction s as [|b s IH]; intros current.
  - rewrite string_app_nil_l. simpl. by rewrite Hc.
  - rewrite string_app_cons. simpl. destruct (is_continuation b); by rewrite IH.
Qed.

Lemma chars_go_start c s :
  starts_character s → chars_go (String c "") s = String c "" :: chars s.
Proof.
  destruct s as [|b s]; [done|]. simpl. by intros ->.
Qed.

(** A value in parentheses is cleaned to the same string as the value. *)
Lemma clean_amount_parentheses value :
  starts_character value →
  clean_amount ("(" +:+ value +:+ ")") = clean_amount value.
Proof.
  intros Hstart. unfold clean_amount.
  unfold remove_class at 1 3. f_equal. rewrite !chars_remove_class.
  rewrite string_app_cons, string_app_nil_l. unfold chars at 1.
  rewrite chars_go_snoc by done. rewrite chars_go_start by done.
  rewrite <-app_comm_cons.
  rewrite filter_cons_True by (vm_compute; reflexivity).
  rewrite filter_app.
  rewrite (filter_cons_True _ ")" []) by (vm_compute; reflexivity).
  rewrite filter_nil.
  rewrite filter_cons_False by (vm_compute; discriminate).
  rewrite filter_app.
  rewrite (filter_cons_False _ ")" []) by (vm_compute; discriminate).
  by rewrite filter_nil, app_nil_r.
Qed.

(** *** The date normalizer (C8) *)

Lemma string_length_app s t :
  String.length (s +:+ t) = String.length s + String.length t.
Proof.
  induction s as [|c s IH]; [done|]. rewrite string_app_cons. simpl. by rewrite IH.
Qed.

(** Eight characters split as four, two and two. *)
Lemma eight_characters s :
  String.length s = 8 →
  s = String.substring 0 4 s +:+ String.substring 4 2 s +:+ String.substring 6 2 s
  ∧ String.length (String.substring 0 4 s) = 4
  ∧ String.length (String.substring 4 2 s) = 2
  ∧ String.length (String.substring 6 2 s) = 2.
Proof.
  destruct s as [|c1 [|c2 [|c3 [|c4 [|c5 [|c6 [|c7 [|c8 [|c9 s]]]]]]]]];
    try discriminate.
  by intros _.
Qed.

Lemma two_digits n :
  n < 100 → String.length (padStart2 (string_of_nat n)) = 2.
Proof.
  intros Hn.
  assert (forallb (λ k, String.length (padStart2 (string_of_nat k)) =? 2)
            (seq 0 100) = true) as Hall by (vm_compute; reflexivity).
  rewrite forallb_forall in Hall.
  apply Nat.eqb_eq, Hall, in_seq. lia.
Qed.

Lemma four_digits (y : Z) :
  (1000 ≤ y ≤ 9999)%Z → String.length (string_of_Z y) = 4.
Proof.
  intros Hy.
  assert (forallb (λ k, String.length (string_of_Z (Z.of_nat k)) =? 4)
            (seq 1000 (90 * 100)) = true) as Hall by (vm_compute; reflexivity).
  rewrite forallb_forall in Hall.
  rewrite <-(Z2Nat.id y) by lia.
  apply Nat.eqb_eq, Hall, in_seq. lia.
Qed.

Section DateNormalizer.
Context `{Host}.

(** C8: for every input, with [trimmed] the input trimmed: if [trimmed] is
    eight digits, the result is its first four characters, a hyphen, the
    next two, a hyphen and the last two; otherwise, if the host parses
    [trimmed] as a date, the result is the local year, a hyphen, the local
    month and the local day of the month, each padded to two digits (ten
    characters for a four-digit year); otherwise the result is [trimmed]
    itself.  The function is total: it cannot throw. *)
Theorem date_normalizer (value : string) :
  (is_8_digits (trim value) = true →
   ∃ year month day,
     trim value = year +:+ month +:+ day
     ∧ String.length year = 4 ∧ String.length month = 2
     ∧ String.length day = 2
     ∧ normalizeDate value = year +:+ "-" +:+ month +:+ "-" +:+ day)
  ∧ (is_8_digits (trim value) = false →
     ∀ parsed, newDate (trim value) = Some parsed →
       normalizeDate value
       = string_of_Z (fullYear parsed) +:+ "-"
         +:+ padStart2 (string_of_nat (month parsed + 1)) +:+ "-"
         +:+ padStart2 (string_of_nat (dayOfMonth parsed))
       ∧ ((1000 ≤ fullYear parsed ≤ 9999)%Z → month parsed < 12 →
          dayOfMonth parsed ≤ 31 →
          String.length (normalizeDate value) = 10))
  ∧ (is_8_digits (trim value) = false → newDate (trim value) = None →
     normalizeDate value = trim value).
Proof.
  unfold normalizeDate. split_and!.
  - intros H8. rewrite H8.
    apply andb_true_iff in H8 as [Hlen%bool_decide_eq_true _].
    destruct (eight_characters _ Hlen) as (Hsplit & Hy & Hm & Hd).
    by exists (String.substring 0 4 (trim value)),
              (String.substring 4 2 (trim value)),
              (String.substring 6 2 (trim value)).
  - intros H8 parsed Hparsed. rewrite H8, Hparsed. split; [done|].
    intros Hyear Hmonth Hday. rewrite !string_length_app.
    rewrite four_digits, !two_digits by lia. done.
  - intros H8 Hnone. by rewrite H8, Hnone.
Qed.
End DateNormalizer.

Lemma date_normalizer_witness :
  is_8_digits (trim " 20251113 ") = true
  ∧ @normalizeDate example_host " 20251113 " = "2025-11-13"
  ∧ is_8_digits (trim "13 Nov 2025") = false
  ∧ @newDate example_host (trim "13 Nov 2025") = Some (mkLocalDate 2025 10 13)
  ∧ @normalizeDate example_host "13 Nov 2025" = "2025-11-13"
  ∧ String.length (@normalizeDate example_host "13 Nov 2025") = 10
  ∧ is_8_digits (trim "N/A") = false
  ∧ @newDate example_host (trim "N/A") = None
  ∧ @normalizeDate example_host "N/A" = "N/A".
Proof.
  assert (is_8_digits (trim " 20251113 ") = true) as H1
    by (vm_compute; reflexivity).
  assert (is_8_digits (trim "13 Nov 2025") = false) as H2
    by (vm_compute; reflexivity).
  assert (@newDate example_host (trim "13 Nov 2025")
          = Some (mkLocalDate 2025 10 13)) as H3 by (vm_compute; reflexivity).
  assert (is_8_digits (trim "N/A") = false) as H4 by (vm_compute; reflexivity).
  assert (@newDate example_host (trim "N/A") = None) as H5
    by (vm_compute; reflexivity).
  destruct (@date_normalizer example_host " 20251113 ") as (Hdigits & _ & _).
  destruct (@date_normalizer example_host "13 Nov 2025") as (_ & Hdate & _).
  destruct (@date_normalizer example_host "N/A") as (_ & _ & Hraw).
  destruct (Hdigits H1) as (y & m & d & Hsplit & Hy & Hm & Hd & Hresult).
  destruct (Hdate H2 _ H3) as [Hformat Hlength].
  split_and!.
  - exact H1.
  - vm_compute. reflexivity.
  - exact H2.
  - exact H3.
  - rewrite Hformat. vm_compute. reflexivity.
  - apply Hlength; simpl; lia.
  - exact H4.
  - exact H5.
  - rewrite (Hraw H4 H5). vm_compute. reflexivity.
Defined.

(** *** Format errors of the parser (C5) *)

Lemma findIndex_None_iff {A} (p : A → bool) (l : list A) :
  findIndex p l = None ↔ ¬ ∃ x, x ∈ l ∧ p x = true.
Proof.
  induction l as [|x l IH]; simpl.
  - split; [|done]. intros _ (y & Hy & _). by apply elem_of_nil in Hy.
  - destruct (p x) eqn:Hx.
    + split; [done|]. intros Hno. exfalso. apply Hno. exists x.
      split; [apply list_elem_of_here|done].
    + rewrite fmap_None, IH. split.
      * intros Hno (y & [->|Hy]%elem_of_cons & Hpy); [congruence|].
        apply Hno. by exists y.
      * intros Hno (y & Hy & Hpy). apply Hno. exists y.
        split; [by apply list_elem_of_further|done].
Qed.

Lemma findIndex_Some_first {A} (p : A → bool) (l : list A) i :
  findIndex p l = Some i →
  ∃ x, l !! i = Some x ∧ p x = true
       ∧ ∀ j y, j < i → l !! j = Some y → p y = false.
Proof.
  revert i. induction l as [|x l IH]; intros i; simpl; [done|].
  destruct (p x) eqn:Hx.
  - intros [= <-]. exists x. split_and!; [done..|]. intros j y Hj. lia.
  - destruct (findIndex p l) as [k|]; simpl; [|done]. intros [= <-].
    destruct (IH k eq_refl) as (y & Hy & Hpy & Hfirst).
    exists y. split_and!; [done..|].
    intros [|j] z Hj; simpl; [by intros [= <-]|].
    apply Hfirst. lia.
Qed.

Lemma findIndex_has_role (role : string → bool) headers :
  is_Some (findIndex role headers) ↔ has_role role headers.
Proof.
  unfold has_role. split.
  - intros [i Hi]. destruct (findIndex_Some_first _ _ _ Hi) as (h & Hh & Hr & _).
    exists h. split; [by eapply list_elem_of_lookup_2|done].
  - intros Hhas. destruct (findIndex role headers) eqn:Hf; [by eexists|].
    by apply findIndex_None_iff in Hf.
Qed.

Lemma findIndex_None_role (role : string → bool) headers :
  findIndex role headers = None ↔ ¬ has_role role headers.
Proof. by rewrite <-findIndex_has_role, eq_None_not_Some. Qed.

Section ParserFacts.
Context `{Host}.

(** A turn of the loop never throws: the guard on the number of fields
    covers the read of the date cell. *)
Lemma parse_row_Ok cols i line : ∃ r, parse_row cols i line = Ok r.
Proof.
  unfold parse_row. destruct (negb (truthy (trim line))); [by eexists|].
  destruct (length (parseCSVLine (trim line))
            <=? Nat.max (dateIndex cols) (descIndex cols)) eqn:Hlen;
    [by eexists|].
  apply Nat.leb_gt in Hlen.
  destruct (lookup_lt_is_Some_2 (parseCSVLine (trim line)) (dateIndex cols))
    as [rawDate ->]; [lia|]. by eexists.
Qed.

Lemma parse_rows_Ok cols i lines : ∃ ts, parse_rows cols i lines = Ok ts.
Proof.
  revert i. induction lines as [|line lines IH]; intros i; simpl; [by eexists|].
  destruct (parse_row_Ok cols i line) as [[t|] ->].
  - destruct (IH (S i)) as [ts ->]. by eexists.
  - apply IH.
Qed.

(** The test on the amount, debit and credit columns. *)
Lemma amount_columns_missing headers :
  bool_decide (findIndex is_amount_header headers = None)
  && (bool_decide (findIndex is_debit_header headers = None)
      || bool_decide (findIndex is_credit_header headers = None)) = true
  ↔ ¬ (has_role is_amount_header headers
       ∨ (has_role is_debit_header headers
          ∧ has_role is_credit_header headers)).
Proof.
  rewrite andb_true_iff, orb_true_iff, !bool_decide_eq_true.
  rewrite !findIndex_None_role.
  destruct (findIndex is_debit_header headers) as [b|] eqn:Hb.
  - assert (has_role is_debit_header headers) as Hdebit.
    { apply findIndex_has_role. rewrite Hb. by eexists. }
    tauto.
  - apply findIndex_None_role in Hb. tauto.
Qed.

(** C5: [parseCSV] throws its [Error] exactly when the trimmed text has
    fewer than two lines, or no header fills the date role, or none fills
    the description role, or neither an amount header nor both a debit and
    a credit header are there; on every other input it returns
    transactions.  It throws nothing else. *)
Theorem csv_format_errors (csvText : string) :
  let lines := split "010"%char (trim csvText) in
  let headers := headers_of (default EmptyString (head lines)) in
  ((∃ message, parseCSV csvText = Throw (Error message)) ↔
     length lines < 2
     ∨ ¬ has_role is_date_header headers
     ∨ ¬ has_role is_description_header headers
     ∨ ¬ (has_role is_amount_header headers
          ∨ (has_role is_debit_header headers
             ∧ has_role is_credit_header headers)))
  ∧ ((∃ message, parseCSV csvText = Throw (Error message))
     ∨ ∃ ts, parseCSV csvText = Ok ts).
Proof.
  intros lines headers. unfold parseCSV. fold lines. fold headers.
  destruct (length lines <? 2) eqn:Hlen.
  { apply Nat.ltb_lt in Hlen. split; [|left; by eexists].
    split; [by left|by eexists]. }
  apply Nat.ltb_ge in Hlen.
  pose proof (findIndex_has_role is_date_header headers) as Hdate.
  pose proof (findIndex_has_role is_description_header headers) as Hdesc.
  pose proof (amount_columns_missing headers) as Hamount.
  destruct (findIndex is_date_header headers) as [d|].
  2:{ split; [|left; by eexists]. split; [|by eexists].
      intros _. right. left. intros Hhas%Hdate. by destruct Hhas. }
  destruct (findIndex is_description_header headers) as [e|].
  2:{ split; [|left; by eexists]. split; [|by eexists].
      intros _. do 2 right. left. intros Hhas%Hdesc. by destruct Hhas. }
  destruct (bool_decide (findIndex is_amount_header headers = None)
            && (bool_decide (findIndex is_debit_header headers = None)
                || bool_decide (findIndex is_credit_header headers = None))).
  { split; [|left; by eexists]. split; [|by eexists].
    intros _. do 3 right. by apply Hamount. }
  destruct (parse_rows_Ok
              (mkColumns d e (findIndex is_amount_header headers)
                 (findIndex is_balance_header headers)
                 (findIndex is_debit_header headers)
                 (findIndex is_credit_header headers)) 1 (tail lines))
    as [ts ->].
  split; [|right; by eexists]. split; [by intros [? ?]|].
  intros [?|[Hno|[Hno|Hno]]]; [lia|exfalso..].
  - apply Hno, Hdate. by eexists.
  - apply Hno, Hdesc. by eexists.
  - by apply Hamount in Hno.
Qed.
End ParserFacts.

Lemma csv_format_errors_witness :
  (∃ message,
     @parseCSV example_host "Date,Description,Balance
2024-11-01,Groceries,100.00"
     = Throw (Error message))
  ∧ (∃ ts, @parseCSV example_host "Date,Description,Debit,Credit
2024-11-01,Groceries,850.50,
2024-11-02,Salary Deposit,,15000.00"
           = Ok ts ∧ length ts = 2).
Proof.
  split.
  - apply (@csv_format_errors example_host). do 3 right.
    apply amount_columns_missing. vm_compute. reflexivity.
  - destruct (proj2 (@csv_format_errors example_host "Date,Description,Debit,Credit
2024-11-01,Groceries,850.50,
2024-11-02,Salary Deposit,,15000.00")) as [[m Hm]|[ts Hts]].
    + exfalso. vm_compute in Hm. discriminate.
    + exists ts. split; [exact Hts|].
      vm_compute in Hts. injection Hts as <-. reflexivity.
Defined.

(** *** Row amounts (C4) *)

Section RowAmounts.
Context `{Host}.

Lemma parse_rows_elem cols i lines ts t :
  parse_rows cols i lines = Ok ts → t ∈ ts →
  ∃ k line, lines !! k = Some line
            ∧ parse_row cols (i + k) line = Ok (Some t).
Proof.
  revert i ts. induction lines as [|line lines IH]; intros i ts; simpl.
  - intros [= <-] Ht. by apply elem_of_nil in Ht.
  - destruct (parse_row cols i line) as [[t0|]| |] eqn:Hrow; try done.
    + destruct (parse_rows cols (S i) lines) as [ts'| |] eqn:Hrest; try done.
      intros [= <-] [->|Ht]%elem_of_cons.
      * exists 0, line. by rewrite Nat.add_0_r.
      * destruct (IH _ _ Hrest Ht) as (k & l & Hk & Hl).
        exists (S k), l. split; [done|]. by rewrite Nat.add_succ_r.
    + intros Hrest Ht. destruct (IH _ _ Hrest Ht) as (k & l & Hk & Hl).
      exists (S k), l. split; [done|]. by rewrite Nat.add_succ_r.
Qed.

Lemma parse_row_fields cols i line t :
  parse_row cols i line = Ok (Some t) →
  Transaction.id t = freshId i
  ∧ Transaction.amount t = row_amount cols (parseCSVLine (trim line)).
Proof.
  unfold parse_row. destruct (negb (truthy (trim line))); [done|].
  destruct (_ <=? _); [done|].
  destruct (parseCSVLine (trim line) !! dateIndex cols); [|done].
  by intros [= <-].
Qed.

(** An empty cell contributes what its normalized value is: zero. *)
Lemma cell_amount_contribution index values :
  default zero (cell_amount index values) = contribution index values.
Proof.
  unfold cell_amount, contribution. destruct index as [i|]; [|done].
  destruct (values !! i) as [cell|]; [|done].
  destruct cell; [|done]. simpl. vm_compute. reflexivity.
Qed.

Lemma row_amount_cell cols values a cell :
  amountIndex cols = Some a → values !! a = Some cell → cell ≠ "" →
  row_amount cols values = parseAmount cell.
Proof.
  intros Ha Hcell Hne. unfold row_amount, cell_amount. rewrite Ha, Hcell.
  by destruct cell.
Qed.

Lemma row_amount_fallback cols values :
  amountIndex cols = None
  ∨ (∃ a, amountIndex cols = Some a
          ∧ (values !! a = None ∨ values !! a = Some "")) →
  row_amount cols values
  = sub (contribution (creditIndex cols) values)
        (contribution (debitIndex cols) values).
Proof.
  intros Hcase. unfold row_amount.
  assert (cell_amount (amountIndex cols) values = None) as ->.
  { unfold cell_amount.
    destruct Hcase as [->|(a & -> & [->| ->])]; done. }
  by rewrite !cell_amount_contribution.
Qed.

(** C4, amended: in a parsed CSV every transaction comes from a data row,
    and with [values] the fields of that row: when the header has an
    amount column and the row's cell in it is not empty, the amount is the
    normalized value of that cell, whatever the debit and credit columns
    hold; when the header has no amount column, or the row's amount cell is
    empty or missing, the amount is credit minus debit, where the cell of a
    debit or credit column contributes its normalized value and a missing
    column or cell, like an unparseable cell, contributes zero.  The amount
    column is the first header filling the amount role. *)
Theorem row_amounts (csvText : string) (ts : list Transaction.t) :
  parseCSV csvText = Ok ts →
  let lines := split "010"%char (trim csvText) in
  let headers := headers_of (default EmptyString (head lines)) in
  ∀ t, t ∈ ts →
    ∃ k line,
      tail lines !! k = Some line
      ∧ Transaction.id t = freshId (S k)
      ∧ let values := parseCSVLine (trim line) in
        let credit := contribution (findIndex is_credit_header headers) values in
        let debit := contribution (findIndex is_debit_header headers) values in
        (∀ a cell,
           findIndex is_amount_header headers = Some a →
           values !! a = Some cell → cell ≠ "" →
           Transaction.amount t = parseAmount cell)
        ∧ (∀ a,
             findIndex is_amount_header headers = Some a →
             values !! a = None ∨ values !! a = Some "" →
             Transaction.amount t = sub credit debit)
        ∧ (¬ has_role is_amount_header headers →
           has_role is_debit_header headers →
           has_role is_credit_header headers →
           Transaction.amount t = sub credit debit).
Proof.
  intros Hparse lines headers t Ht. unfold parseCSV in Hparse.
  fold lines in Hparse. fold headers in Hparse.
  destruct (length lines <? 2); [done|].
  destruct (findIndex is_date_header headers) as [d|]; [|done].
  destruct (findIndex is_description_header headers) as [e|]; [|done].
  destruct (_ && _); [done|].
  destruct (parse_rows_elem _ _ _ _ _ Hparse Ht) as (k & line & Hk & Hrow).
  apply parse_row_fields in Hrow as [Hid Hamount].
  exists k, line. split; [done|]. split; [done|]. cbv zeta. split_and!.
  - intros a cell Ha Hcell Hne. rewrite Hamount.
    by apply (row_amount_cell _ _ a).
  - intros a Ha Hcell. rewrite Hamount, row_amount_fallback; [done|].
    right. by exists a.
  - intros Hno%findIndex_None_role _ _.
    rewrite Hamount, row_amount_fallback; [done|]. by left.
Qed.
End RowAmounts.

(** C4, refuted as stated: the header has an amount column, the row's
    amount cell is empty, whose normalized value is zero, yet the
    transaction's amount is credit minus debit, that is -50. *)
Lemma row_amounts_counterexample :
  has_role (@is_amount_header)
    (@headers_of example_host "Date,Description,Amount,Debit,Credit")
  ∧ parseCSVLine "2024-11-01,Groceries,,50,0" !! 2 = Some ""
  ∧ parseAmount "" = zero
  ∧ ∃ t, @parseCSV example_host "Date,Description,Amount,Debit,Credit
2024-11-01,Groceries,,50,0" = Ok [t]
         ∧ Transaction.amount t = Dec (-50) 0.
Proof.
  split_and!.
  - exists "amount". split; [|vm_compute; reflexivity].
    vm_compute. do 2 apply list_elem_of_further. apply list_elem_of_here.
  - vm_compute. reflexivity.
  - vm_compute. reflexivity.
  - eexists. split; vm_compute; reflexivity.
Qed.

Lemma statement_parsed :
  @parseCSV example_host statement_example = Ok statement_transactions.
Proof. vm_compute. reflexivity. Qed.

Lemma row_amounts_witness :
  @parseCSV example_host statement_example = Ok statement_transactions
  ∧ ∀ t, t ∈ statement_transactions →
      Transaction.amount t = Dec (-85050) (-2)
      ∨ Transaction.amount t = Dec 1500000 (-2).
Proof.
  split; [exact statement_parsed|]. intros t Ht.
  destruct (@row_amounts example_host statement_example statement_transactions
              statement_parsed t Ht)
    as (k & line & Hk & _ & _ & _ & Hpair).
  assert (¬ has_role (@is_amount_header)
            (@headers_of example_host
               (default "" (head (split "010"%char (trim statement_example))))))
    as Hno.
  { apply findIndex_None_role. vm_compute. reflexivity. }
  assert (has_role (@is_debit_header)
            (@headers_of example_host
               (default "" (head (split "010"%char (trim statement_example))))))
    as Hdebit.
  { apply findIndex_has_role. vm_compute. by eexists. }
  assert (has_role (@is_credit_header)
            (@headers_of example_host
               (default "" (head (split "010"%char (trim statement_example))))))
    as Hcredit.
  { apply findIndex_has_role. vm_compute. by eexists. }
  rewrite (Hpair Hno Hdebit Hcredit).
  destruct k as [|[|k]]; vm_compute in Hk.
  - injection Hk as <-. left. vm_compute. reflexivity.
  - injection Hk as <-. right. vm_compute. reflexivity.
  - discriminate.
Defined.

(** *** The deduplication filter (C6) *)

Section DedupFacts.
Context `{Host}.

Lemma createTransactionKey_finite t :
  isFinite (Transaction.amount t) = true → createTransactionKey t = fingerprint t.
Proof. unfold createTransactionKey, fingerprint. by intros ->. Qed.

Lemma filter_new_first_occurrences (known : gset string) reference accepted
    candidates :
  (∀ k, k ∈ known ↔ k ∈ reference ∨ k ∈ createTransactionKey <$> accepted) →
  filter_new known candidates
  = first_occurrences createTransactionKey reference accepted candidates.
Proof.
  revert known accepted.
  induction candidates as [|t rest IH]; intros known accepted Hknown; [done|].
  simpl. case_bool_decide as Hin.
  - rewrite decide_False; [by apply IH|]. apply Hknown in Hin. tauto.
  - rewrite decide_True.
    + f_equal. apply IH. intros k.
      rewrite elem_of_union, elem_of_singleton, Hknown, fmap_app, elem_of_app.
      cbn [fmap list_fmap]. rewrite list_elem_of_singleton. tauto.
    + rewrite Hknown in Hin. tauto.
Qed.

Lemma filter_new_sublist known candidates :
  filter_new known candidates `sublist_of` candidates.
Proof.
  revert known. induction candidates as [|t rest IH]; intros known; simpl.
  - constructor.
  - case_bool_decide; [by apply sublist_cons|by apply sublist_skip].
Qed.

Lemma filter_new_fresh known candidates t :
  t ∈ filter_new known candidates →
  t ∈ candidates ∧ createTransactionKey t ∉ known.
Proof.
  revert known. induction candidates as [|c rest IH]; intros known; simpl.
  - by intros ?%elem_of_nil.
  - case_bool_decide as Hin.
    + intros [Ht Hk]%IH. split; [by apply list_elem_of_further|done].
    + intros [->|[Ht Hk]%IH]%elem_of_cons.
      * split; [apply list_elem_of_here|done].
      * split; [by apply list_elem_of_further|].
        intros Hin'. apply Hk, elem_of_union. by right.
Qed.

Lemma filter_new_NoDup known candidates :
  NoDup (createTransactionKey <$> filter_new known candidates).
Proof.
  revert known. induction candidates as [|c rest IH]; intros known; simpl.
  - constructor.
  - case_bool_decide as Hin; [apply IH|].
    rewrite fmap_cons. apply NoDup_cons. split; [|apply IH].
    intros (t & Hkey & [_ Hfresh]%filter_new_fresh)%list_elem_of_fmap_1.
    apply Hfresh. rewrite <-Hkey. apply elem_of_union. left.
    by apply elem_of_singleton.
Qed.

(** Every fingerprint that is new has a representative in the result. *)
Lemma filter_new_covers known candidates t :
  t ∈ candidates → createTransactionKey t ∉ known →
  createTransactionKey t ∈ createTransactionKey <$> filter_new known candidates.
Proof.
  revert known. induction candidates as [|c rest IH]; intros known; simpl.
  - by intros ?%elem_of_nil.
  - intros [->|Ht]%elem_of_cons Hfresh.
    + rewrite bool_decide_eq_false_2 by done. rewrite fmap_cons.
      apply list_elem_of_here.
    + case_bool_decide as Hin; [by apply IH|].
      rewrite fmap_cons.
      destruct (decide (createTransactionKey t = createTransactionKey c))
        as [->|Hne]; [apply list_elem_of_here|].
      apply list_elem_of_further, IH; [done|].
      rewrite elem_of_union, elem_of_singleton. tauto.
Qed.

(** A batch without repeated or known fingerprints passes unchanged. *)
Lemma filter_new_id known candidates :
  NoDup (createTransactionKey <$> candidates) →
  (∀ t, t ∈ candidates → createTransactionKey t ∉ known) →
  filter_new known candidates = candidates.
Proof.
  revert known. induction candidates as [|c rest IH]; intros known; [done|].
  rewrite fmap_cons. intros [Hc Hnd]%NoDup_cons Hfresh. simpl.
  rewrite bool_decide_eq_false_2 by (apply Hfresh, list_elem_of_here).
  f_equal. apply IH; [done|]. intros t Ht.
  rewrite elem_of_union, elem_of_singleton. intros [Heq|Hin].
  - apply Hc. rewrite <-Heq. by apply list_elem_of_fmap_2.
  - by apply (Hfresh t); [apply list_elem_of_further|].
Qed.

Lemma first_occurrences_ext (key1 key2 : Transaction.t → string) reference
    accepted candidates :
  (∀ t, t ∈ accepted ++ candidates → key1 t = key2 t) →
  first_occurrences key1 reference accepted candidates
  = first_occurrences key2 reference accepted candidates.
Proof.
  revert accepted. induction candidates as [|t rest IH]; intros accepted Hkeys;
    [done|].
  simpl. rewrite (Hkeys t) by (apply elem_of_app; right; apply list_elem_of_here).
  rewrite (list_fmap_ext key1 key2 accepted).
  2:{ intros i x Hx. apply Hkeys, elem_of_app. left.
      by eapply list_elem_of_lookup_2. }
  case_decide; [f_equal|]; apply IH; intros x Hx; apply Hkeys.
  - rewrite <-app_assoc in Hx. exact Hx.
  - apply elem_of_app in Hx as [?|?]; apply elem_of_app; [by left|right].
    by apply list_elem_of_further.
Qed.

(** C6: the filter returns exactly the candidates, in their order, whose
    key is absent from the keys of the existing records and from the keys
    of the candidates accepted before them; the key is the fingerprint
    (trimmed date, bar, trimmed lowercased description, bar, amount with two
    decimals) of a record whose amount is finite.  The result is a
    subsequence of the batch without repeated keys, it represents every key
    that is new, and running the filter again on its own result, or on the
    same inputs, gives the same result. *)
Theorem dedup_filter (transactions newTransactions : list Transaction.t) :
  dedupedTransactions transactions newTransactions
  = first_occurrences createTransactionKey
      (createTransactionKey <$> transactions) [] newTransactions
  ∧ (Forall (λ t, isFinite (Transaction.amount t) = true) transactions →
     Forall (λ t, isFinite (Transaction.amount t) = true) newTransactions →
     dedupedTransactions transactions newTransactions
     = first_occurrences fingerprint (fingerprint <$> transactions) []
         newTransactions)
  ∧ dedupedTransactions transactions newTransactions `sublist_of` newTransactions
  ∧ NoDup (createTransactionKey
             <$> dedupedTransactions transactions newTransactions)
  ∧ (∀ t, t ∈ dedupedTransactions transactions newTransactions →
          createTransactionKey t ∉ createTransactionKey <$> transactions)
  ∧ (∀ t, t ∈ newTransactions →
          createTransactionKey t ∉ createTransactionKey <$> transactions →
          createTransactionKey t
          ∈ createTransactionKey
              <$> dedupedTransactions transactions newTransactions)
  ∧ dedupedTransactions transactions
      (dedupedTransactions transactions newTransactions)
    = dedupedTransactions transactions newTransactions.
Proof.
  assert (dedupedTransactions transactions newTransactions
          = first_occurrences createTransactionKey
              (createTransactionKey <$> transactions) [] newTransactions)
    as Hspec.
  { apply filter_new_first_occurrences. intros k.
    rewrite elem_of_list_to_set, fmap_nil, elem_of_nil. tauto. }
  unfold dedupedTransactions in *. split_and!.
  - exact Hspec.
  - intros Hold Hnew. rewrite Hspec.
    rewrite (list_fmap_ext createTransactionKey fingerprint transactions).
    2:{ intros i t Ht. apply createTransactionKey_finite.
        by apply (Forall_lookup_1 _ _ _ _ Hold Ht). }
    apply first_occurrences_ext. intros t [Ht|Ht]%elem_of_app.
    + by apply elem_of_nil in Ht.
    + apply createTransactionKey_finite.
      by apply (proj1 (Forall_forall _ _) Hnew).
  - apply filter_new_sublist.
  - apply filter_new_NoDup.
  - intros t [_ Hfresh]%filter_new_fresh. by rewrite elem_of_list_to_set in Hfresh.
  - intros t Ht Hfresh. apply filter_new_covers; [done|].
    by rewrite elem_of_list_to_set.
  - apply filter_new_id; [apply filter_new_NoDup|].
    by intros t [_ Hfresh]%filter_new_fresh.
Qed.
End DedupFacts.

Lemma dedup_filter_witness :
  Forall (λ t, isFinite (Transaction.amount t) = true) known_records
  ∧ Forall (λ t, isFinite (Transaction.amount t) = true) candidate_records
  ∧ @fingerprint example_host <$> known_records
    = ["2024-11-01|salary deposit|15000.00"]
  ∧ @dedupedTransactions example_host known_records candidate_records
    = [salary "c2" "2024-11-01" "Salary Deposit" (Dec 1500001 (-2))].
Proof.
  assert (Forall (λ t, isFinite (Transaction.amount t) = true) known_records)
    as Hknown by (repeat constructor).
  assert (Forall (λ t, isFinite (Transaction.amount t) = true)
            candidate_records) as Hnew by (repeat constructor).
  destruct (@dedup_filter example_host known_records candidate_records)
    as (_ & Hspec & _).
  split_and!; [exact Hknown|exact Hnew|vm_compute; reflexivity|].
  rewrite (Hspec Hknown Hnew). vm_compute. reflexivity.
Defined.

(** ** The rest of the hooks, and the components that use them *)

(** *** The children map *)

Lemma createChildrenMap_foldl (m0 : ChildrenMap) categories key :
  foldl (λ (map : ChildrenMap) category,
           let key := Category.parent_id category in
           let siblings := default [] (map !! key) in
           <[key := siblings ++ [category]]> map) m0 categories !! key
  = match filter (λ c, Category.parent_id c = key) categories with
    | [] => m0 !! key
    | l => Some (default [] (m0 !! key) ++ l)
    end.
Proof.
  revert m0. induction categories as [|c cs IH]; intros m0; [done|].
  cbn [foldl]. rewrite IH. rewrite filter_cons.
  destruct (decide (Category.parent_id c = key)) as [->|Hne].
  - rewrite lookup_insert_eq. cbn [default].
    destruct (filter _ cs) as [|x l]; [done|].
    f_equal. unfold id. by rewrite <- app_assoc.
  - by rewrite lookup_insert_ne.
Qed.

(** X1: the children map holds, under each key, the categories that have
    this parent, in the order of the collection, and it has no entry for a
    key that no category names as parent (the root key included). *)
Theorem children_map_groups (categories : list Category.t)
    (key : option string) :
  createChildrenMap categories !! key
  = match filter (λ c, Category.parent_id c = key) categories with
    | [] => None
    | siblings => Some siblings
    end.
Proof.
  unfold createChildrenMap. rewrite createChildrenMap_foldl.
  rewrite lookup_empty. by destruct (filter _ _).
Qed.

(** *** The values of the path map *)

Lemma has_path_in cats c p : has_path cats c p → c ∈ cats.
Proof. by destruct 1. Qed.

Lemma has_path_functional cats c p p' :
  unique_ids cats → has_path cats c p → has_path cats c p' → p = p'.
Proof.
  intros Hu Hp. revert p'.
  induction Hp as [c Hc Hr|c q pp Hc Hq Hpar _ IH]; intros p' Hp';
    inversion Hp' as [? ? Hr'|? q' pp' ? Hq' Hpar' Hpq']; subst;
    try congruence.
  assert (q' = q) as ->.
  { apply (unique_ids_eq cats); [done..|congruence]. }
  by rewrite (IH pp').
Qed.

Lemma has_path_reachable cats c p : has_path cats c p → reachable cats c.
Proof.
  induction 1 as [c Hc Hr|c q pp Hc Hq Hpar _ IH].
  - by apply reachable_root.
  - by eapply reachable_child.
Qed.

Lemma Forall2_fmap_eq {A B} (g : B → A) (l : list A) (ys : list B) :
  Forall2 (λ x y, g y = x) l ys → g <$> ys = l.
Proof. induction 1 as [|x y l ys Hxy _ IH]; [done|]. by rewrite fmap_cons, Hxy, IH. Qed.

Section PathValues.
Context `{Host}.

Lemma buildNode_has_path cats n c pp pm t pm' :
  c ∈ cats → has_path cats c (joinPath pp (Category.name c)) →
  buildNode n (createChildrenMap cats) c pp pm = Some (t, pm') →
  (∀ i p, pm !! i = Some p →
     ∃ x, x ∈ cats ∧ Category.id x = i ∧ has_path cats x p) →
  (∀ i p, pm' !! i = Some p →
     ∃ x, x ∈ cats ∧ Category.id x = i ∧ has_path cats x p).
Proof.
  revert c pp pm t pm'.
  induction n as [|n IH]; intros c pp pm t pm' Hc Hpath; [done|].
  simpl. destruct (map_st _ _ _) as [[ts s2]|] eqn:Hm; simpl; [|done].
  intros [= <- <-] Hpm.
  eapply (steps_preserve (λ pm : PathMap, ∀ i p, pm !! i = Some p →
            ∃ x, x ∈ cats ∧ Category.id x = i ∧ has_path cats x p)).
  - eapply map_st_steps; [|exact Hm].
    intros d s y s' [Hd Hp]%elem_of_sort_by%elem_of_children Hb. simpl in Hb.
    eapply IH; [exact Hd| |exact Hb].
    exact (has_path_child cats d c _ Hd Hc Hp Hpath).
  - intros i p. rewrite lookup_insert. case_decide; [|by apply Hpm].
    intros [= <-]. by exists c.
Qed.

Lemma buildTreeAndPaths_has_path fuel cats tree pm :
  buildTreeAndPaths fuel cats = Some (tree, pm) →
  ∀ i p, pm !! i = Some p →
    ∃ x, x ∈ cats ∧ Category.id x = i ∧ has_path cats x p.
Proof.
  intros Hb.
  eapply (steps_preserve (λ pm : PathMap, ∀ i p, pm !! i = Some p →
            ∃ x, x ∈ cats ∧ Category.id x = i ∧ has_path cats x p)).
  - eapply map_st_steps; [|exact Hb].
    intros d s y s' [Hd Hp]%elem_of_sort_by%elem_of_children Hbd.
    simpl in Hbd. eapply buildNode_has_path; [exact Hd| |exact Hbd].
    simpl. by apply has_path_root.
  - intros i p. by rewrite lookup_empty.
Qed.

(** With unique ids, the entry of a category is its full path. *)
Lemma pathMap_lookup fuel cats tree pm c p :
  unique_ids cats → buildTreeAndPaths fuel cats = Some (tree, pm) →
  c ∈ cats → pm !! Category.id c = Some p ↔ has_path cats c p.
Proof.
  intros Hu Hb Hc. split.
  - intros Hp.
    destruct (buildTreeAndPaths_has_path _ _ _ _ Hb _ _ Hp)
      as (x & Hx & Hid & Hpath).
    by rewrite <- (unique_ids_eq cats x c Hu Hx Hc Hid).
  - intros Hpath.
    assert (is_Some (pm !! Category.id c)) as [p' Hp'].
    { apply (pathMap_entry_iff _ _ _ _ _ Hb). exists c.
      split_and!; [done..|]. by eapply has_path_reachable. }
    rewrite Hp'. f_equal.
    destruct (buildTreeAndPaths_has_path _ _ _ _ Hb _ _ Hp')
      as (x & Hx & Hid & Hpath').
    rewrite (unique_ids_eq cats x c Hu Hx Hc Hid) in Hpath'.
    by eapply has_path_functional.
Qed.

(** X2: with unique ids, the path map gives a category without parent its
    own name, and a category whose parent has an entry the parent's path
    joined to its name; when no name is empty the two are separated by
    the arrow. *)
Theorem path_values (fuel : nat) (categories : list Category.t)
    (tree : list CategoryTreeNode) (pathMap : PathMap) :
  unique_ids categories →
  buildTreeAndPaths fuel categories = Some (tree, pathMap) →
  (∀ c, c ∈ categories → Category.parent_id c = None →
     pathMap !! Category.id c = Some (Category.name c))
  ∧ (∀ c p parentPath, c ∈ categories → p ∈ categories →
       Category.parent_id c = Some (Category.id p) →
       pathMap !! Category.id p = Some parentPath →
       pathMap !! Category.id c
       = Some (joinPath (Some parentPath) (Category.name c)))
  ∧ ((∀ c, c ∈ categories → Category.name c ≠ "") →
     ∀ c p parentPath, c ∈ categories → p ∈ categories →
       Category.parent_id c = Some (Category.id p) →
       pathMap !! Category.id p = Some parentPath →
       pathMap !! Category.id c
       = Some (parentPath +:+ " → " +:+ Category.name c)).
Proof.
  intros Hu Hb.
  assert (∀ c p parentPath, c ∈ categories → p ∈ categories →
       Category.parent_id c = Some (Category.id p) →
       pathMap !! Category.id p = Some parentPath →
       pathMap !! Category.id c
       = Some (joinPath (Some parentPath) (Category.name c))) as Hchild.
  { intros c p pp Hc Hp Hpar Hpp.
    apply (pathMap_lookup _ _ _ _ _ _ Hu Hb Hc).
    eapply has_path_child; [done..|].
    by apply (pathMap_lookup _ _ _ _ _ _ Hu Hb Hp). }
  split_and!; [|exact Hchild|].
  - intros c Hc Hroot. apply (pathMap_lookup _ _ _ _ _ _ Hu Hb Hc).
    by apply has_path_root.
  - intros Hnames c p pp Hc Hp Hpar Hpp.
    rewrite (Hchild c p pp Hc Hp Hpar Hpp). f_equal. unfold joinPath.
    assert (truthy pp = true) as ->; [|done].
    apply truthy_true.
    by eapply (buildTreeAndPaths_paths_nonempty _ _ _ _ Hnames Hb).
Qed.

(** *** The shape of the forest *)

Lemma buildNode_node n cm c pp pm t pm' :
  buildNode n cm c pp pm = Some (t, pm') →
  node_category t = c ∧ fullPath t = joinPath pp (Category.name c).
Proof.
  destruct n as [|n]; [done|]. simpl.
  destruct (map_st _ _ _) as [[ts s2]|]; simpl; [|done].
  by intros [= <- <-].
Qed.

Lemma buildNode_children n cm c pp pm t pm' :
  buildNode n cm c pp pm = Some (t, pm') →
  node_category <$> children t
  = sort_by by_name (children_of cm (Some (Category.id c)))
  ∧ Forall (λ child, fullPath child
              = joinPath (Some (fullPath t))
                  (Category.name (node_category child))) (children t).
Proof.
  destruct n as [|n]; [done|]. simpl.
  destruct (map_st _ _ _) as [[ts s2]|] eqn:Hm; simpl; [|done].
  intros [= <- <-]. simpl. apply map_st_outputs in Hm. split.
  - apply Forall2_fmap_eq. eapply Forall2_impl; [exact Hm|].
    intros d y (s1 & s3 & Hb). by apply buildNode_node in Hb as [-> _].
  - apply Forall_forall. intros y Hy.
    apply list_elem_of_lookup_1 in Hy as [i Hi].
    destruct (Forall2_lookup_r _ _ _ _ _ Hm Hi) as (d & Hd & s1 & s3 & Hb).
    by apply buildNode_node in Hb as [-> ->].
Qed.

Lemma nodes_unfold t : nodes t = t :: flat_map nodes (children t).
Proof. by destruct t. Qed.

(** Every node of a subtree was built by [buildNode] for its category. *)
Lemma buildNode_nodes cats n c pp pm t pm' t' :
  c ∈ cats →
  buildNode n (createChildrenMap cats) c pp pm = Some (t, pm') →
  t' ∈ nodes t →
  ∃ m pp' s s', node_category t' ∈ cats
    ∧ buildNode m (createChildrenMap cats) (node_category t') pp' s
      = Some (t', s')
    ∧ (has_path cats c (joinPath pp (Category.name c)) →
       has_path cats (node_category t') (fullPath t')).
Proof.
  revert c pp pm t pm'.
  induction n as [|n IH]; intros c pp pm t pm' Hc Hb; [done|].
  rewrite nodes_unfold, elem_of_cons, elem_of_flat_map.
  intros [->|(child & Hchild & Hin)].
  - destruct (buildNode_node _ _ _ _ _ _ _ Hb) as [Hcat Hfp].
    exists (S n), pp, pm, pm'. rewrite Hcat, Hfp. done.
  - simpl in Hb.
    destruct (map_st _ _ _) as [[ts s2]|] eqn:Hm; simpl in Hb; [|done].
    injection Hb as <- <-. simpl in Hchild.
    apply map_st_outputs in Hm.
    apply list_elem_of_lookup_1 in Hchild as [i Hi].
    destruct (Forall2_lookup_r _ _ _ _ _ Hm Hi) as (d & Hd & s1 & s3 & Hbd).
    apply list_elem_of_lookup_2, elem_of_sort_by, elem_of_children in Hd
      as [Hd Hp].
    destruct (IH _ _ _ _ _ Hd Hbd Hin) as (m & pp' & s & s' & Hcat & Hb' & Hpath).
    exists m, pp', s, s'. split_and!; [done..|].
    intros Hcpath. apply Hpath.
    exact (has_path_child cats d c _ Hd Hc Hp Hcpath).
Qed.

Lemma buildTreeAndPaths_tree_nodes fuel cats tree pm t' :
  buildTreeAndPaths fuel cats = Some (tree, pm) →
  t' ∈ flat_map nodes tree →
  ∃ m pp' s s', node_category t' ∈ cats
    ∧ buildNode m (createChildrenMap cats) (node_category t') pp' s
      = Some (t', s')
    ∧ has_path cats (node_category t') (fullPath t').
Proof.
  unfold buildTreeAndPaths. intros Hm (t & Ht & Hin)%elem_of_flat_map.
  apply map_st_outputs in Hm.
  apply list_elem_of_lookup_1 in Ht as [i Hi].
  destruct (Forall2_lookup_r _ _ _ _ _ Hm Hi) as (r & Hr & s1 & s3 & Hb).
  apply list_elem_of_lookup_2, elem_of_sort_by, elem_of_children in Hr
    as [Hr Hp].
  destruct (buildNode_nodes _ _ _ _ _ _ _ _ Hr Hb Hin)
    as (m & pp' & s & s' & Hcat & Hb' & Hpath).
  exists m, pp', s, s'. split_and!; [done..|].
  apply Hpath. simpl. by apply has_path_root.
Qed.

(** X3: the forest mirrors the parent links: its roots are the categories
    without parent, sorted by name, each with its name as full path; the
    children of every node are the categories that name the node's id as
    parent, sorted by name, each with the node's path joined to its own
    name as full path; and with unique ids the path map holds, under the
    id of every node, the node's full path. *)
Theorem forest_structure (fuel : nat) (categories : list Category.t)
    (tree : list CategoryTreeNode) (pathMap : PathMap) :
  buildTreeAndPaths fuel categories = Some (tree, pathMap) →
  node_category <$> tree
  = sort_by by_name (filter (λ c, Category.parent_id c = None) categories)
  ∧ Forall (λ root, fullPath root = Category.name (node_category root)) tree
  ∧ ∀ t, t ∈ flat_map nodes tree →
      node_category t ∈ categories
      ∧ node_category <$> children t
        = sort_by by_name
            (filter (λ c, Category.parent_id c
                          = Some (Category.id (node_category t))) categories)
      ∧ Forall (λ child, fullPath child
                  = joinPath (Some (fullPath t))
                      (Category.name (node_category child))) (children t)
      ∧ (unique_ids categories →
         pathMap !! Category.id (node_category t) = Some (fullPath t)).
Proof.
  intros Hb. split_and!.
  - transitivity (sort_by by_name
                    (children_of (createChildrenMap categories) None)).
    + apply Forall2_fmap_eq.
      unfold buildTreeAndPaths in Hb. apply map_st_outputs in Hb.
      eapply Forall2_impl; [exact Hb|].
      intros d y (s1 & s3 & Hbd). by apply buildNode_node in Hbd as [-> _].
    + rewrite children_of_create. f_equal. by apply list_filter_iff.
  - apply Forall_forall. intros y Hy.
    pose proof Hb as Hm. unfold buildTreeAndPaths in Hm.
    apply map_st_outputs in Hm.
    apply list_elem_of_lookup_1 in Hy as [i Hi].
    destruct (Forall2_lookup_r _ _ _ _ _ Hm Hi) as (d & Hd & s1 & s3 & Hbd).
    by apply buildNode_node in Hbd as [-> ->].
  - intros t Ht.
    destruct (buildTreeAndPaths_tree_nodes _ _ _ _ _ Hb Ht)
      as (m & pp' & s & s' & Hcat & Hb' & Hpath).
    destruct (buildNode_children _ _ _ _ _ _ _ Hb') as [Hch Hfp].
    split_and!; [done| |done|].
    + by rewrite Hch, children_of_create.
    + intros Hu. by apply (pathMap_lookup _ _ _ _ _ _ Hu Hb Hcat).
Qed.
End PathValues.

Lemma transport_build :
  @buildTreeAndPaths example_host 4 transport_example
  = Some (transport_tree, pathMap transport_view).
Proof. vm_compute. reflexivity. Qed.

Lemma path_values_witness :
  unique_ids transport_example
  ∧ pathMap transport_view !! "f" = Some "Transport → Fuel".
Proof.
  split; [exact transport_example_unique|].
  destruct (@path_values example_host 4 transport_example transport_tree
              (pathMap transport_view) transport_example_unique
              transport_build) as (_ & _ & Hchild).
  apply (Hchild transport_names (Category.mk "f" "Fuel" (Some "t") false)
           (Category.mk "t" "Transport" None false) "Transport").
  - by_evaluation.
  - by_evaluation.
  - reflexivity.
  - vm_compute. reflexivity.
Defined.

Lemma forest_structure_witness :
  node_category <$> transport_tree
  = [Category.mk "t" "Transport" None false;
     Category.mk "u" "Uncategorized" None true].
Proof.
  destruct (@forest_structure example_host 4 transport_example transport_tree
              (pathMap transport_view) transport_build) as (Hroots & _).
  rewrite Hroots. vm_compute. reflexivity.
Defined.

(** *** The order of siblings *)

Lemma sort_insert_Sorted {A} (cmp : A → A → comparison) x l :
  (∀ a b, cmp a b = Gt → cmp b a ≠ Gt) →
  Sorted (λ a b, cmp a b ≠ Gt) l →
  Sorted (λ a b, cmp a b ≠ Gt) (sort_insert cmp x l).
Proof.
  intros Hasym. induction l as [|y l IH]; intros Hl; simpl.
  - by repeat constructor.
  - apply Sorted_inv in Hl as [Hl Hy].
    destruct (cmp x y) eqn:Hxy.
    + constructor; [by constructor|]. constructor. congruence.
    + constructor; [by constructor|]. constructor. congruence.
    + constructor; [by apply IH|].
      destruct l as [|z l]; simpl.
      * constructor. by apply Hasym.
      * apply HdRel_inv in Hy.
        destruct (cmp x z); constructor; try done; by apply Hasym.
Qed.

Lemma sort_by_Sorted {A} (cmp : A → A → comparison) l :
  (∀ a b, cmp a b = Gt → cmp b a ≠ Gt) →
  Sorted (λ a b, cmp a b ≠ Gt) (sort_by cmp l).
Proof.
  intros Hasym. induction l as [|x l IH]; simpl; [constructor|].
  by apply sort_insert_Sorted.
Qed.

(** X4: at every level of the forest the siblings are in ascending order
    of their names, for every collation in which two names are never each
    greater than the other. *)
Theorem sibling_order `{Host} (fuel : nat) (categories : list Category.t)
    (tree : list CategoryTreeNode) (pathMap : PathMap) :
  (∀ a b, localeCompare a b = Gt → localeCompare b a ≠ Gt) →
  buildTreeAndPaths fuel categories = Some (tree, pathMap) →
  Sorted (λ a b, localeCompare (Category.name a) (Category.name b) ≠ Gt)
    (node_category <$> tree)
  ∧ ∀ t, t ∈ flat_map nodes tree →
      Sorted (λ a b, localeCompare (Category.name a) (Category.name b) ≠ Gt)
        (node_category <$> children t).
Proof.
  intros Hasym Hb.
  assert (∀ l, Sorted (λ a b, localeCompare (Category.name a)
                                (Category.name b) ≠ Gt)
                 (sort_by by_name l)) as Hsorted.
  { intros l. apply (sort_by_Sorted by_name). intros a b. apply Hasym. }
  split.
  - assert (node_category <$> tree
            = sort_by by_name
                (children_of (createChildrenMap categories) None)) as ->;
      [|apply Hsorted].
    apply Forall2_fmap_eq.
    unfold buildTreeAndPaths in Hb. apply map_st_outputs in Hb.
    eapply Forall2_impl; [exact Hb|].
    intros d y (s1 & s3 & Hbd). by apply buildNode_node in Hbd as [-> _].
  - intros t Ht.
    destruct (buildTreeAndPaths_tree_nodes _ _ _ _ _ Hb Ht)
      as (m & pp' & s & s' & _ & Hb' & _).
    destruct (buildNode_children _ _ _ _ _ _ _ Hb') as [-> _].
    apply Hsorted.
Qed.

Lemma compare_asymmetric (a b : string) :
  String.compare a b = Gt → String.compare b a ≠ Gt.
Proof. rewrite (String.compare_antisym b a). by intros ->. Qed.

Lemma sibling_order_witness :
  Sorted (λ a b, String.compare (Category.name a) (Category.name b) ≠ Gt)
    (node_category <$> transport_tree).
Proof.
  exact (proj1 (@sibling_order example_host 4 transport_example
                  transport_tree (pathMap transport_view)
                  compare_asymmetric transport_build)).
Defined.

(** *** The entries of the descendant map *)

(** X5: when the descendant map is returned, the collection has no parent
    cycle, the map has one entry per id of the collection, and the entry of
    an id lists the ids of its descendants and nothing else, so never the
    id itself. *)
Theorem descendants_map_entries (fuel : nat) (categories : list Category.t)
    (descendantsMap : DescendantsMap) :
  buildDescendantsMap fuel categories = Some descendantsMap →
  acyclic categories
  ∧ (∀ i, is_Some (descendantsMap !! i) ↔ i ∈ Category.id <$> categories)
  ∧ (∀ i l, descendantsMap !! i = Some l →
       (∀ d, d ∈ l ↔ descendant_of categories i d) ∧ i ∉ l).
Proof.
  intros Hb.
  assert (acyclic categories) as Hacyclic.
  { apply (buildDescendantsMap_acyclic fuel). by rewrite Hb. }
  pose proof (buildDescendantsMap_lookup _ _ _ Hb) as Hlookup.
  split_and!; [done| |].
  - intros i. rewrite Hlookup. case_decide as Hi; [|by rewrite is_Some_alt].
    split; [done|intros _].
    apply list_elem_of_fmap in Hi as (c & -> & Hc).
    unfold buildDescendantsMap in Hb.
    by eapply foldl_descendants_Some_inv.
  - intros i l. rewrite Hlookup. case_decide; [|done]. intros Hl.
    pose proof (collectDescendants_spec _ _ _ _ Hl) as Hspec.
    split; [done|]. intros Hin%Hspec. by apply (Hacyclic i).
Qed.

Lemma transport_descendants_build :
  buildDescendantsMap 4 transport_example = Some transport_descendants.
Proof. vm_compute. reflexivity. Qed.

Lemma descendants_map_entries_witness :
  acyclic transport_example
  ∧ (is_Some (transport_descendants !! "t") ↔
     "t" ∈ Category.id <$> transport_example).
Proof.
  destruct (descendants_map_entries 4 transport_example
              transport_descendants transport_descendants_build)
    as (Hacyclic & Hkeys & _).
  split; [exact Hacyclic|exact (Hkeys "t")].
Defined.

(** *** The option list *)

Lemma sort_insert_systems_first `{Host} x l :
  StronglySorted (λ a b, opt_isSystem b = true → opt_isSystem a = true) l →
  StronglySorted (λ a b, opt_isSystem b = true → opt_isSystem a = true)
    (sort_insert option_order x l).
Proof.
  induction l as [|y l IH]; intros Hl; simpl.
  - by repeat constructor.
  - apply StronglySorted_inv in Hl as [Hl Hy].
    assert (option_order x y ≠ Gt →
            StronglySorted
              (λ a b, opt_isSystem b = true → opt_isSystem a = true)
              (x :: y :: l)) as Hfront.
    { intros Hxy.
      assert (opt_isSystem y = true → opt_isSystem x = true) as Hyx.
      { intros Hsy. unfold option_order in Hxy. rewrite Hsy in Hxy.
        destruct (opt_isSystem x); [done|]. by simpl in Hxy. }
      constructor; [by constructor|]. constructor; [done|].
      eapply Forall_impl; [exact Hy|]. simpl. auto. }
    destruct (option_order x y) eqn:Hxy; [by apply Hfront..|].
    constructor; [by apply IH|].
    rewrite (sort_insert_perm option_order x l). constructor; [|done].
    unfold option_order in Hxy.
    destruct (opt_isSystem x), (opt_isSystem y); simpl in Hxy; done.
Qed.

Lemma sort_by_systems_first `{Host} l :
  StronglySorted (λ a b, opt_isSystem b = true → opt_isSystem a = true)
    (sort_by option_order l).
Proof.
  induction l as [|x l IH]; simpl; [constructor|].
  by apply sort_insert_systems_first.
Qed.

Lemma StronglySorted_lookup_lt {A} (R : A → A → Prop) l i j a b :
  StronglySorted R l → i < j → l !! i = Some a → l !! j = Some b → R a b.
Proof.
  intros Hl. revert i j. induction Hl as [|x l Hl IH Hx]; intros i j Hij.
  - by rewrite lookup_nil.
  - destruct j as [|j]; [lia|]. destruct i as [|i]; simpl.
    + intros [= <-] Hb. rewrite Forall_forall in Hx. apply Hx.
      by eapply list_elem_of_lookup_2.
    + apply IH. lia.
Qed.

(** X6: the option list is never empty: for an empty collection it is the
    placeholder option, otherwise it holds one option per category, with
    the category's path (or bare name) as label; and no option of a
    category that is not a system category comes before the option of a
    system category, whatever the collation. *)
Theorem category_options_shape `{Host} (view : View) :
  categoryOptions view ≠ []
  ∧ (categories view = [] →
     categoryOptions view
     = [mkOption "system-uncategorized" SYSTEM_CATEGORY_NAME true])
  ∧ (categories view ≠ [] →
     categoryOptions view
     ≡ₚ (λ category,
           mkOption (Category.id category)
             (default (Category.name category)
                (pathMap view !! Category.id category))
             (Category.is_system category)) <$> categories view)
  ∧ (∀ i j a b, i < j →
       categoryOptions view !! i = Some a →
       categoryOptions view !! j = Some b →
       opt_isSystem b = true → opt_isSystem a = true).
Proof.
  unfold categoryOptions. destruct (categories view) as [|c cs] eqn:Hcs.
  - split_and!; [done..|].
    intros i j a b Hij. destruct j as [|j]; [lia|]. by destruct i.
  - split_and!; [|done| |].
    + intros Hnil.
      pose proof (sort_by_perm option_order
                    ((λ category,
                        mkOption (Category.id category)
                          (default (Category.name category)
                             (pathMap view !! Category.id category))
                          (Category.is_system category)) <$> c :: cs))
        as Hperm.
      rewrite Hnil in Hperm. by apply Permutation_nil_cons in Hperm.
    + intros _. apply sort_by_perm.
    + intros i j a b Hij Ha Hb.
      exact (StronglySorted_lookup_lt _ _ i j a b
               (sort_by_systems_first _) Hij Ha Hb).
Qed.

Lemma category_options_shape_witness :
  categories transport_view ≠ []
  ∧ length (@categoryOptions example_host transport_view) = 3.
Proof.
  split; [done|].
  destruct (@category_options_shape example_host transport_view)
    as (_ & _ & Hperm & _).
  rewrite (Hperm ltac:(done)). reflexivity.
Defined.

(** *** Looking up a full path *)

(** X7: for the id of a category that is reachable from a root,
    [getCategoryFullPath] returns the label under which the option list
    offers the category; for a category that is not reachable it returns
    the system name while the option list shows the bare name; for an id
    that is not in the collection it returns the system name; and without
    an id it returns the name of the first system category when that one
    is a root, and the system name when there is none. *)
Theorem full_path_lookup `{Host} (fuel : nat) (categories : list Category.t)
    (view : View) :
  render fuel categories = Some view → unique_ids categories →
  (∀ c, c ∈ categories → Category.id c ≠ "" → reachable categories c →
     mkOption (Category.id c)
       (getCategoryFullPath view (Some (Category.id c)))
       (Category.is_system c) ∈ categoryOptions view)
  ∧ (∀ c, c ∈ categories → Category.id c ≠ "" → ¬ reachable categories c →
       getCategoryFullPath view (Some (Category.id c)) = SYSTEM_CATEGORY_NAME
       ∧ mkOption (Category.id c) (Category.name c) (Category.is_system c)
         ∈ categoryOptions view)
  ∧ (∀ i, i ≠ "" → i ∉ Category.id <$> categories →
       getCategoryFullPath view (Some i) = SYSTEM_CATEGORY_NAME)
  ∧ (∀ system, systemCategory categories = Some system →
       Category.parent_id system = None →
       getCategoryFullPath view None = Category.name system
       ∧ getCategoryFullPath view (Some "") = Category.name system)
  ∧ (systemCategory categories = None →
     getCategoryFullPath view None = SYSTEM_CATEGORY_NAME
     ∧ getCategoryFullPath view (Some "") = SYSTEM_CATEGORY_NAME).
Proof.
  intros Hrender Hu.
  destruct (render_inv _ _ _ Hrender) as (Hcats & [tree Hb] & _).
  assert (∀ c, c ∈ categories →
            mkOption (Category.id c)
              (default (Category.name c) (pathMap view !! Category.id c))
              (Category.is_system c) ∈ categoryOptions view) as Hoption.
  { intros c Hc. unfold categoryOptions. rewrite Hcats.
    destruct categories as [|c0 cs] eqn:Heq; [by apply elem_of_nil in Hc|].
    apply elem_of_sort_by.
    by apply (list_elem_of_fmap_2
      (λ category,
         mkOption (Category.id category)
           (default (Category.name category)
              (pathMap view !! Category.id category))
           (Category.is_system category))). }
  assert (∀ c, c ∈ categories → ¬ reachable categories c →
            pathMap view !! Category.id c = None) as Hmissing.
  { intros c Hc Hnot. apply eq_None_not_Some. intros Hsome.
    apply (pathMap_entry_iff _ _ _ _ _ Hb) in Hsome as (x & Hx & Hid & Hr).
    by rewrite (unique_ids_eq categories x c Hu Hx Hc Hid) in Hr. }
  split_and!.
  - intros c Hc Hid Hr. unfold getCategoryFullPath.
    apply truthy_true in Hid. rewrite Hid.
    assert (is_Some (pathMap view !! Category.id c)) as [p Hp].
    { apply (pathMap_entry_iff _ _ _ _ _ Hb). by exists c. }
    specialize (Hoption c Hc). rewrite Hp in Hoption. by rewrite Hp.
  - intros c Hc Hid Hnot. specialize (Hoption c Hc).
    rewrite (Hmissing c Hc Hnot) in Hoption. split; [|done].
    unfold getCategoryFullPath. apply truthy_true in Hid. rewrite Hid.
    by rewrite (Hmissing c Hc Hnot).
  - intros i Hi Hnotin. unfold getCategoryFullPath.
    apply truthy_true in Hi. rewrite Hi.
    assert (pathMap view !! i = None) as ->; [|done].
    apply eq_None_not_Some. intros Hsome.
    apply (pathMap_entry_iff _ _ _ _ _ Hb) in Hsome as (x & Hx & Hid & _).
    apply Hnotin. rewrite <- Hid. by apply list_elem_of_fmap_2.
  - intros system Hsys Hroot. unfold getCategoryFullPath. simpl.
    rewrite Hcats, Hsys.
    assert (system ∈ categories) as Hin.
    { unfold systemCategory in Hsys. apply find_some in Hsys as [Hin _].
      by apply list_elem_of_In. }
    assert (pathMap view !! Category.id system
            = Some (Category.name system)) as ->; [|done].
    apply (pathMap_lookup _ _ _ _ _ _ Hu Hb Hin). by apply has_path_root.
  - intros Hnone. unfold getCategoryFullPath. simpl.
    by rewrite Hcats, Hnone.
Qed.

Lemma full_path_lookup_witness :
  @getCategoryFullPath transport_view (Some "f") = "Transport → Fuel"
  ∧ mkOption "f" "Transport → Fuel" false
    ∈ @categoryOptions example_host transport_view
  ∧ getCategoryFullPath transport_view None = "Uncategorized".
Proof.
  destruct (@full_path_lookup example_host 4 transport_example transport_view
              transport_render transport_example_unique)
    as (Hoption & _ & _ & Hsystem & _).
  split_and!.
  - vm_compute. reflexivity.
  - apply (Hoption (Category.mk "f" "Fuel" (Some "t") false)).
    + by_evaluation.
    + done.
    + eapply (reachable_child transport_example _
                (Category.mk "t" "Transport" None false)).
      * by_evaluation.
      * by_evaluation.
      * reflexivity.
      * apply reachable_root; [by_evaluation|reflexivity].
  - apply (Hsystem (Category.mk "u" "Uncategorized" None true));
      reflexivity.
Defined.

(** *** Trimming *)

Lemma concat_chars_go current s :
  concat_strings (chars_go current s) = current +:+ s.
Proof.
  revert current. induction s as [|b s IH]; intros current; simpl.
  - by rewrite string_app_nil_r.
  - destruct (is_continuation b).
    + rewrite IH, string_app_assoc. by rewrite string_app_cons, string_app_nil_l.
    + rewrite concat_strings_cons, IH.
      by rewrite string_app_cons, string_app_nil_l.
Qed.

Lemma concat_chars s : concat_strings (chars s) = s.
Proof.
  destruct s as [|b s]; [done|]. simpl. rewrite concat_chars_go.
  by rewrite string_app_cons, string_app_nil_l.
Qed.

Lemma drop_while_suffix {A} (p : A → bool) l :
  ∃ k, l = k ++ drop_while p l.
Proof.
  induction l as [|x l [k IH]]; [by exists []|]. simpl.
  destruct (p x); [|by exists []]. exists (x :: k). simpl. by f_equal.
Qed.

Lemma drop_while_head {A} (p : A → bool) l x :
  head (drop_while p l) = Some x → p x = false.
Proof.
  induction l as [|y l IH]; [done|]. simpl.
  destruct (p y) eqn:Hy; [done|]. simpl. by intros [= <-].
Qed.

Lemma drop_while_id {A} (p : A → bool) l :
  (∀ x, head l = Some x → p x = false) → drop_while p l = l.
Proof. destruct l as [|y l]; [done|]. simpl. intros Hy. by rewrite Hy. Qed.

Lemma drop_while_snoc {A} (p : A → bool) l x :
  p x = false → drop_while p (l ++ [x]) = drop_while p l ++ [x].
Proof.
  intros Hx. induction l as [|y l IH]; simpl; [by rewrite Hx|].
  by destruct (p y).
Qed.

Lemma strip_ends_prefix l :
  ∃ k j, l = k ++ strip_ends l ++ j.
Proof.
  unfold strip_ends.
  destruct (drop_while_suffix (in_class white_space) l) as [k Hk].
  destruct (drop_while_suffix (in_class white_space)
              (rev (drop_while (in_class white_space) l))) as [j Hj].
  exists k, (rev j). rewrite <- rev_app_distr, <- Hj, rev_involutive. done.
Qed.

Lemma strip_ends_head l x :
  head (strip_ends l) = Some x → in_class white_space x = false.
Proof.
  unfold strip_ends.
  destruct (drop_while (in_class white_space) l) as [|y m] eqn:Hm; [done|].
  assert (in_class white_space y = false) as Hy.
  { apply (drop_while_head _ l). by rewrite Hm. }
  simpl. rewrite drop_while_snoc by done.
  rewrite rev_app_distr. simpl. by intros [= <-].
Qed.

Lemma strip_ends_last l x :
  head (rev (strip_ends l)) = Some x → in_class white_space x = false.
Proof. unfold strip_ends. rewrite rev_involutive. apply drop_while_head. Qed.

Lemma strip_ends_id l :
  (∀ x, head l = Some x → in_class white_space x = false) →
  (∀ x, head (rev l) = Some x → in_class white_space x = false) →
  strip_ends l = l.
Proof.
  intros Hhead Hlast. unfold strip_ends.
  rewrite (drop_while_id _ l) by done.
  rewrite (drop_while_id _ (rev l)) by done. apply rev_involutive.
Qed.

Lemma strip_ends_idempotent l : strip_ends (strip_ends l) = strip_ends l.
Proof. apply strip_ends_id; [apply strip_ends_head|apply strip_ends_last]. Qed.

Lemma shape_infix k l j :
  Forall unit_shape (k ++ l ++ j) → Forall lead_ok (tail (k ++ l ++ j)) →
  Forall unit_shape l ∧ Forall lead_ok (tail l).
Proof.
  intros Hu Hl. split.
  - by apply Forall_app in Hu as [_ [Hu _]%Forall_app].
  - destruct l as [|x l]; [constructor|]. simpl.
    destruct k as [|y k]; simpl in Hl.
    + by apply Forall_app in Hl as [Hl _].
    + apply Forall_app in Hl as [_ Hl]. apply Forall_cons in Hl as [_ Hl].
      by apply Forall_app in Hl as [Hl _].
Qed.

Lemma drop_while_app_r {A} (p : A → bool) l :
  ∃ k, l = k ++ drop_while p l ++ [].
Proof.
  destruct (drop_while_suffix p l) as [k Hk]. exists k.
  by rewrite app_nil_r.
Qed.

Lemma chars_trimStart s :
  chars (trimStart s) = drop_while (in_class white_space) (chars s).
Proof.
  unfold trimStart.
  destruct (drop_while_app_r (in_class white_space) (chars s)) as [k Hk].
  destruct (chars_shape s) as [Hu Hl]. rewrite Hk in Hu, Hl.
  destruct (shape_infix _ _ _ Hu Hl). by apply chars_concat.
Qed.

Lemma chars_trim s : chars (trim s) = strip_ends (chars s).
Proof.
  unfold trim, trimEnd. rewrite chars_trimStart. fold (strip_ends (chars s)).
  destruct (strip_ends_prefix (chars s)) as (k & j & Hk).
  destruct (chars_shape s) as [Hu Hl]. rewrite Hk in Hu, Hl.
  destruct (shape_infix _ _ _ Hu Hl). by apply chars_concat.
Qed.

Lemma trim_strip_ends s : trim s = concat_strings (strip_ends (chars s)).
Proof. by rewrite <- chars_trim, concat_chars. Qed.

Lemma trim_idempotent s : trim (trim s) = trim s.
Proof.
  rewrite (trim_strip_ends (trim s)), chars_trim, strip_ends_idempotent.
  by rewrite <- trim_strip_ends.
Qed.

Lemma free_of_app c s t : free_of c (s +:+ t) ↔ free_of c s ∧ free_of c t.
Proof. unfold free_of. rewrite all_chars_app. apply andb_true_iff. Qed.

Lemma free_of_concat c l :
  free_of c (concat_strings l) ↔ Forall (free_of c) l.
Proof.
  induction l as [|s l IH]; simpl.
  - split; [constructor|done].
  - fold (concat_strings l). rewrite free_of_app, Forall_cons. by rewrite IH.
Qed.

Lemma free_of_trim c s : free_of c s → free_of c (trim s).
Proof.
  intros Hs. rewrite trim_strip_ends. apply free_of_concat.
  rewrite <- (concat_chars s) in Hs. apply free_of_concat in Hs.
  destruct (strip_ends_prefix (chars s)) as (k & j & Hk). rewrite Hk in Hs.
  by apply Forall_app in Hs as [_ [Hs _]%Forall_app].
Qed.

Lemma trim_blank s :
  Forall (λ ch, in_class white_space ch = true) (chars s) → trim s = "".
Proof.
  intros Hws. rewrite trim_strip_ends. unfold strip_ends.
  assert (drop_while (in_class white_space) (chars s) = []) as ->; [|done].
  induction Hws as [|x l Hx _ IH]; [done|]. simpl. by rewrite Hx.
Qed.

(** *** The tokenizer *)

Lemma free_of_cons c b s : free_of c (String b s) ↔ b ≠ c ∧ free_of c s.
Proof.
  unfold free_of. simpl. rewrite andb_true_iff, negb_true_iff.
  by rewrite bool_decide_eq_false.
Qed.

Lemma free_of_nil c : free_of c "".
Proof. done. Qed.

Lemma string_app_snoc s c t : (s +:+ String c "") +:+ t = s +:+ String c t.
Proof. by rewrite string_app_assoc, string_app_cons, string_app_nil_l. Qed.

Lemma parseCSVLine_go_plain a rest current inQuotes :
  free_of "034"%char a → inQuotes = true ∨ free_of ","%char a →
  parseCSVLine_go (a +:+ rest) current inQuotes
  = parseCSVLine_go rest (current +:+ a) inQuotes.
Proof.
  revert current. induction a as [|c a IH]; intros current Hq Hc.
  - by rewrite string_app_nil_l, string_app_nil_r.
  - apply free_of_cons in Hq as [Hcq Hq].
    rewrite string_app_cons. cbn [parseCSVLine_go].
    rewrite (bool_decide_eq_false_2 _ Hcq).
    assert (bool_decide (c = ","%char) && negb inQuotes = false) as ->.
    { destruct Hc as [->|[Hcc _]%free_of_cons].
      - apply andb_false_r.
      - by rewrite (bool_decide_eq_false_2 _ Hcc). }
    rewrite IH; [by rewrite string_app_snoc|done|].
    destruct Hc as [->|[_ Hc]%free_of_cons]; auto.
Qed.

Lemma parseCSVLine_go_escaped d rest current :
  parseCSVLine_go (escape_quotes d +:+ rest) current true
  = parseCSVLine_go rest (current +:+ strip_quotes d) true.
Proof.
  revert current. induction d as [|c d IH]; intros current.
  - simpl. by rewrite string_app_nil_l, string_app_nil_r.
  - cbn [escape_quotes strip_quotes]. case_bool_decide as Hc.
    + subst c. rewrite !string_app_cons. cbn [parseCSVLine_go].
      rewrite !bool_decide_eq_true_2 by done. simpl. apply IH.
    + rewrite string_app_cons. cbn [parseCSVLine_go].
      rewrite (bool_decide_eq_false_2 _ Hc), andb_false_r.
      by rewrite IH, string_app_snoc.
Qed.

Lemma join_with_cons sep f g l :
  join_with sep (f :: g :: l) = f +:+ sep +:+ join_with sep (g :: l).
Proof. done. Qed.

Lemma parseCSVLine_go_comma rest current :
  parseCSVLine_go ("," +:+ rest) current false
  = trim current :: parseCSVLine_go rest "" false.
Proof. done. Qed.

Lemma parseCSVLine_go_quote rest current inQuotes :
  parseCSVLine_go (String "034"%char rest) current inQuotes
  = parseCSVLine_go rest current (negb inQuotes).
Proof. done. Qed.

Lemma parseCSVLine_go_fields field fields current :
  Forall (λ f, free_of "034"%char f ∧ free_of ","%char f) (field :: fields) →
  parseCSVLine_go (join_with "," (field :: fields)) current false
  = trim (current +:+ field) :: (trim <$> fields).
Proof.
  revert field current.
  induction fields as [|g fields IH]; intros field current Hplain.
  - apply Forall_cons in Hplain as [[Hq Hc] _]. simpl.
    rewrite <- (string_app_nil_r field) at 1.
    by rewrite parseCSVLine_go_plain by auto.
  - apply Forall_cons in Hplain as [[Hq Hc] Hrest].
    rewrite join_with_cons, parseCSVLine_go_plain by auto.
    rewrite parseCSVLine_go_comma, (IH g "" Hrest).
    by rewrite string_app_nil_l.
Qed.

(** X8: a line made of fields that hold neither a double quote nor a
    comma, joined by commas, is split into exactly these fields, each
    trimmed. *)
Theorem tokenizer_plain_fields (field : string) (fields : list string) :
  Forall (λ f, free_of "034"%char f ∧ free_of ","%char f) (field :: fields) →
  parseCSVLine (join_with "," (field :: fields)) = trim <$> (field :: fields).
Proof.
  intros Hplain. unfold parseCSVLine.
  rewrite (parseCSVLine_go_fields _ _ _ Hplain).
  by rewrite string_app_nil_l.
Qed.

Lemma tokenizer_plain_fields_witness :
  parseCSVLine "2024-11-01, Groceries ,850.50"
  = ["2024-11-01"; "Groceries"; "850.50"].
Proof.
  apply (tokenizer_plain_fields "2024-11-01" [" Groceries "; "850.50"]).
  repeat constructor.
Defined.

Lemma strip_quotes_free s : free_of "034"%char s → strip_quotes s = s.
Proof.
  induction s as [|c s IH]; [done|]. intros [Hc Hs]%free_of_cons. simpl.
  by rewrite (bool_decide_eq_false_2 _ Hc), IH.
Qed.

(** X9: the tokenizer reads back a row written by the export: when the
    date, the category and the two formatted amounts hold neither a double
    quote nor a comma, the row has five fields; the second is the
    description without its double quotes and trimmed, whatever commas and
    double quotes the description holds, and it is the description itself
    when that one has no double quote and no white space at its ends. *)
Theorem export_row_read_back `{Host} (t : Transaction.t) :
  Forall (λ f, free_of "034"%char f ∧ free_of ","%char f)
    [ Transaction.date t; Transaction.category t;
      toFixed2 (Transaction.amount t);
      export_balance (Transaction.balance t) ] →
  parseCSVLine (export_row t)
  = [ trim (Transaction.date t);
      trim (strip_quotes (Transaction.description t));
      trim (Transaction.category t);
      trim (toFixed2 (Transaction.amount t));
      trim (export_balance (Transaction.balance t)) ]
  ∧ (free_of "034"%char (Transaction.description t) →
     trim (Transaction.description t) = Transaction.description t →
     parseCSVLine (export_row t) !! 1 = Some (Transaction.description t)).
Proof.
  intros Hplain.
  apply Forall_cons in Hplain as [[Hdq Hdc] Hplain].
  assert (parseCSVLine (export_row t)
          = [ trim (Transaction.date t);
              trim (strip_quotes (Transaction.description t));
              trim (Transaction.category t);
              trim (toFixed2 (Transaction.amount t));
              trim (export_balance (Transaction.balance t)) ]) as Hrow.
  { unfold parseCSVLine, export_row.
    rewrite join_with_cons, parseCSVLine_go_plain by auto.
    rewrite parseCSVLine_go_comma, join_with_cons.
    rewrite string_app_cons, parseCSVLine_go_quote. simpl negb.
    rewrite string_app_assoc, parseCSVLine_go_escaped.
    rewrite string_app_cons, parseCSVLine_go_quote. simpl negb.
    rewrite !string_app_nil_l, parseCSVLine_go_comma.
    by rewrite (parseCSVLine_go_fields _ _ _ Hplain), !string_app_nil_l. }
  split; [done|]. intros Hq Htrim.
  by rewrite Hrow, (strip_quotes_free _ Hq), Htrim.
Qed.

Lemma export_row_read_back_witness :
  parseCSVLine (@export_row example_host coffee)
  = ["2024-11-03"; "Coffee, to go"; "Dining"; "-45.50"; "1200.00"].
Proof.
  destruct (@export_row_read_back example_host coffee) as [Hrow _].
  - repeat constructor.
  - rewrite Hrow. vm_compute. reflexivity.
Defined.

Lemma parseCSVLine_go_trimmed line current inQuotes f :
  free_of "034"%char current →
  f ∈ parseCSVLine_go line current inQuotes →
  trim f = f ∧ free_of "034"%char f.
Proof.
  revert current inQuotes.
  induction line as [|c line IH]; intros current inQuotes Hcur; simpl.
  - intros ->%list_elem_of_singleton.
    split; [apply trim_idempotent|by apply free_of_trim].
  - case_bool_decide as Hc; [by apply IH|].
    destruct (bool_decide (c = ","%char) && negb inQuotes).
    + intros [->|Hf]%elem_of_cons.
      * split; [apply trim_idempotent|by apply free_of_trim].
      * by apply (IH "" inQuotes).
    + apply IH. apply free_of_app. split; [done|].
      apply free_of_cons. split; [done|apply free_of_nil].
Qed.

Lemma parseCSVLine_go_length line current inQuotes :
  0 < length (parseCSVLine_go line current inQuotes)
  ∧ length (parseCSVLine_go line current inQuotes)
    ≤ S (count_char ","%char line)
  ∧ (free_of "034"%char line → inQuotes = false →
     length (parseCSVLine_go line current inQuotes)
     = S (count_char ","%char line)).
Proof.
  revert current inQuotes.
  induction line as [|c line IH]; intros current inQuotes; simpl.
  - split_and!; [lia|lia|done].
  - case_bool_decide as Hq.
    + destruct (IH current (negb inQuotes)) as (Hpos & Hle & _).
      split_and!; [done|lia|].
      intros [Hc _]%free_of_cons. done.
    + case_bool_decide as Hc; simpl.
      * destruct inQuotes; simpl.
        -- destruct (IH (current +:+ String c "") true) as (Hpos & Hle & _).
           split_and!; [done|lia|done].
        -- destruct (IH "" false) as (Hpos & Hle & Heq).
           split_and!; [lia|lia|].
           intros [_ Hl]%free_of_cons _. by rewrite Heq.
      * destruct (IH (current +:+ String c "") inQuotes) as (Hpos & Hle & Heq).
        split_and!; [done|lia|].
        intros [_ Hl]%free_of_cons Hin. by rewrite Heq.
Qed.

(** X10: whatever the line, the tokenizer returns at least one field and
    at most one more than the line has commas (exactly that many when the
    line has no double quote); no field holds a double quote, and no field
    has white space at its ends. *)
Theorem tokenizer_fields (line : string) :
  parseCSVLine line ≠ []
  ∧ length (parseCSVLine line) ≤ S (count_char ","%char line)
  ∧ (free_of "034"%char line →
     length (parseCSVLine line) = S (count_char ","%char line))
  ∧ ∀ f, f ∈ parseCSVLine line → trim f = f ∧ free_of "034"%char f.
Proof.
  unfold parseCSVLine.
  destruct (parseCSVLine_go_length line "" false) as (Hpos & Hle & Heq).
  split_and!.
  - intros Hnil. rewrite Hnil in Hpos. simpl in Hpos. lia.
  - done.
  - intros Hq. by apply Heq.
  - intros f. apply parseCSVLine_go_trimmed. apply free_of_nil.
Qed.

Lemma tokenizer_fields_witness :
  length (parseCSVLine "2024-11-01,Groceries,850.50,") = 4.
Proof.
  destruct (tokenizer_fields "2024-11-01,Groceries,850.50,")
    as (_ & _ & Heq & _).
  rewrite Heq; reflexivity.
Defined.

(** *** One transaction per kept line *)

Lemma length_tail_minus {A} (l : list A) : length (tail l) = length l - 1.
Proof. destruct l; simpl; lia. Qed.

Section Rows.
Context `{Host}.

Lemma parse_rows_kept cols i lines ts :
  parse_rows cols i lines = Ok ts →
  Forall2 (λ (il : nat * string) t,
             let values := parseCSVLine (trim il.2) in
             ∃ rawDate description,
               values !! dateIndex cols = Some rawDate
               ∧ values !! descIndex cols = Some description
               ∧ t = Transaction.mk (freshId il.1) (normalizeDate rawDate)
                       description (row_amount cols values)
                       (cell_amount (balanceIndex cols) values)
                       "Uncategorized" None None None)
    (filter (λ il, kept_line (dateIndex cols) (descIndex cols) il.2 = true)
       (numbered i lines)) ts.
Proof.
  revert i ts. induction lines as [|line lines IH]; intros i ts; simpl.
  - intros [= <-]. constructor.
  - rewrite filter_cons. unfold parse_row, kept_line. simpl.
    destruct (truthy (trim line)); simpl; [|by apply IH].
    destruct (length (parseCSVLine (trim line))
              <=? Nat.max (dateIndex cols) (descIndex cols)) eqn:Hlen;
      simpl; [by apply IH|].
    apply Nat.leb_gt in Hlen.
    destruct (lookup_lt_is_Some_2 (parseCSVLine (trim line))
                (dateIndex cols)) as [rawDate Hdate]; [lia|].
    destruct (lookup_lt_is_Some_2 (parseCSVLine (trim line))
                (descIndex cols)) as [description Hdesc]; [lia|].
    rewrite Hdate, Hdesc. simpl.
    destruct (parse_rows cols (S i) lines) as [ts'| |] eqn:Hrest; try done.
    intros [= <-]. constructor; [|by apply IH].
    simpl. by exists rawDate, description.
Qed.

(** X11: a parsed statement has one transaction for each data line that is
    neither blank nor too short for the date and description columns, in
    the order of the lines and carrying the number of its line, and none
    for the other lines; its date is the normalized date cell, its
    description the description cell, and it is uncategorized. *)
Theorem parsed_rows (csvText : string) (ts : list Transaction.t) :
  parseCSV csvText = Ok ts →
  let lines := split "010"%char (trim csvText) in
  let headers := headers_of (default EmptyString (head lines)) in
  ∃ d e,
    findIndex is_date_header headers = Some d
    ∧ findIndex is_description_header headers = Some e
    ∧ Forall2 (λ (il : nat * string) t,
                 let values := parseCSVLine (trim il.2) in
                 ∃ rawDate description,
                   values !! d = Some rawDate
                   ∧ values !! e = Some description
                   ∧ Transaction.id t = freshId il.1
                   ∧ Transaction.date t = normalizeDate rawDate
                   ∧ Transaction.description t = description
                   ∧ Transaction.category t = "Uncategorized"
                   ∧ Transaction.category_id t = None)
        (filter (λ il, kept_line d e il.2 = true) (numbered 1 (tail lines)))
        ts
    ∧ length ts ≤ length lines - 1.
Proof.
  intros Hparse lines headers. unfold parseCSV in Hparse.
  fold lines in Hparse. fold headers in Hparse.
  destruct (length lines <? 2); [done|].
  destruct (findIndex is_date_header headers) as [d|]; [|done].
  destruct (findIndex is_description_header headers) as [e|]; [|done].
  destruct (_ && _); [done|].
  apply parse_rows_kept in Hparse. simpl in Hparse.
  exists d, e. split_and!; [done..| |].
  - eapply Forall2_impl; [exact Hparse|].
    intros [i line] t (rawDate & description & Hd & He & ->).
    by exists rawDate, description.
  - apply Forall2_length in Hparse. rewrite <- Hparse.
    etrans; [apply length_filter|].
    assert (∀ i l, length (numbered i l) = length l) as ->.
    { intros i l. revert i. induction l as [|x l IH]; intros i; simpl;
        [done|by rewrite IH]. }
    rewrite length_tail_minus. lia.
Qed.
End Rows.

Lemma gappy_parsed : @parseCSV example_host gappy_statement = Ok gappy_transactions.
Proof. vm_compute. reflexivity. Qed.

Lemma parsed_rows_witness :
  length gappy_transactions ≤ 4
  ∧ Transaction.id <$> gappy_transactions = ["row-1"; "row-4"].
Proof.
  destruct (@parsed_rows example_host gappy_statement gappy_transactions
              gappy_parsed) as (d & e & _ & _ & _ & Hlen).
  split; [exact Hlen|]. vm_compute. reflexivity.
Defined.

(** *** Adding transactions *)

Section AddTransactions.
Context `{Host} `{TransactionsTable}.

Lemma filter_new_nil_iff known candidates :
  filter_new known candidates = []
  ↔ ∀ t, t ∈ candidates → createTransactionKey t ∈ known.
Proof.
  split.
  - intros Hnil t Ht. destruct (decide (createTransactionKey t ∈ known)) as [|Hnot]; [done|].
    pose proof (filter_new_covers known candidates t Ht Hnot) as Hin.
    rewrite Hnil in Hin. by apply elem_of_nil in Hin.
  - induction candidates as [|t rest IH]; intros Hall; [done|]. simpl.
    rewrite bool_decide_eq_true_2 by (apply Hall; apply list_elem_of_here).
    apply IH. intros t' Ht'. apply Hall. by apply list_elem_of_further.
Qed.

Lemma dedupedTransactions_nil_iff transactions newTransactions :
  dedupedTransactions transactions newTransactions = []
  ↔ ∀ t, t ∈ newTransactions →
      createTransactionKey t ∈ createTransactionKey <$> transactions.
Proof.
  unfold dedupedTransactions. rewrite filter_new_nil_iff.
  by setoid_rewrite elem_of_list_to_set.
Qed.

Lemma dedupedTransactions_keys transactions transactions' newTransactions :
  createTransactionKey <$> transactions' = createTransactionKey <$> transactions →
  dedupedTransactions transactions' newTransactions
  = dedupedTransactions transactions newTransactions.
Proof. unfold dedupedTransactions. by intros ->. Qed.

Lemma createTransactionKey_ext t t' :
  Transaction.date t' = Transaction.date t →
  Transaction.description t' = Transaction.description t →
  Transaction.amount t' = Transaction.amount t →
  createTransactionKey t' = createTransactionKey t.
Proof. unfold createTransactionKey. by intros -> -> ->. Qed.

Lemma snoc_ne {A} (l : list A) x : l ++ [x] ≠ l.
Proof.
  intros Heq. apply (f_equal length) in Heq.
  rewrite length_app in Heq. simpl in Heq. lia.
Qed.

(** X12: when every candidate has the key of a transaction of the state
    (in particular when there is no candidate), [addTransactions] returns
    the empty list without a call to the table and leaves the state as it
    is; otherwise it issues exactly one insert, whose rows are the
    deduplicated candidates in their order, each for [TEMP_USER_ID], and
    the transactions of the state before are kept in front of the new
    state. *)
Theorem add_transactions_calls (newTransactions : list Transaction.t)
    (s : HookState) :
  ((∀ t, t ∈ newTransactions →
      createTransactionKey t
      ∈ createTransactionKey <$> hook_transactions s) →
   addTransactions newTransactions s = (Ok (Some []), s))
  ∧ ((∃ t, t ∈ newTransactions
           ∧ createTransactionKey t
             ∉ createTransactionKey <$> hook_transactions s) →
     ∃ rows,
       hook_calls (addTransactions newTransactions s).2
       = hook_calls s ++ [InsertTransactions rows]
       ∧ rows ≠ []
       ∧ rows = transactionsToInsert
                <$> dedupedTransactions (hook_transactions s) newTransactions
       ∧ Forall (λ row, NewTransaction.user_id row = TEMP_USER_ID) rows)
  ∧ hook_transactions s
    `prefix_of` hook_transactions (addTransactions newTransactions s).2.
Proof.
  split_and!.
  - intros Hknown%dedupedTransactions_nil_iff. unfold addTransactions.
    by rewrite Hknown.
  - intros (t & Ht & Hnew).
    assert (dedupedTransactions (hook_transactions s) newTransactions ≠ [])
      as Hne.
    { intros Hnil. apply Hnew.
      by apply (proj1 (dedupedTransactions_nil_iff _ _) Hnil). }
    exists (transactionsToInsert
            <$> dedupedTransactions (hook_transactions s) newTransactions).
    split_and!.
    + unfold addTransactions.
      destruct (dedupedTransactions _ _) as [|d ds] eqn:Hd; [done|].
      by destruct (tableError _ _).
    + by destruct (dedupedTransactions _ _).
    + done.
    + apply Forall_fmap, Forall_forall. done.
  - unfold addTransactions.
    destruct (dedupedTransactions _ _) as [|d ds]; [done|].
    destruct (tableError _ _); simpl; [done|]. by apply prefix_app_r.
Qed.

(** X13: with a table that returns the rows it is given, a successful
    [addTransactions] keeps the keys of the state pairwise distinct, and
    adding the same candidates again returns the empty list without a
    call to the table. *)
Theorem add_transactions_invariant (newTransactions : list Transaction.t)
    (s s' : HookState) (data : option (list Transaction.t)) :
  returns_rows →
  NoDup (createTransactionKey <$> hook_transactions s) →
  addTransactions newTransactions s = (Ok data, s') →
  NoDup (createTransactionKey <$> hook_transactions s')
  ∧ addTransactions newTransactions s' = (Ok (Some []), s').
Proof.
  intros Hrows Hnodup. unfold addTransactions at 1.
  destruct (dedupedTransactions (hook_transactions s) newTransactions)
    as [|d ds] eqn:Hd.
  - intros [= <- <-]. split; [done|]. unfold addTransactions. by rewrite Hd.
  - rewrite <- Hd. destruct (tableError _ _); [done|]. intros [= <- <-].
    destruct (Hrows (hook_calls s)
                (transactionsToInsert
                 <$> dedupedTransactions (hook_transactions s)
                       newTransactions)) as (rows & -> & Hsame).
    simpl.
    assert (createTransactionKey <$> rows
            = createTransactionKey
              <$> dedupedTransactions (hook_transactions s) newTransactions)
      as Hkeys.
    { apply Forall2_fmap_l in Hsame. clear -Hsame.
      induction Hsame as [|t r l k (Hdate & Hdesc & Hamount) _ IH]; [done|].
      rewrite !fmap_cons, IH. f_equal.
      by apply createTransactionKey_ext. }
    assert (NoDup (createTransactionKey <$> hook_transactions s ++ rows))
      as Hnodup'.
    { rewrite fmap_app, Hkeys. apply NoDup_app. split_and!.
      - done.
      - intros k Hk (t & -> & Ht)%list_elem_of_fmap.
        apply filter_new_fresh in Ht as [_ Hfresh]. apply Hfresh.
        by apply elem_of_list_to_set.
      - apply filter_new_NoDup. }
    split; [done|]. unfold addTransactions. simpl.
    assert (dedupedTransactions (hook_transactions s ++ rows) newTransactions
            = []) as ->; [|done].
    apply dedupedTransactions_nil_iff. intros t Ht.
    rewrite fmap_app, Hkeys, elem_of_app.
    destruct (decide (createTransactionKey t
                      ∈ createTransactionKey <$> hook_transactions s))
      as [|Hnew]; [by left|right].
    apply filter_new_covers; [done|]. by rewrite elem_of_list_to_set.
Qed.

(** X14: giving a transaction another category, like every call of the
    category cascades on the rows, changes no key: the same candidates are
    kept and dropped by the deduplication before and after. *)
Theorem recategorising_keeps_keys :
  (∀ id categoryId label s s',
     updateTransactionCategory id categoryId label s = (Ok tt, s') →
     createTransactionKey <$> hook_transactions s'
     = createTransactionKey <$> hook_transactions s
     ∧ ∀ newTransactions,
         dedupedTransactions (hook_transactions s') newTransactions
         = dedupedTransactions (hook_transactions s) newTransactions)
  ∧ (∀ call rows,
       createTransactionKey <$> apply_call call rows
       = createTransactionKey <$> rows
       ∧ ∀ newTransactions,
           dedupedTransactions (apply_call call rows) newTransactions
           = dedupedTransactions rows newTransactions).
Proof.
  split.
  - intros id categoryId label s s'. unfold updateTransactionCategory.
    destruct (tableError _ _); [done|]. intros [= <-]. simpl.
    assert (createTransactionKey
            <$> ((λ t, if bool_decide (Transaction.id t = id)
                       then Transaction.mk (Transaction.id t)
                              (Transaction.date t)
                              (Transaction.description t)
                              (Transaction.amount t) (Transaction.balance t)
                              label categoryId (Transaction.account_id t)
                              (Transaction.user_id t)
                       else t) <$> hook_transactions s)
            = createTransactionKey <$> hook_transactions s) as Hkeys.
    { rewrite <- list_fmap_compose. apply list_fmap_ext.
      intros i t _. simpl. by case_bool_decide. }
    split; [done|]. intros new. by apply dedupedTransactions_keys.
  - intros call rows.
    assert (createTransactionKey <$> apply_call call rows
            = createTransactionKey <$> rows) as Hkeys.
    { destruct call as [| |o n]; [done..|]. simpl.
      rewrite <- list_fmap_compose. apply list_fmap_ext.
      intros i t _. simpl. unfold relabel. by case_bool_decide. }
    split; [done|]. intros new. by apply dedupedTransactions_keys.
Qed.

(** X15: a deletion is not remembered: after [deleteTransaction], a
    candidate with the key of the deleted transaction is accepted again,
    provided no remaining transaction has that key; the transactions with
    another id are all kept, in their order. *)
Theorem deleted_transaction_returns (id : string) (s s' : HookState)
    (candidate : Transaction.t) :
  deleteTransaction id s = (Ok tt, s') →
  (∀ t, t ∈ hook_transactions s →
     createTransactionKey t = createTransactionKey candidate →
     Transaction.id t = id) →
  hook_transactions s'
  = filter (λ t, Transaction.id t ≠ id) (hook_transactions s)
  ∧ hook_calls s' = hook_calls s ++ [DeleteTransactionRow id]
  ∧ dedupedTransactions (hook_transactions s') [candidate] = [candidate].
Proof.
  unfold deleteTransaction. destruct (tableError _ _); [done|].
  intros [= <-] Hkey. simpl. split_and!; [done..|].
  unfold dedupedTransactions. simpl.
  rewrite bool_decide_eq_false_2; [done|].
  rewrite elem_of_list_to_set.
  intros (t & Hk & [Hid Ht]%list_elem_of_filter)%list_elem_of_fmap.
  apply Hid. by apply Hkey.
Qed.
End AddTransactions.

(** *** The parent picker of the categories page *)

Lemma tree_ind (P : CategoryTreeNode → Prop) :
  (∀ c ts fp, Forall P ts → P (TreeNode c ts fp)) → ∀ t, P t.
Proof.
  intros IH. fix go 1. intros [c ts fp]. apply IH.
  revert ts. fix go_list 1. intros [|t ts]; constructor.
  - apply go.
  - apply go_list.
Qed.

Lemma traverse_unfold ids c ts fp :
  traverse ids (TreeNode c ts fp)
  = foldl (λ ids child,
             traverse ({[Category.id (node_category child)]} ∪ ids) child)
          ids ts.
Proof. done. Qed.

Lemma flatten_eq t : flatten t = node_category t :: flat_map flatten (children t).
Proof. by destruct t. Qed.

Lemma traverse_spec t ids i :
  i ∈ traverse ids t
  ↔ i ∈ ids ∨ i ∈ Category.id <$> flat_map flatten (children t).
Proof.
  revert ids. induction t as [c ts fp IH] using tree_ind. intros ids.
  rewrite traverse_unfold. simpl. revert ids.
  induction IH as [|child ts Hchild _ IHts]; intros ids; simpl.
  - rewrite elem_of_nil. tauto.
  - rewrite IHts, Hchild, fmap_app, elem_of_app, flatten_eq, fmap_cons.
    rewrite elem_of_cons, elem_of_union, elem_of_singleton. tauto.
Qed.

Lemma find_first_Some {A B} (f : A → option B) l y :
  find_first f l = Some y → ∃ x, x ∈ l ∧ f x = Some y.
Proof.
  induction l as [|x l IH]; [done|]. simpl.
  destruct (f x) as [y'|] eqn:Hx.
  - intros [= <-]. exists x. split; [apply list_elem_of_here|done].
  - intros (x' & Hin & Hf)%IH. exists x'.
    split; [by apply list_elem_of_further|done].
Qed.

Lemma find_first_None {A B} (f : A → option B) l :
  find_first f l = None → ∀ x, x ∈ l → f x = None.
Proof.
  induction l as [|x l IH]; simpl.
  - intros _ y Hy. by apply elem_of_nil in Hy.
  - destruct (f x) eqn:Hx; [done|].
    intros Hl y [->|Hy]%elem_of_cons; [done|by apply IH].
Qed.

Lemma findNode_unfold id c ts fp :
  findNode id (TreeNode c ts fp)
  = if bool_decide (Category.id c = id) then Some (TreeNode c ts fp)
    else find_first (findNode id) ts.
Proof. done. Qed.

Lemma findNode_Some id t n :
  findNode id t = Some n →
  n ∈ nodes t ∧ Category.id (node_category n) = id.
Proof.
  revert n. induction t as [c ts fp IH] using tree_ind. intros n.
  rewrite findNode_unfold, nodes_unfold. cbn [children].
  case_bool_decide as Hid.
  - intros [= <-]. split; [apply list_elem_of_here|done].
  - intros (child & Hchild & Hfound)%find_first_Some.
    rewrite Forall_forall in IH.
    destruct (IH child Hchild n Hfound) as [Hn Hnid]. split; [|done].
    apply list_elem_of_further, elem_of_flat_map. by exists child.
Qed.

Lemma findNode_None id t :
  findNode id t = None → id ∉ Category.id <$> flatten t.
Proof.
  induction t as [c ts fp IH] using tree_ind.
  rewrite findNode_unfold, flatten_unfold.
  case_bool_decide as Hid; [done|]. intros Hnone.
  rewrite fmap_cons, elem_of_cons. intros [Heq|Hin]; [done|].
  apply list_elem_of_fmap in Hin as (x & -> & (child & Hchild & Hx)%elem_of_flat_map).
  rewrite Forall_forall in IH.
  apply (IH child Hchild (find_first_None _ _ Hnone child Hchild)).
  by apply list_elem_of_fmap_2.
Qed.

Lemma findNodeById_Some nodes0 id n :
  findNodeById nodes0 id = Some n →
  n ∈ flat_map nodes nodes0 ∧ Category.id (node_category n) = id.
Proof.
  intros (t & Ht & Hfound)%find_first_Some.
  apply findNode_Some in Hfound as [Hn Hid]. split; [|done].
  apply elem_of_flat_map. by exists t.
Qed.

Lemma findNodeById_is_Some nodes0 id :
  id ∈ Category.id <$> flat_map flatten nodes0 →
  is_Some (findNodeById nodes0 id).
Proof.
  intros Hin. destruct (findNodeById nodes0 id) eqn:Hfind; [done|].
  exfalso.
  apply list_elem_of_fmap in Hin as (x & -> & (t & Ht & Hx)%elem_of_flat_map).
  apply (findNode_None _ _ (find_first_None _ _ Hfind t Ht)).
  by apply list_elem_of_fmap_2.
Qed.

Lemma descendant_below cats a i :
  descendant_of cats a i
  ↔ ∃ d x, d ∈ cats ∧ Category.parent_id d = Some a
           ∧ below cats d x ∧ Category.id x = i.
Proof.
  split.
  - induction 1 as [a c Hc Hp|a c d Hc Hp _ (d' & x & Hd' & Hp' & Hb & Hid)].
    + exists c, c. split_and!; [done..|constructor|done].
    + exists c, x. split_and!; [done..| |done].
      eapply below_step; [exact Hd'|exact Hp'|exact Hb].
  - intros (d & x & Hd & Hp & Hb & <-). revert a Hd Hp.
    induction Hb as [d|d d' x Hd' Hp' _ IH]; intros a Hd Hp.
    + by apply descendant_child.
    + eapply descendant_nested; [exact Hd|exact Hp|]. by apply IH.
Qed.

Lemma rewrite_paths_no_Error `{Host} old new ids s m :
  (rewrite_paths old new ids s).1 ≠ Throw (Error m).
Proof.
  revert s. induction ids as [|i ids IH]; intros s; simpl; [done|].
  destruct (old !! i) as [o|]; [|apply IH].
  destruct (new !! i) as [n|]; [|apply IH].
  destruct (_ && _); [|apply IH].
  unfold bind, request. destruct (storeError _ _); [done|]. apply IH.
Qed.

Section ParentPicker.
Context `{Host}.

Lemma cascade_no_Error fuel cid trimmed parent updated (old : PathMap) ids
    s m :
  (bind (request (UpdateCategoryRow cid trimmed parent))
     (λ _, match buildTreeAndPaths fuel updated with
           | None => diverge
           | Some (_, newPathMap) =>
               bind (rewrite_paths old newPathMap ids) (λ _, ret updated)
           end) s).1 ≠ Throw (Error m).
Proof.
  unfold bind at 1. unfold request. destruct (storeError _ _); [done|].
  destruct (buildTreeAndPaths _ _) as [[tree' pm']|]; [|done].
  unfold bind.
  match goal with
  | |- context [rewrite_paths ?o ?n ?i ?s] =>
      pose proof (rewrite_paths_no_Error o n i s m) as Hno;
      destruct (rewrite_paths o n i s) as [[[]|e|] s2]
  end; simpl in *; [done| |done].
  intros [= ->]. by apply Hno.
Qed.

Lemma buildNode_children_flatten cats n c pp pm t pm' :
  buildNode n (createChildrenMap cats) c pp pm = Some (t, pm') →
  ∀ x, x ∈ flat_map flatten (children t)
       ↔ ∃ d, d ∈ cats ∧ Category.parent_id d = Some (Category.id c)
              ∧ below cats d x.
Proof.
  destruct n as [|n]; [done|]. simpl.
  destruct (map_st _ _ _) as [[ts s2]|] eqn:Hm; simpl; [|done].
  intros [= <- <-] x. simpl. rewrite elem_of_flat_map.
  apply map_st_outputs in Hm. split.
  - intros (t & Ht & Hx).
    apply list_elem_of_lookup_1 in Ht as [i Hi].
    destruct (Forall2_lookup_r _ _ _ _ _ Hm Hi) as (d & Hd & s1 & s3 & Hb).
    apply list_elem_of_lookup_2, elem_of_sort_by, elem_of_children in Hd
      as [Hd Hp].
    exists d. split_and!; [done..|]. by eapply buildNode_flatten.
  - intros (d & Hd & Hp & Hb).
    assert (d ∈ sort_by by_name
              (children_of (createChildrenMap cats) (Some (Category.id c))))
      as Hin by by apply elem_of_sort_by, elem_of_children.
    apply list_elem_of_lookup_1 in Hin as [i Hi].
    destruct (Forall2_lookup_l _ _ _ _ _ Hm Hi) as (t & Ht & s1 & s3 & Hbd).
    exists t. split; [by eapply list_elem_of_lookup_2|].
    by eapply buildNode_flatten.
Qed.

(** The ids that the page collects below a node of the tree are the ids
    of the descendants of the node's category. *)
Lemma collectDescendantIds_spec fuel cats tree pm n i :
  buildTreeAndPaths fuel cats = Some (tree, pm) →
  n ∈ flat_map nodes tree →
  i ∈ collectDescendantIds (Some n)
  ↔ descendant_of cats (Category.id (node_category n)) i.
Proof.
  intros Hb Hn. unfold collectDescendantIds.
  rewrite traverse_spec, elem_of_empty, descendant_below.
  destruct (buildTreeAndPaths_tree_nodes _ _ _ _ _ Hb Hn)
    as (m & pp' & s & s' & _ & Hb' & _).
  pose proof (buildNode_children_flatten _ _ _ _ _ _ _ Hb') as Hflat.
  split.
  - intros [[]|(x & -> & Hx)%list_elem_of_fmap].
    apply Hflat in Hx as (d & Hd & Hp & Hbelow). by exists d, x.
  - intros (d & x & Hd & Hp & Hbelow & <-). right.
    apply list_elem_of_fmap_2, Hflat. by exists d.
Qed.

(** X16: for a category shown in the tree, the page offers as new parent
    exactly the saved options that are neither the category nor one of its
    descendants; with any of them and a name that is not blank,
    [updateCategory] on a category that is not a system category passes
    its validation: it throws none of its own errors. *)
Theorem parent_options_valid (fuel : nat) (categories : list Category.t)
    (view : View) (tree : list CategoryTreeNode) (c : Category.t) :
  render fuel categories = Some view →
  buildTreeAndPaths fuel categories = Some (tree, pathMap view) →
  reachable categories c → Category.id c ≠ "" →
  (∀ option,
     option ∈ availableParentOptions tree (categoryOptions view)
                (Some (Category.id c))
     ↔ option ∈ savedCategoryOptions (categoryOptions view)
       ∧ opt_id option ≠ Category.id c
       ∧ ¬ descendant_of categories (Category.id c) (opt_id option))
  ∧ (unique_ids categories → Category.is_system c = false →
     ∀ option name fuel' store message,
       option ∈ availableParentOptions tree (categoryOptions view)
                  (Some (Category.id c)) →
       trim name ≠ "" →
       (updateCategory fuel' view (Category.id c)
          (mkUpdates (Some name) (Some (Some (opt_id option)))) store).1
       ≠ Throw (Error message)).
Proof.
  intros Hrender Hb Hreach Hid.
  assert (∀ option,
     option ∈ availableParentOptions tree (categoryOptions view)
                (Some (Category.id c))
     ↔ option ∈ savedCategoryOptions (categoryOptions view)
       ∧ opt_id option ≠ Category.id c
       ∧ ¬ descendant_of categories (Category.id c) (opt_id option))
    as Hoffered.
  { intros option. unfold availableParentOptions.
    apply truthy_true in Hid. rewrite Hid.
    destruct (findNodeById_is_Some tree (Category.id c)) as [n Hfind].
    { apply list_elem_of_fmap_2.
      by apply (buildTreeAndPaths_nodes _ _ _ _ Hb). }
    rewrite Hfind.
    apply findNodeById_Some in Hfind as [Hn Hnid].
    rewrite list_elem_of_filter, elem_of_union, elem_of_singleton.
    rewrite (collectDescendantIds_spec _ _ _ _ _ _ Hb Hn), Hnid. tauto. }
  split; [exact Hoffered|].
  intros Hu Hsys option name fuel' store message Hin Hname.
  apply Hoffered in Hin as (_ & Hself & Hdesc).
  destruct (render_inv _ _ _ Hrender) as (Hcats & _ & Hdm).
  pose proof (reachable_in _ _ Hreach) as Hc.
  assert (find_category (Category.id c) categories = Some c) as Hfind.
  { destruct (find_category (Category.id c) categories) as [c'|] eqn:Hf.
    - apply find_category_Some in Hf as [Hc' Hid'].
      by rewrite (unique_ids_eq categories c' c Hu Hc' Hc Hid').
    - apply find_category_None in Hf. destruct Hf.
      by apply list_elem_of_fmap_2. }
  destruct (view_descendants _ _ _ (Category.id c) Hrender)
    as (l & Hl & Hspec); [by apply list_elem_of_fmap_2|].
  unfold updateCategory. rewrite Hcats, Hfind, Hsys, Hl.
  cbn [upd_parent_id upd_name default from_option id fmap option_fmap
       option_map].
  assert ((if truthy (opt_id option)
           then if bool_decide (opt_id option = Category.id c)
                then Some (Error "A category cannot be its own parent")
                else if bool_decide (opt_id option ∈ l)
                then Some (Error
                  "A category cannot be moved under one of its subcategories")
                else None
           else None) = None) as ->.
  { destruct (truthy (opt_id option)); [|done].
    rewrite bool_decide_eq_false_2 by done.
    by rewrite bool_decide_eq_false_2 by (by rewrite Hspec). }
  destruct (trim name) eqn:Hn; [done|].
  apply cascade_no_Error.
Qed.
End ParentPicker.

(** *** Creating a category *)

Lemma has_path_mono cats cats' c p :
  (∀ x, x ∈ cats → x ∈ cats') → has_path cats c p → has_path cats' c p.
Proof.
  intros Hsub. induction 1 as [c Hc Hr|c q pp Hc Hq Hpar _ IH].
  - apply has_path_root; auto.
  - eapply has_path_child; eauto.
Qed.

Lemma unique_ids_snoc cats c :
  unique_ids cats → Category.id c ∉ Category.id <$> cats →
  unique_ids (cats ++ [c]).
Proof.
  intros Hu Hfresh. unfold unique_ids. rewrite fmap_app. apply NoDup_app.
  split_and!; [done| |apply NoDup_singleton].
  intros i Hi ->%list_elem_of_singleton. done.
Qed.

Section CreateCategory.
Context `{Host} `{CategoriesTable}.

(** X17: a name that is empty after trimming, as a name made of white
    space only is, is refused by [createCategory] before anything is sent
    to the table, and the state stays as it is; any other name is sent
    once, trimmed, with the given parent and never as a system category,
    and the state grows by the stored row exactly when the table accepts
    it. *)
Theorem create_category (name : string) (parentId : option string)
    (s : CategoryState) :
  (trim name = ""
   ∨ Forall (λ ch, in_class white_space ch = true) (chars name) →
   createCategory name parentId s
   = (Throw (Error "Category name is required"), s))
  ∧ (trim name ≠ "" →
     let payload := mkPayload (trim name) parentId TEMP_USER_ID false in
     table_inserts (createCategory name parentId s).2
     = table_inserts s ++ [payload]
     ∧ (∀ data, insertCategoryRow (table_rows s) payload = inr data →
          (createCategory name parentId s).1 = Ok tt
          ∧ state_categories (createCategory name parentId s).2
            = state_categories s ++ [data])
     ∧ (∀ message, insertCategoryRow (table_rows s) payload = inl message →
          (createCategory name parentId s).1 = Throw (StoreError message)
          ∧ state_categories (createCategory name parentId s).2
            = state_categories s)).
Proof.
  unfold createCategory. split.
  - intros [Hblank|Hblank%trim_blank]; by rewrite Hblank.
  - intros Hname%truthy_true. rewrite Hname. simpl. split_and!.
    + by destruct (insertCategoryRow _ _).
    + by intros data ->.
    + by intros message ->.
Qed.

(** X18: with a table that stores what it is given under a fresh key, a
    created category leaves every entry of the path map as it was and
    gets an entry of its own: its trimmed name when it has no parent, the
    parent's path extended by its trimmed name when the parent has a
    path. *)
Theorem created_category_paths (name : string) (parentId : option string)
    (s s' : CategoryState) (fuel fuel' : nat)
    (tree tree' : list CategoryTreeNode) (pathMap pathMap' : PathMap) :
  stores_payload →
  state_categories s = table_rows s → unique_ids (state_categories s) →
  createCategory name parentId s = (Ok tt, s') →
  buildTreeAndPaths fuel (state_categories s) = Some (tree, pathMap) →
  buildTreeAndPaths fuel' (state_categories s') = Some (tree', pathMap') →
  unique_ids (state_categories s')
  ∧ state_categories s' = table_rows s'
  ∧ (∀ i p, pathMap !! i = Some p → pathMap' !! i = Some p)
  ∧ ∃ data,
      state_categories s' = state_categories s ++ [data]
      ∧ Category.name data = trim name
      ∧ Category.is_system data = false
      ∧ (parentId = None → pathMap' !! Category.id data = Some (trim name))
      ∧ (∀ parent parentPath,
           parent ∈ state_categories s → parentId = Some (Category.id parent) →
           pathMap !! Category.id parent = Some parentPath →
           pathMap' !! Category.id data
           = Some (joinPath (Some parentPath) (trim name))).
Proof.
  intros Hstores Hloaded Hu. unfold createCategory.
  destruct (negb (truthy (trim name))); [done|].
  destruct (insertCategoryRow _ _) as [message|data] eqn:Hinsert; [done|].
  intros [= <-] Hb Hb'. simpl in *.
  destruct (Hstores _ _ _ Hinsert) as (Hname & Hparent & Hsys & Hfresh).
  simpl in *. rewrite <- Hloaded in Hfresh.
  assert (unique_ids (state_categories s ++ [data])) as Hu'
    by by apply unique_ids_snoc.
  assert (∀ x, x ∈ state_categories s → x ∈ state_categories s ++ [data])
    as Hsub by (intros x Hx; apply elem_of_app; by left).
  assert (data ∈ state_categories s ++ [data]) as Hdata
    by (apply elem_of_app; right; apply list_elem_of_here).
  split_and!; [done|by rewrite Hloaded| |].
  - intros i p Hp.
    destruct (buildTreeAndPaths_has_path _ _ _ _ Hb _ _ Hp)
      as (x & Hx & <- & Hpath).
    apply (pathMap_lookup _ _ _ _ _ _ Hu' Hb' (Hsub x Hx)).
    by eapply has_path_mono.
  - exists data. split_and!; [done..| |].
    + intros ->. apply (pathMap_lookup _ _ _ _ _ _ Hu' Hb' Hdata).
      rewrite <- Hname. by apply has_path_root.
    + intros parent pp Hin -> Hpp.
      apply (pathMap_lookup _ _ _ _ _ _ Hu' Hb' Hdata).
      rewrite <- Hname.
      apply (has_path_child _ data parent pp Hdata (Hsub _ Hin) Hparent).
      apply (has_path_mono (state_categories s)); [done|].
      by apply (pathMap_lookup _ _ _ _ _ _ Hu Hb Hin).
Qed.
End CreateCategory.

(** *** Seeding *)

Lemma seed_ind (P : CategorySeed → Prop) :
  (∀ name children isSystem,
     Forall P (default [] children) → P (Seed name children isSystem)) →
  ∀ seed, P seed.
Proof.
  intros IH. fix go 1. intros [name children isSystem]. apply IH.
  destruct children as [seeds|]; [|constructor]. simpl.
  revert seeds. fix go_list 1. intros [|seed seeds]; constructor.
  - apply go.
  - apply go_list.
Qed.

Lemma path_under_root cats : path_under cats None None.
Proof. intros c Hc Hp. simpl. by apply has_path_root. Qed.

Lemma path_under_child cats q fullPath :
  q ∈ cats → has_path cats q fullPath →
  path_under cats (Some (Category.id q)) (Some fullPath).
Proof.
  intros Hq Hpath c Hc Hp. exact (has_path_child cats c q _ Hc Hq Hp Hpath).
Qed.

Section SeedingPaths.
Context `{CategoriesTable}.
Hypothesis stores : stores_payload.

Lemma insert_loop seeds parentId s s' :
  Forall seed_inserted seeds →
  for_each (λ child s,
              match insertCategory child parentId s with
              | (Ok _, s') => (Ok tt, s')
              | (Throw e, s') => (Throw e, s')
              | (Diverge, s') => (Diverge, s')
              end) seeds s = (Ok tt, s') →
  ∃ new,
    table_rows s' = table_rows s ++ new
    ∧ (unique_ids (table_rows s) → unique_ids (table_rows s'))
    ∧ (∀ cats parentPath,
         (∀ x, x ∈ new → x ∈ cats) →
         path_under cats parentId parentPath →
         Forall2 (has_path cats) new
           (flat_map (flattenSeed parentPath) seeds)).
Proof.
  intros Hall. revert s.
  induction Hall as [|seed seeds Hseed _ IH]; intros s; simpl.
  - intros [= <-]. exists []. rewrite app_nil_r. split_and!; [done..|].
    intros. constructor.
  - destruct (insertCategory seed parentId s) as [[c| |] s1] eqn:Hinsert;
      try done.
    intros Hrest.
    destruct (Hseed _ _ _ _ Hinsert) as (new1 & Hrows1 & _ & _ & Hu1 & Hp1).
    destruct (IH _ Hrest) as (new2 & Hrows2 & Hu2 & Hp2).
    exists ((c :: new1) ++ new2). split_and!.
    + by rewrite Hrows2, Hrows1, <- app_assoc.
    + auto.
    + intros cats pp Hin Hunder. apply Forall2_app.
      * apply Hp1; [|done]. intros x Hx. apply Hin, elem_of_app. by left.
      * apply Hp2; [|done]. intros x Hx. apply Hin, elem_of_app. by right.
Qed.

Lemma insertCategory_unfold name children isSystem parentId s :
  insertCategory (Seed name children isSystem) parentId s
  = let payload :=
      mkPayload name parentId TEMP_USER_ID (default false isSystem) in
    match insertCategoryRow (table_rows s) payload with
    | inl message =>
        (Throw (Error message),
         mkCategoryState (table_rows s) (table_inserts s ++ [payload])
           (state_categories s))
    | inr category =>
        let s1 :=
          mkCategoryState (table_rows s ++ [category])
            (table_inserts s ++ [payload]) (state_categories s) in
        match children with
        | Some (child :: rest) =>
            match for_each
                    (λ child s,
                       match insertCategory child
                               (Some (Category.id category)) s with
                       | (Ok _, s') => (Ok tt, s')
                       | (Throw e, s') => (Throw e, s')
                       | (Diverge, s') => (Diverge, s')
                       end)
                    (child :: rest) s1 with
            | (Ok _, s2) => (Ok category, s2)
            | (Throw e, s2) => (Throw e, s2)
            | (Diverge, s2) => (Diverge, s2)
            end
        | _ => (Ok category, s1)
        end
    end.
Proof. done. Qed.

Lemma insertCategory_inserted seed : seed_inserted seed.
Proof.
  induction seed as [name children isSystem IH] using seed_ind.
  intros parentId s c s'. rewrite insertCategory_unfold. cbv zeta.
  destruct (insertCategoryRow _ _) as [message|category] eqn:Hinsert;
    [done|].
  destruct (stores _ _ _ Hinsert) as (Hname & Hparent & _ & Hfresh).
  simpl in Hname, Hparent.
  assert (unique_ids (table_rows s) →
          unique_ids (table_rows s ++ [category])) as Hu
    by (intros Hu; by apply unique_ids_snoc).
  assert (∀ s', table_rows s' = table_rows s ++ [category] →
          ∃ new, table_rows s' = table_rows s ++ category :: new
            ∧ Category.parent_id category = parentId
            ∧ Category.name category = name
            ∧ (unique_ids (table_rows s) → unique_ids (table_rows s'))
            ∧ (∀ cats parentPath,
                 (∀ x, x ∈ category :: new → x ∈ cats) →
                 path_under cats parentId parentPath →
                 Forall2 (has_path cats) (category :: new)
                   [joinPath parentPath name])) as Hleaf.
  { intros s0 Hrows. exists []. split_and!; [done..| |].
    - by rewrite Hrows.
    - intros cats pp Hin Hunder. constructor; [|constructor].
      rewrite <- Hname. apply Hunder; [|done].
      apply Hin, list_elem_of_here. }
  destruct children as [[|child rest]|].
  - intros [= <- <-]. by apply Hleaf.
  - destruct (for_each _ _ _) as [[[]| |] s2] eqn:Hloop; try done.
    intros [= <- <-].
    destruct (insert_loop _ _ _ _ IH Hloop) as (new & Hrows & Hu2 & Hp).
    simpl in Hrows. exists new. split_and!; [|done..| |].
    + by rewrite Hrows, <- app_assoc.
    + intros Hus. apply Hu2. simpl. by apply Hu.
    + intros cats pp Hin Hunder. cbn [flattenSeed seed_name seed_children].
      assert (has_path cats category (joinPath pp name)) as Hpath.
      { rewrite <- Hname. apply Hunder; [|done].
        apply Hin, list_elem_of_here. }
      constructor; [done|]. apply Hp.
      * intros x Hx. by apply Hin, list_elem_of_further.
      * apply path_under_child; [|done]. apply Hin, list_elem_of_here.
  - intros [= <- <-]. by apply Hleaf.
Qed.

(** X19: with a table that stores what it is given under a fresh key,
    seeding adds one row per seed, parents before children, the ids stay
    unique, and the path map built from the table afterwards gives the
    new rows, in the order of their creation, the paths that
    [flattenSeeds] lists. *)
Theorem seeded_category_paths `{Host} (seeds : list CategorySeed)
    (s s' : CategoryState) :
  unique_ids (table_rows s) →
  seedCategories seeds s = (Ok tt, s') →
  ∃ new,
    table_rows s' = table_rows s ++ new
    ∧ unique_ids (table_rows s')
    ∧ length new = length (flattenSeeds seeds None)
    ∧ ∀ fuel tree pathMap,
        buildTreeAndPaths fuel (table_rows s') = Some (tree, pathMap) →
        (λ c, pathMap !! Category.id c) <$> new
        = Some <$> flattenSeeds seeds None.
Proof.
  intros Hu Hseed. unfold seedCategories in Hseed.
  destruct (insert_loop seeds None s s') as (new & Hrows & Hu' & Hpaths);
    [|done|].
  { apply Forall_forall. intros seed _. apply insertCategory_inserted. }
  assert (Forall2 (has_path (table_rows s')) new (flattenSeeds seeds None))
    as Hnew.
  { apply Hpaths; [|apply path_under_root].
    intros x Hx. rewrite Hrows. apply elem_of_app. by right. }
  exists new. split_and!; [done|by apply Hu'|by eapply Forall2_length|].
  intros fuel tree pathMap Hb.
  clear Hrows Hpaths.
  induction Hnew as [|c p cs ps Hc _ IH]; [done|].
  rewrite !fmap_cons, IH. f_equal.
  exact (proj2 (pathMap_lookup _ _ _ _ c p (Hu' Hu) Hb
                  (has_path_in _ _ _ Hc)) Hc).
Qed.
End SeedingPaths.

(** *** The examples, run *)

Lemma add_transactions_calls_witness :
  @addTransactions example_host example_table
    [salary "c1" " 2024-11-01" "SALARY deposit " (Dec 15000 0)] known_state
  = (Ok (Some []), known_state).
Proof.
  apply (proj1 (@add_transactions_calls example_host example_table _
                  known_state)).
  intros t ->%list_elem_of_singleton. by_evaluation.
Defined.

Lemma example_table_returns_rows : @returns_rows example_table.
Proof.
  intros calls rows. exists (stored_rows (length calls) rows).
  split; [done|]. generalize (length calls).
  induction rows as [|row rows IH]; intros n; simpl; constructor; auto.
Qed.

Lemma known_records_NoDup :
  NoDup (@createTransactionKey example_host <$> hook_transactions known_state).
Proof. by_evaluation. Qed.

Lemma added_run :
  @addTransactions example_host example_table candidate_records known_state
  = (Ok added_data, added_state).
Proof. vm_compute. reflexivity. Qed.

Lemma add_transactions_invariant_witness :
  NoDup (@createTransactionKey example_host <$> hook_transactions added_state)
  ∧ @addTransactions example_host example_table candidate_records added_state
    = (Ok (Some []), added_state).
Proof.
  exact (@add_transactions_invariant example_host example_table
           candidate_records known_state added_state added_data
           example_table_returns_rows known_records_NoDup added_run).
Defined.

Lemma recategorised_run :
  @updateTransactionCategory example_table "k1" (Some "f") "Transport → Fuel"
    known_state
  = (Ok tt, recategorised_state).
Proof. vm_compute. reflexivity. Qed.

Lemma recategorising_keeps_keys_witness :
  @createTransactionKey example_host <$> hook_transactions recategorised_state
  = @createTransactionKey example_host <$> known_records.
Proof.
  exact (proj1 (proj1 (@recategorising_keeps_keys example_host example_table)
                  "k1" (Some "f") "Transport → Fuel" known_state
                  recategorised_state recategorised_run)).
Defined.

Lemma deleted_run :
  @deleteTransaction example_table "k1" known_state = (Ok tt, deleted_state).
Proof. vm_compute. reflexivity. Qed.

Lemma deleted_transaction_returns_witness :
  @dedupedTransactions example_host (hook_transactions deleted_state)
    [salary "c9" "2024-11-01" "Salary Deposit" (Dec 1500000 (-2))]
  = [salary "c9" "2024-11-01" "Salary Deposit" (Dec 1500000 (-2))].
Proof.
  apply (@deleted_transaction_returns example_host example_table "k1"
           known_state deleted_state _ deleted_run).
  intros t ->%list_elem_of_singleton _. reflexivity.
Defined.

Lemma parent_options_valid_witness :
  mkOption "u" "Uncategorized" true
  ∈ availableParentOptions transport_tree
      (@categoryOptions example_host transport_view) (Some "t")
  ∧ ¬ descendant_of transport_example "t" "u".
Proof.
  assert (mkOption "u" "Uncategorized" true
          ∈ availableParentOptions transport_tree
              (@categoryOptions example_host transport_view) (Some "t"))
    as Hin by by_evaluation.
  split; [exact Hin|].
  destruct (@parent_options_valid example_host 4 transport_example
              transport_view transport_tree
              (Category.mk "t" "Transport" None false)
              transport_render transport_build) as [Hoffered _].
  - apply reachable_root; [by_evaluation|reflexivity].
  - done.
  - exact (proj2 (proj2 (proj1 (Hoffered _) Hin))).
Defined.

Lemma create_category_witness :
  @createCategory example_categories_table "  " None transport_state
  = (Throw (Error "Category name is required"), transport_state).
Proof.
  apply (proj1 (@create_category example_categories_table "  " None
                  transport_state)).
  right. by_evaluation.
Defined.

Lemma bytes_length l : String.length (bytes l) = length l.
Proof. induction l as [|n l IH]; simpl; [done|by rewrite IH]. Qed.

Lemma foldr_max_ge (l : list nat) x : x ∈ l → x ≤ foldr Nat.max 0 l.
Proof.
  induction l as [|y l IH]; [by intros ?%elem_of_nil|].
  intros [->|Hx]%elem_of_cons; simpl; [lia|]. specialize (IH Hx). lia.
Qed.

Lemma longer_id_fresh rows : longer_id rows ∉ Category.id <$> rows.
Proof.
  intros (c & Hid & Hc)%list_elem_of_fmap.
  assert (String.length (Category.id c)
          ≤ foldr Nat.max 0
              ((λ c, String.length (Category.id c)) <$> rows)) as Hle.
  { apply foldr_max_ge.
    by apply (list_elem_of_fmap_2 (λ c, String.length (Category.id c))). }
  rewrite <- Hid in Hle. unfold longer_id in Hle.
  rewrite bytes_length, length_replicate in Hle. lia.
Qed.

Lemma example_categories_table_stores :
  @stores_payload example_categories_table.
Proof.
  intros rows payload data [= <-]. simpl. split_and!; [done..|].
  apply longer_id_fresh.
Qed.

Lemma created_run :
  @createCategory example_categories_table " Tolls " (Some "t")
    transport_state
  = (Ok tt, created_state).
Proof. vm_compute. reflexivity. Qed.

Lemma created_build :
  @buildTreeAndPaths example_host 5 (state_categories created_state)
  = Some (created_tree, created_paths).
Proof. vm_compute. reflexivity. Qed.

Lemma created_category_paths_witness :
  (∀ i p, pathMap transport_view !! i = Some p → created_paths !! i = Some p)
  ∧ created_paths !! "cc" = Some "Transport → Tolls".
Proof.
  destruct (@created_category_paths example_host example_categories_table
              " Tolls " (Some "t") transport_state created_state 4 5
              transport_tree created_tree (pathMap transport_view)
              created_paths example_categories_table_stores eq_refl
              transport_example_unique created_run transport_build
              created_build) as (_ & _ & Hkept & _).
  split; [exact Hkept|]. vm_compute. reflexivity.
Defined.

Lemma seeded_run :
  @seedCategories example_categories_table DEFAULT_CATEGORY_STRUCTURE
    (mkCategoryState [] [] [])
  = (Ok tt, seeded_state).
Proof. vm_compute. reflexivity. Qed.

Lemma seeded_build :
  @buildTreeAndPaths example_host 28 (table_rows seeded_state)
  = Some (seeded_tree, seeded_paths).
Proof. vm_compute. reflexivity. Qed.

Lemma seeded_category_paths_witness :
  (λ c, seeded_paths !! Category.id c) <$> table_rows seeded_state
  = Some <$> flattenSeeds DEFAULT_CATEGORY_STRUCTURE None.
Proof.
  destruct (@seeded_category_paths example_categories_table
              example_categories_table_stores example_host
              DEFAULT_CATEGORY_STRUCTURE (mkCategoryState [] [] [])
              seeded_state (NoDup_nil_2 : unique_ids []) seeded_run)
    as (new & Hrows & _ & _ & Hpaths).
  change (table_rows seeded_state = new) in Hrows.
  rewrite <- Hrows in Hpaths.
  exact (Hpaths 28 seeded_tree seeded_paths seeded_build).
Defined.

(** *** An update that changes nothing *)

Lemma path_changes_same (pm : PathMap) ids : path_changes pm pm ids = [].
Proof.
  induction ids as [|i ids IH]; [done|]. rewrite path_changes_cons, IH.
  unfold path_change. destruct (pm !! i) as [p|]; [|done].
  rewrite (bool_decide_eq_false_2 (p ≠ p)) by auto.
  by rewrite andb_false_r.
Qed.

(** X20: an update that gives a category the name and the parent it has
    already (or leaves them out) writes the category row and nothing else:
    no transaction is rewritten and the collection stays as it is. *)
Theorem unchanged_update `{Host} (fuel0 fuel : nat)
    (categories : list Category.t) (view : View) (store store' : Store)
    (c : Category.t) (updates : Updates) (updated : list Category.t) :
  render fuel0 categories = Some view → unique_ids categories →
  c ∈ categories →
  (∀ name, upd_name updates = Some name → trim name = Category.name c) →
  (∀ parent, upd_parent_id updates = Some parent →
     parent = Category.parent_id c) →
  updateCategory fuel view (Category.id c) updates store
  = (Ok updated, store') →
  updated = categories
  ∧ transactions store' = transactions store
  ∧ calls store'
    = calls store
      ++ [UpdateCategoryRow (Category.id c) (trim <$> upd_name updates)
            (upd_parent_id updates)].
Proof.
  intros Hrender Hu Hc Hname Hparent Hrun.
  destruct (render_inv _ _ _ Hrender) as (Hcats & [tree0 Hb0] & _).
  destruct (updateCategory_Ok _ _ _ _ _ _ _ Hrun)
    as (c' & tree & newPathMap & _ & _ & _ & Hupdated & Hb & ->).
  rewrite Hcats in Hupdated.
  assert (updated = categories) as Heq.
  { rewrite Hupdated. rewrite <- (list_fmap_id categories) at 2.
    apply list_fmap_ext. intros i x Hx. simpl.
    case_bool_decide as Hid; [|done].
    apply list_elem_of_lookup_2 in Hx.
    rewrite (unique_ids_eq categories x c Hu Hx Hc Hid).
    unfold apply_updates. destruct c as [cid cname cparent csys]. simpl in *.
    f_equal.
    - destruct (upd_name updates) as [name|]; [|done]. simpl.
      by apply Hname.
    - destruct (upd_parent_id updates) as [parent|]; [|done]. simpl.
      by apply Hparent. }
  assert (newPathMap = pathMap view) as ->.
  { rewrite Heq in Hb.
    pose proof (buildTreeAndPaths_fuel_mono fuel0 (fuel0 + fuel) _ _
                  ltac:(lia) Hb0) as H1.
    pose proof (buildTreeAndPaths_fuel_mono fuel (fuel0 + fuel) _ _
                  ltac:(lia) Hb) as H2.
    rewrite H1 in H2. by injection H2. }
  rewrite path_changes_same. simpl. split_and!; [done| |done].
  rewrite <- (list_fmap_id (transactions store)) at 2.
  by apply list_fmap_ext.
Qed.

Lemma unchanged_run :
  @updateCategory example_host 4 transport_view "t"
    (mkUpdates (Some " Transport ") (Some None)) rename_store
  = (Ok transport_example, unchanged_store).
Proof. vm_compute. reflexivity. Qed.

Lemma unchanged_update_witness :
  transactions unchanged_store = transactions rename_store.
Proof.
  destruct (@unchanged_update example_host 4 4 transport_example
              transport_view rename_store unchanged_store
              (Category.mk "t" "Transport" None false)
              (mkUpdates (Some " Transport ") (Some None)) transport_example
              transport_render transport_example_unique)
    as (_ & Hrows & _).
  - by_evaluation.
  - intros name [= <-]. vm_compute. reflexivity.
  - intros parent [= <-]. reflexivity.
  - exact unchanged_run.
  - exact Hrows.
Defined.

(** *** The options of the transaction table *)

Lemma fold_first {A K} (key : A → K) (step : list A → A → list A) l acc :
  (∀ acc x, ((key x ∈ key <$> acc) ∧ step acc x = acc)
            ∨ ((key x ∉ key <$> acc) ∧ step acc x = acc ++ [x])) →
  (NoDup (key <$> acc) → NoDup (key <$> foldl step acc l))
  ∧ (∀ k, k ∈ key <$> foldl step acc l ↔ k ∈ key <$> acc ∨ k ∈ key <$> l)
  ∧ (∀ x, x ∈ foldl step acc l → x ∈ acc ∨ x ∈ l)
  ∧ (∀ x, x ∈ acc → x ∈ foldl step acc l).
Proof.
  intros Hstep. revert acc.
  induction l as [|y l IH]; intros acc; cbn [foldl].
  - split_and!; [done| |by left|done].
    intros k. rewrite fmap_nil, elem_of_nil. tauto.
  - destruct (IH (step acc y)) as (Hnodup & Hkeys & Hin & Hkeep).
    destruct (Hstep acc y) as [[Hseen Heq]|[Hnew Heq]];
      rewrite Heq in Hnodup, Hkeys, Hin, Hkeep; rewrite Heq.
    + split_and!; [done| | |done].
      * intros k. rewrite Hkeys, fmap_cons, elem_of_cons.
        split; [tauto|]. intros [?|[->|?]]; auto.
      * intros x [?|?]%Hin; [by left|right]. by apply list_elem_of_further.
    + split_and!.
      * intros Hacc. apply Hnodup. rewrite fmap_app. apply NoDup_app.
        split_and!; [done| |apply NoDup_singleton].
        intros k Hk ->%list_elem_of_singleton. done.
      * intros k. rewrite Hkeys, fmap_app, elem_of_app, !fmap_cons, fmap_nil.
        rewrite list_elem_of_singleton, elem_of_cons. tauto.
      * intros x Hx.
        apply Hin in Hx as [Hx|Hx]; [|right; by apply list_elem_of_further].
        apply elem_of_app in Hx as [Hx|Hx]; [by left|].
        apply list_elem_of_singleton in Hx as ->.
        right. apply list_elem_of_here.
      * intros x Hx. apply Hkeep, elem_of_app. by left.
Qed.

Lemma unique_values_spec l :
  NoDup (unique_values l) ∧ ∀ x, x ∈ unique_values l ↔ x ∈ l.
Proof.
  destruct (fold_first id
              (λ acc x, if bool_decide (x ∈ acc) then acc else acc ++ [x])
              l []) as (Hnodup & Hkeys & _).
  { intros acc x. rewrite list_fmap_id. simpl.
    case_bool_decide; [by left|by right]. }
  unfold unique_values. rewrite !list_fmap_id in *. split.
  - apply Hnodup. constructor.
  - intros x. rewrite Hkeys, elem_of_nil. tauto.
Qed.

Lemma find_label_Some (acc : list CategoryOption) label :
  is_Some (find (λ existing, bool_decide (opt_label existing = label)) acc)
  ↔ label ∈ opt_label <$> acc.
Proof.
  induction acc as [|o acc IH]; simpl.
  - rewrite elem_of_nil, is_Some_alt. tauto.
  - rewrite elem_of_cons. case_bool_decide as Ho.
    + split; [by left|by eexists].
    + rewrite IH. split; [by right|]. intros [?|?]; [congruence|done].
Qed.

(** X21: the options of the transaction table have pairwise distinct
    labels; every label of the hook's options and every category of a
    transaction is among them; an option that does not come from the hook
    stands for a category that some transaction carries and no hook
    option has as label, and its id begins with [legacy-], so that the
    categories page leaves it out; and options of system categories come
    first. *)
Theorem transaction_list_options `{Host} (transactions : list Transaction.t)
    (categories : list CategoryOption) :
  NoDup (opt_label <$> sortedCategoryOptions transactions categories)
  ∧ (∀ label,
       label ∈ opt_label <$> sortedCategoryOptions transactions categories
       ↔ label ∈ opt_label <$> categories
         ∨ label ∈ Transaction.category <$> transactions)
  ∧ (∀ option, option ∈ sortedCategoryOptions transactions categories →
       option ∈ categories
       ∨ (opt_id option = "legacy-" +:+ opt_label option
          ∧ startsWith (opt_id option) "legacy-" = true
          ∧ (opt_label option ∉ opt_label <$> categories)
          ∧ opt_label option ∈ Transaction.category <$> transactions))
  ∧ (∀ i j a b, i < j →
       sortedCategoryOptions transactions categories !! i = Some a →
       sortedCategoryOptions transactions categories !! j = Some b →
       opt_isSystem b = true → opt_isSystem a = true).
Proof.
  unfold sortedCategoryOptions.
  destruct (fold_first opt_label
              (λ acc option,
                 match find (λ existing,
                               bool_decide (opt_label existing
                                            = opt_label option)) acc with
                 | Some _ => acc
                 | None => acc ++ [option]
                 end)
              (categories ++ legacyCategories transactions categories) [])
    as (Hnodup & Hkeys & Hin & _).
  { intros acc x.
    pose proof (find_label_Some acc (opt_label x)) as Hfind.
    destruct (find _ acc) as [e|].
    - left. split; [|done]. apply Hfind. by eexists.
    - right. split; [|done]. intros Hx%Hfind. by destruct Hx. }
  fold (mergedCategoryOptions transactions categories) in Hnodup, Hkeys, Hin.
  destruct (unique_values_spec (Transaction.category <$> transactions))
    as [_ Hunique].
  assert (∀ o, o ∈ legacyCategories transactions categories ↔
            opt_id o = "legacy-" +:+ opt_label o
            ∧ opt_isSystem o = bool_decide (opt_label o = SYSTEM_CATEGORY_NAME)
            ∧ (opt_label o ∉ opt_label <$> categories)
            ∧ opt_label o ∈ Transaction.category <$> transactions)
    as Hlegacy.
  { intros o. unfold legacyCategories. rewrite list_elem_of_fmap. split.
    - intros (label & -> & [Hnot Hl%Hunique]%list_elem_of_filter). done.
    - intros (Hid & Hsys & Hnot & Hl). exists (opt_label o). split.
      + destruct o as [i l s]. simpl in *. by rewrite Hid, Hsys.
      + apply list_elem_of_filter. split; [done|]. by apply Hunique. }
  split_and!.
  - rewrite (sort_by_perm option_order). apply Hnodup. constructor.
  - intros label. rewrite (sort_by_perm option_order), Hkeys.
    rewrite elem_of_nil, fmap_app, elem_of_app. split.
    + intros [[]|[?|(o & -> & Ho%Hlegacy)%list_elem_of_fmap]];
        [by left|right; tauto].
    + intros [?|Hl]; [right; by left|].
      destruct (decide (label ∈ opt_label <$> categories));
        [right; by left|].
      right; right.
      apply (list_elem_of_fmap_2' opt_label _
               (mkOption ("legacy-" +:+ label) label
                  (bool_decide (label = SYSTEM_CATEGORY_NAME))));
        [|done].
      by apply Hlegacy.
  - intros option Ho%elem_of_sort_by.
    apply Hin in Ho as [[]%elem_of_nil|[?|Ho%Hlegacy]%elem_of_app];
      [by left|right].
    destruct Ho as (Hid & _ & Hnot & Hl). split_and!; [done| |done..].
    rewrite Hid. unfold startsWith.
    change ("legacy-" +:+ opt_label option)
      with (String "l" (String "e" (String "g" (String "a" (String "c"
              (String "y" (String "-" (opt_label option)))))))).
    done.
  - intros i j a b Hij Ha Hb.
    exact (StronglySorted_lookup_lt _ _ i j a b
             (sort_by_systems_first _) Hij Ha Hb).
Qed.

Lemma transaction_list_options_witness :
  "Travel → Fuel"
  ∈ opt_label <$> @sortedCategoryOptions example_host
                    (transactions rename_store)
                    (@categoryOptions example_host transport_view).
Proof.
  apply (proj1 (proj2 (@transaction_list_options example_host
                         (transactions rename_store)
                         (@categoryOptions example_host transport_view)))).
  right. by_evaluation.
Defined.

(** *** Well-formed collections *)

Lemma ancestor_in_ids cats a d :
  parents_exist cats → descendant_of cats a d → a ∈ Category.id <$> cats.
Proof. intros Hp. induction 1 as [a c Hc Hpar|a c d Hc Hpar _ _]; eauto. Qed.

(** With every parent present and no cycle, the parent links of a
    category lead to a root. *)
Lemma well_formed_reachable cats :
  parents_exist cats → acyclic cats → ∀ c, c ∈ cats → reachable cats c.
Proof.
  intros Hparents Hacyclic.
  assert (∀ n c, c ∈ cats →
            (∀ l, NoDup l →
               (∀ a, a ∈ l → descendant_of cats a (Category.id c)) →
               length l ≤ n) →
            reachable cats c) as Hbound.
  { induction n as [|n IH]; intros c Hc Hlen.
    - destruct (Category.parent_id c) as [pid|] eqn:Hpar;
        [|by apply reachable_root].
      specialize (Hlen [pid] (NoDup_singleton pid)). simpl in Hlen.
      assert (1 ≤ 0); [|lia]. apply Hlen.
      intros a ->%list_elem_of_singleton. by apply descendant_child.
    - destruct (Category.parent_id c) as [pid|] eqn:Hpar;
        [|by apply reachable_root].
      destruct (proj1 (list_elem_of_fmap _ _ _) (Hparents c pid Hc Hpar))
        as (p & -> & Hp).
      eapply reachable_child; [exact Hc|exact Hp|exact Hpar|].
      apply IH; [exact Hp|]. intros l Hnodup Hanc.
      assert (length (Category.id p :: l) ≤ S n) as Hle; [|simpl in Hle; lia].
      apply Hlen.
      + constructor; [|done]. intros Hin%Hanc. by apply (Hacyclic _ Hin).
      + intros a [->|Ha%Hanc]%elem_of_cons.
        * by apply descendant_child.
        * by eapply descendant_snoc. }
  intros c Hc. apply (Hbound (length cats) c Hc).
  intros l Hnodup Hanc. apply ids_length_le; [done|].
  intros a Ha%Hanc. by eapply ancestor_in_ids.
Qed.

(** X22: in a collection in which every named parent is present and no
    category is its own ancestor, nothing is left out: the tree build
    returns, and every category is a node of the forest and has an entry
    in the path map. *)
Theorem well_formed_collection_complete `{Host}
    (categories : list Category.t) :
  parents_exist categories → acyclic categories →
  ∃ tree pathMap,
    buildTreeAndPaths (S (length categories)) categories
    = Some (tree, pathMap)
    ∧ ∀ c, c ∈ categories →
        reachable categories c
        ∧ c ∈ flat_map flatten tree
        ∧ is_Some (pathMap !! Category.id c).
Proof.
  intros Hparents Hacyclic.
  destruct (buildTreeAndPaths_total_acyclic categories Hacyclic)
    as [[tree pm] Hb].
  exists tree, pm. split; [done|]. intros c Hc.
  pose proof (well_formed_reachable _ Hparents Hacyclic c Hc) as Hr.
  split_and!; [done| |].
  - by apply (buildTreeAndPaths_nodes _ _ _ _ Hb).
  - apply (pathMap_entry_iff _ _ _ _ _ Hb). by exists c.
Qed.

Lemma transport_example_parents : parents_exist transport_example.
Proof.
  intros c p Hc Hp.
  apply elem_of_cons in Hc as [->|Hc]; [done|].
  apply elem_of_cons in Hc as [->|Hc]; [done|].
  apply elem_of_cons in Hc as [->|Hc]; [|by apply elem_of_nil in Hc].
  injection Hp as <-. by_evaluation.
Qed.

Lemma well_formed_collection_complete_witness :
  ∃ tree pathMap,
    @buildTreeAndPaths example_host 4 transport_example = Some (tree, pathMap)
    ∧ is_Some (pathMap !! "f").
Proof.
  destruct (@well_formed_collection_complete example_host transport_example
              transport_example_parents transport_example_acyclic)
    as (tree & pm & Hb & Hall).
  exists tree, pm. split; [exact Hb|].
  apply (Hall (Category.mk "f" "Fuel" (Some "t") false)). by_evaluation.
Defined.

(** *** Operations keep the collection well formed *)

Lemma descendant_mono cats cats' a d :
  (∀ c p, c ∈ cats' → Category.parent_id c = Some p →
     ∃ c0, c0 ∈ cats ∧ Category.id c0 = Category.id c
           ∧ Category.parent_id c0 = Some p) →
  descendant_of cats' a d → descendant_of cats a d.
Proof.
  intros Hsub. induction 1 as [a c Hc Hp|a c d Hc Hp _ IH].
  - destruct (Hsub c a Hc Hp) as (c0 & Hc0 & <- & Hp0).
    by apply descendant_child.
  - destruct (Hsub c a Hc Hp) as (c0 & Hc0 & Hid & Hp0).
    eapply descendant_nested; [exact Hc0|exact Hp0|by rewrite Hid].
Qed.

Section Invariants.
Context `{Host}.

Lemma updateCategory_Ok_parent fuel view cid upd s cats' s' p :
  updateCategory fuel view cid upd s = (Ok cats', s') →
  upd_parent_id upd = Some (Some p) → p ≠ "" →
  p ≠ cid ∧ p ∉ default [] (descendantsMap view !! cid).
Proof.
  unfold updateCategory.
  destruct (find_category cid (categories view)) as [c|]; [|done].
  destruct (Category.is_system c); [done|].
  intros Hrun Hparent Hp%truthy_true. rewrite Hparent, Hp in Hrun.
  destruct (decide (p = cid)) as [Hself|Hself].
  { by rewrite (bool_decide_eq_true_2 _ Hself) in Hrun. }
  rewrite (bool_decide_eq_false_2 _ Hself) in Hrun.
  destruct (decide (p ∈ default [] (descendantsMap view !! cid)))
    as [Hin|Hnot]; [|done].
  by rewrite (bool_decide_eq_true_2 _ Hin) in Hrun.
Qed.

(** The parent links of the updated collection: those of the collection
    before, and the link from the updated category to its new parent. *)
Lemma updated_links (cats : list Category.t) cid trimmed parent c a :
  c ∈ (λ cat, if bool_decide (Category.id cat = cid)
              then apply_updates trimmed parent cat else cat) <$> cats →
  Category.parent_id c = Some a →
  (∃ c0, c0 ∈ cats ∧ Category.id c0 = Category.id c
         ∧ Category.parent_id c0 = Some a)
  ∨ (Category.id c = cid ∧ parent = Some (Some a)).
Proof.
  intros (c0 & -> & Hc0)%list_elem_of_fmap. case_bool_decide as Hid.
  - unfold apply_updates. simpl. destruct parent as [[q|]|]; simpl.
    + intros [= ->]. by right.
    + done.
    + intros Hp. left. by exists c0.
  - intros Hp. left. by exists c0.
Qed.

Lemma updated_descendant (cats : list Category.t) cid trimmed p a d :
  p ≠ cid → ¬ descendant_of cats cid p →
  descendant_of
    ((λ cat, if bool_decide (Category.id cat = cid)
             then apply_updates trimmed (Some (Some p)) cat else cat)
     <$> cats) a d →
  descendant_of cats a d
  ∨ ((a = p ∨ descendant_of cats a p)
     ∧ (d = cid ∨ descendant_of cats cid d)).
Proof.
  intros Hself Hdesc.
  induction 1 as [a c Hc Hp|a c d Hc Hp _ IH].
  - destruct (updated_links _ _ _ _ _ _ Hc Hp)
      as [(c0 & Hc0 & <- & Hp0)|[Hid [= ->]]].
    + left. by apply descendant_child.
    + right. split; [by left|by left].
  - destruct (updated_links _ _ _ _ _ _ Hc Hp)
      as [(c0 & Hc0 & Hid & Hp0)|[Hid [= ->]]].
    + rewrite <- Hid in IH. destruct IH as [IH|[Hup Hdown]].
      * left. by eapply descendant_nested.
      * right. split; [|done]. right. destruct Hup as [<-|Hup].
        -- by apply descendant_child.
        -- by eapply descendant_nested.
    + rewrite Hid in IH. destruct IH as [IH|[[Heq|Hup] _]].
      * right. split; [by left|by right].
      * by destruct Hself.
      * by destruct Hdesc.
Qed.

(** X23: a successful update never creates a parent cycle: when no id is
    the empty string, the collection after the update has no category that
    is its own ancestor, so the descendant map of the next render is
    built; and unique ids stay unique. *)
Theorem update_keeps_acyclic (fuel0 fuel : nat)
    (categories : list Category.t) (view : View) (store store' : Store)
    (categoryId : string) (updates : Updates) (updated : list Category.t) :
  render fuel0 categories = Some view →
  (∀ c, c ∈ categories → Category.id c ≠ "") →
  updateCategory fuel view categoryId updates store = (Ok updated, store') →
  acyclic updated
  ∧ is_Some (buildDescendantsMap (S (length updated)) updated)
  ∧ (unique_ids categories → unique_ids updated).
Proof.
  intros Hrender Hids Hrun.
  destruct (render_inv _ _ _ Hrender) as (Hcats & _ & Hdm).
  assert (acyclic categories) as Hacyclic.
  { apply (buildDescendantsMap_acyclic fuel0). by rewrite Hdm. }
  destruct (updateCategory_Ok _ _ _ _ _ _ _ Hrun)
    as (c & tree & newPathMap & Hfind & _ & _ & Hupdated & _ & _).
  rewrite Hcats in Hfind, Hupdated.
  pose proof (find_category_Some _ _ _ Hfind) as [Hc Hcid].
  assert (acyclic updated) as Hacyclic'.
  { destruct (upd_parent_id updates) as [[p|]|] eqn:Hparent.
    - assert (p ≠ categoryId ∧ ¬ descendant_of categories categoryId p)
        as [Hself Hdesc].
      { destruct (decide (p = "")) as [->|Hp].
        - split.
          + intros <-. by apply (Hids c Hc).
          + intros Hd%descendant_in_ids.
            apply list_elem_of_fmap in Hd as (x & Hx & Hin).
            by apply (Hids x Hin).
        - destruct (updateCategory_Ok_parent _ _ _ _ _ _ _ p Hrun Hparent Hp)
            as [Hself Hnot].
          split; [done|]. intros Hd. apply Hnot.
          destruct (view_descendants _ _ _ categoryId Hrender)
            as (l & -> & Hl).
          { rewrite <- Hcid. by apply list_elem_of_fmap_2. }
          simpl. by apply Hl. }
      intros x Hx. rewrite Hupdated in Hx.
      apply (updated_descendant _ _ _ _ _ _ Hself Hdesc) in Hx
        as [Hx|[[->|Hup] [->|Hdown]]].
      + by apply (Hacyclic x).
      + done.
      + done.
      + done.
      + apply Hdesc. by eapply descendant_trans.
    - intros x Hx. apply (Hacyclic x). rewrite Hupdated in Hx.
      eapply descendant_mono; [|exact Hx].
      intros c' a Hc' Ha.
      by destruct (updated_links _ _ _ _ _ _ Hc' Ha) as [?|[_ ?]].
    - intros x Hx. apply (Hacyclic x). rewrite Hupdated in Hx.
      eapply descendant_mono; [|exact Hx].
      intros c' a Hc' Ha.
      by destruct (updated_links _ _ _ _ _ _ Hc' Ha) as [?|[_ ?]]. }
  split_and!; [done|by apply buildDescendantsMap_total|].
  intros Hu. rewrite Hupdated. unfold unique_ids.
  rewrite <- list_fmap_compose.
  erewrite list_fmap_ext; [exact Hu|].
  intros i x _. simpl. by case_bool_decide.
Qed.

(** X24: a deletion keeps the collection well formed: the categories that
    remain name no deleted category as parent, so that, when every named
    parent was present before, every one is present afterwards and each
    remaining category is still reachable from a root; no cycle appears
    and unique ids stay unique. *)
Theorem delete_keeps_well_formed (fuel0 : nat)
    (categories : list Category.t) (view : View) (store store' : Store)
    (categoryId : string) (remaining : list Category.t) :
  render fuel0 categories = Some view →
  deleteCategory view categoryId store = (Ok remaining, store') →
  acyclic remaining
  ∧ (unique_ids categories → unique_ids remaining)
  ∧ (∀ c p, c ∈ remaining → Category.parent_id c = Some p →
       p ≠ categoryId ∧ ¬ descendant_of categories categoryId p)
  ∧ (parents_exist categories →
     parents_exist remaining ∧ ∀ c, c ∈ remaining → reachable remaining c).
Proof.
  intros Hrender Hrun.
  destruct (render_inv _ _ _ Hrender) as (Hcats & _ & Hdm).
  assert (acyclic categories) as Hacyclic.
  { apply (buildDescendantsMap_acyclic fuel0). by rewrite Hdm. }
  destruct (deleteCategory_Ok _ _ _ _ _ Hrun) as (c & Hfind & _ & -> & _).
  rewrite Hcats in Hfind |- *.
  pose proof (affected_ids _ _ _ _ _ Hrender Hfind) as Haffected.
  assert (acyclic
            (filter (λ cat, Category.id cat
                            ∉ categoryId
                              :: default [] (descendantsMap view !! categoryId))
               categories)) as Hacyclic'.
  { intros x Hx. apply (Hacyclic x).
    eapply descendant_mono; [|exact Hx].
    intros c' a [_ Hc']%list_elem_of_filter Ha. by exists c'. }
  assert (∀ c p,
            c ∈ filter (λ cat, Category.id cat
                               ∉ categoryId
                                 :: default []
                                      (descendantsMap view !! categoryId))
                  categories →
            Category.parent_id c = Some p →
            p ≠ categoryId ∧ ¬ descendant_of categories categoryId p)
    as Hlinks.
  { intros c' p [Hkept Hc']%list_elem_of_filter Hp.
    rewrite Haffected in Hkept. split.
    - intros ->. apply Hkept. right. by apply descendant_child.
    - intros Hd. apply Hkept. right. by eapply descendant_snoc. }
  split_and!; [done|by apply unique_ids_filter|done|].
  intros Hparents.
  assert (parents_exist
            (filter (λ cat, Category.id cat
                            ∉ categoryId
                              :: default [] (descendantsMap view !! categoryId))
               categories)) as Hparents'.
  { intros c' p Hc' Hp.
    destruct (Hlinks c' p Hc' Hp) as [Hself Hdesc].
    apply list_elem_of_filter in Hc' as [_ Hc'].
    destruct (proj1 (list_elem_of_fmap _ _ _) (Hparents c' p Hc' Hp))
      as (q & -> & Hq).
    apply list_elem_of_fmap_2, list_elem_of_filter. split; [|done].
    rewrite Haffected. tauto. }
  split; [done|]. by apply well_formed_reachable.
Qed.
End Invariants.

Lemma moved_run :
  @updateCategory example_host 4 transport_view "f"
    (mkUpdates None (Some None)) rename_store
  = (Ok moved_categories, moved_store).
Proof. vm_compute. reflexivity. Qed.

Lemma transport_ids c : c ∈ transport_example → Category.id c ≠ "".
Proof. revert c. apply (proj1 (Forall_forall _ _)). by_evaluation. Qed.

Lemma update_keeps_acyclic_witness :
  acyclic moved_categories ∧ unique_ids moved_categories.
Proof.
  destruct (@update_keeps_acyclic example_host 4 4 transport_example
              transport_view rename_store moved_store "f"
              (mkUpdates None (Some None)) moved_categories
              transport_render transport_ids moved_run)
    as (Hacyclic & _ & Hu).
  split; [exact Hacyclic|exact (Hu transport_example_unique)].
Defined.

Lemma fuel_deleted_run :
  @deleteCategory example_host transport_view "f" rename_store
  = (Ok fuel_deleted_categories, fuel_deleted_store).
Proof. vm_compute. reflexivity. Qed.

Lemma delete_keeps_well_formed_witness :
  parents_exist fuel_deleted_categories
  ∧ ∀ c, c ∈ fuel_deleted_categories → reachable fuel_deleted_categories c.
Proof.
  destruct (@delete_keeps_well_formed example_host 4 transport_example
              transport_view rename_store fuel_deleted_store "f"
              fuel_deleted_categories transport_render fuel_deleted_run)
    as (_ & _ & _ & Hwf).
  exact (Hwf transport_example_parents).
Defined.

(** *** Carriage returns *)

Lemma drop_while_app_keep {A} (p : A → bool) l k :
  drop_while p l ≠ [] → drop_while p (l ++ k) = drop_while p l ++ k.
Proof.
  induction l as [|x l IH]; simpl; [done|]. by destruct (p x).
Qed.

Lemma drop_while_all {A} (p : A → bool) l k :
  drop_while p l = [] → drop_while p (l ++ k) = drop_while p k.
Proof.
  induction l as [|x l IH]; simpl; [done|]. by destruct (p x).
Qed.

Lemma strip_ends_snoc l w :
  in_class white_space w = true → strip_ends (l ++ [w]) = strip_ends l.
Proof.
  intros Hw. unfold strip_ends.
  destruct (drop_while (in_class white_space) l) as [|x m] eqn:Hm.
  - rewrite (drop_while_all _ _ _ Hm). simpl. by rewrite Hw.
  - rewrite drop_while_app_keep by by rewrite Hm.
    rewrite Hm, rev_app_distr. simpl. by rewrite Hw.
Qed.

Lemma chars_snoc s c :
  is_continuation c = false → chars (s +:+ String c "") = chars s ++ [String c ""].
Proof.
  intros Hc. destruct s as [|b s]; simpl.
  - done.
  - by apply chars_go_snoc.
Qed.

Lemma trim_carriage_return s : trim (s +:+ String "013" "") = trim s.
Proof.
  rewrite !trim_strip_ends, chars_snoc by done.
  by rewrite strip_ends_snoc.
Qed.

Lemma split_snoc sep s c :
  c ≠ sep →
  ∃ l x, split sep s = l ++ [x]
         ∧ split sep (s +:+ String c "") = l ++ [x +:+ String c ""].
Proof.
  intros Hc. induction s as [|b s (l & x & Hs & Hsc)].
  - exists [], "". split; [done|]. simpl.
    by rewrite (bool_decide_eq_false_2 _ Hc).
  - rewrite string_app_cons. simpl. rewrite Hs, Hsc. case_bool_decide.
    + by exists ("" :: l), x.
    + destruct l as [|h l]; simpl.
      * by exists [], (String b x).
      * by exists (String b h :: l), x.
Qed.

(** X25: a carriage return at the end of a line changes nothing: the
    header row gives the same column names, a data line gives the same
    transaction or is skipped all the same, and so the loop over the data
    lines returns the same transactions. *)
Theorem carriage_return_ignored `{Host} :
  (∀ headerLine,
     headers_of (headerLine +:+ String "013" "") = headers_of headerLine)
  ∧ (∀ cols i line,
       parse_row cols i (line +:+ String "013" "") = parse_row cols i line)
  ∧ (∀ cols i lines,
       parse_rows cols i ((λ line, line +:+ String "013" "") <$> lines)
       = parse_rows cols i lines).
Proof.
  assert (∀ cols i line,
            parse_row cols i (line +:+ String "013" "")
            = parse_row cols i line) as Hrow.
  { intros cols i line. unfold parse_row. by rewrite trim_carriage_return. }
  split_and!; [|done|].
  - intros h. unfold headers_of.
    destruct (split_snoc ","%char h "013"%char) as (l & x & -> & ->);
      [done|].
    by rewrite !fmap_app, !fmap_cons, trim_carriage_return.
  - intros cols i lines. revert i.
    induction lines as [|line lines IH]; intros i; [done|].
    rewrite fmap_cons. cbn [parse_rows]. by rewrite Hrow, IH.
Qed.

(** *** Paths outside the subtree *)

Lemma lookup_eq_iff (pm pm' : PathMap) i :
  (∀ p, pm !! i = Some p ↔ pm' !! i = Some p) → pm' !! i = pm !! i.
Proof.
  intros Hiff. destruct (pm !! i) as [p|] eqn:Hp.
  - by apply Hiff.
  - destruct (pm' !! i) as [p'|]; [|done].
    by pose proof (proj2 (Hiff p') eq_refl).
Qed.

(** A category outside the subtree of [cid] keeps its path when the
    collection changes only inside that subtree. *)
Lemma has_path_outside_to cats cats' cid x p :
  (∀ y, y ∈ cats → Category.id y ≠ cid →
     ¬ descendant_of cats cid (Category.id y) → y ∈ cats') →
  Category.id x ≠ cid → ¬ descendant_of cats cid (Category.id x) →
  has_path cats x p → has_path cats' x p.
Proof.
  intros Hkept Hself Hout Hpath.
  induction Hpath as [x Hx Hr|x q pp Hx Hq Hpar _ IH].
  - apply has_path_root; [|done]. by apply Hkept.
  - assert (Category.id q ≠ cid) as Hq1.
    { intros Heq. apply Hout. apply descendant_child; [done|congruence]. }
    assert (¬ descendant_of cats cid (Category.id q)) as Hq2.
    { intros Hd. apply Hout. by eapply descendant_snoc. }
    eapply has_path_child; [by apply Hkept|by apply Hkept|done|by apply IH].
Qed.

Lemma has_path_outside_from cats cats' cid x p :
  (∀ y, y ∈ cats' → Category.id y ≠ cid → y ∈ cats) →
  Category.id x ≠ cid → ¬ descendant_of cats cid (Category.id x) →
  has_path cats' x p → has_path cats x p.
Proof.
  intros Hkept Hself Hout Hpath.
  induction Hpath as [x Hx Hr|x q pp Hx Hq Hpar _ IH].
  - apply has_path_root; [|done]. by apply Hkept.
  - pose proof (Hkept x Hx Hself) as Hx'.
    assert (Category.id q ≠ cid) as Hq1.
    { intros Heq. apply Hout. apply descendant_child; [done|congruence]. }
    assert (¬ descendant_of cats cid (Category.id q)) as Hq2.
    { intros Hd. apply Hout. by eapply descendant_snoc. }
    eapply has_path_child; [done|by apply Hkept|done|by apply IH].
Qed.

Section OutsidePaths.
Context `{Host}.

(** X26: an update changes no path outside the subtree of the updated
    category: with unique ids, every id that is neither the id of the
    updated category nor the id of one of its descendants has the same
    entry in the path map after the update as before, so that no
    transaction outside the cascade needs a new label. *)
Theorem update_changes_only_subtree (fuel0 fuel : nat)
    (categories : list Category.t) (view : View) (store store' : Store)
    (categoryId : string) (updates : Updates) (updated : list Category.t)
    (tree : list CategoryTreeNode) (newPathMap : PathMap) :
  render fuel0 categories = Some view → unique_ids categories →
  updateCategory fuel view categoryId updates store = (Ok updated, store') →
  buildTreeAndPaths fuel updated = Some (tree, newPathMap) →
  ∀ i, i ≠ categoryId → ¬ descendant_of categories categoryId i →
    newPathMap !! i = pathMap view !! i.
Proof.
  intros Hrender Hu Hrun Hb' i Hself Hout.
  destruct (render_inv _ _ _ Hrender) as (Hcats & [tree0 Hb] & _).
  destruct (updateCategory_Ok _ _ _ _ _ _ _ Hrun)
    as (c & tree1 & pm1 & _ & _ & _ & Hupdated & _ & _).
  rewrite Hcats in Hupdated.
  assert (Category.id <$> updated = Category.id <$> categories) as Hids.
  { rewrite Hupdated, <- list_fmap_compose. apply list_fmap_ext.
    intros k x _. simpl. by case_bool_decide. }
  assert (unique_ids updated) as Hu' by (unfold unique_ids; by rewrite Hids).
  assert (∀ y, Category.id y ≠ categoryId →
            y ∈ updated ↔ y ∈ categories) as Hsame.
  { intros y Hy. rewrite Hupdated, list_elem_of_fmap. split.
    - intros (y0 & -> & Hy0). case_bool_decide as Hid; [|done].
      destruct Hy. by rewrite <- Hid.
    - intros Hin. exists y. split; [|done].
      by rewrite bool_decide_eq_false_2. }
  destruct (decide (i ∈ Category.id <$> categories)) as [Hin|Hnotin].
  - apply list_elem_of_fmap in Hin as (x & -> & Hx).
    pose proof (proj2 (Hsame x Hself) Hx) as Hx'.
    apply lookup_eq_iff. intros p.
    rewrite (pathMap_lookup _ _ _ _ _ _ Hu Hb Hx).
    rewrite (pathMap_lookup _ _ _ _ _ _ Hu' Hb' Hx'). split.
    + apply (has_path_outside_to _ _ categoryId); [|done..].
      intros y Hy Hy1 _. by apply Hsame.
    + apply (has_path_outside_from _ _ categoryId); [|done..].
      intros y Hy Hy1. by apply Hsame.
  - transitivity (@None string).
    + apply eq_None_not_Some. intros His.
      apply (pathMap_entry_iff _ _ _ _ _ Hb') in His as (x & Hx & <- & _).
      apply Hnotin. rewrite <- Hids. by apply list_elem_of_fmap_2.
    + symmetry. apply eq_None_not_Some. intros His.
      apply (pathMap_entry_iff _ _ _ _ _ Hb) in His as (x & Hx & <- & _).
      apply Hnotin. by apply list_elem_of_fmap_2.
Qed.

(** X27: a deletion changes no path outside the deleted subtree: with
    unique ids, every id that is neither the id of the deleted category
    nor the id of one of its descendants has the same entry in the path
    map built from the remaining categories as before. *)
Theorem delete_keeps_other_paths (fuel0 fuel : nat)
    (categories : list Category.t) (view : View) (store store' : Store)
    (categoryId : string) (remaining : list Category.t)
    (tree : list CategoryTreeNode) (newPathMap : PathMap) :
  render fuel0 categories = Some view → unique_ids categories →
  deleteCategory view categoryId store = (Ok remaining, store') →
  buildTreeAndPaths fuel remaining = Some (tree, newPathMap) →
  ∀ i, i ≠ categoryId → ¬ descendant_of categories categoryId i →
    newPathMap !! i = pathMap view !! i.
Proof.
  intros Hrender Hu Hrun Hb' i Hself Hout.
  destruct (render_inv _ _ _ Hrender) as (Hcats & [tree0 Hb] & _).
  destruct (deleteCategory_Ok _ _ _ _ _ Hrun) as (c & Hfind & _ & Hrem & _).
  rewrite Hcats in Hfind, Hrem.
  pose proof (affected_ids _ _ _ _ _ Hrender Hfind) as Haffected.
  assert (∀ y, y ∈ remaining ↔
            y ∈ categories
            ∧ ¬ (Category.id y = categoryId
                 ∨ descendant_of categories categoryId (Category.id y)))
    as Hsame.
  { intros y. rewrite Hrem, list_elem_of_filter, Haffected. tauto. }
  assert (unique_ids remaining) as Hu'.
  { rewrite Hrem. by apply unique_ids_filter. }
  destruct (decide (i ∈ Category.id <$> categories)) as [Hin|Hnotin].
  - apply list_elem_of_fmap in Hin as (x & -> & Hx).
    assert (x ∈ remaining) as Hx' by (apply Hsame; tauto).
    apply lookup_eq_iff. intros p.
    rewrite (pathMap_lookup _ _ _ _ _ _ Hu Hb Hx).
    rewrite (pathMap_lookup _ _ _ _ _ _ Hu' Hb' Hx'). split.
    + apply (has_path_outside_to _ _ categoryId); [|done..].
      intros y Hy Hy1 Hy2. apply Hsame. tauto.
    + apply (has_path_outside_from _ _ categoryId); [|done..].
      intros y Hy _. by apply Hsame in Hy as [Hy _].
  - transitivity (@None string).
    + apply eq_None_not_Some. intros His.
      apply (pathMap_entry_iff _ _ _ _ _ Hb') in His as (x & Hx & <- & _).
      apply Hnotin. apply Hsame in Hx as [Hx _].
      by apply list_elem_of_fmap_2.
    + symmetry. apply eq_None_not_Some. intros His.
      apply (pathMap_entry_iff _ _ _ _ _ Hb) in His as (x & Hx & <- & _).
      apply Hnotin. by apply list_elem_of_fmap_2.
Qed.
End OutsidePaths.

Lemma update_changes_only_subtree_witness :
  renamed_paths !! "u" = pathMap transport_view !! "u".
Proof.
  apply (@update_changes_only_subtree example_host 4 4 transport_example
           transport_view rename_store renamed_store "t"
           (mkUpdates (Some "Travel") None) renamed_categories renamed_tree
           renamed_paths transport_render transport_example_unique
           rename_run renamed_build).
  - done.
  - intros Hd. apply descendant_last in Hd as (x & q & Hx & Hid & Hq & _).
    unfold transport_example in Hx.
    repeat (apply elem_of_cons in Hx as [->|Hx]; [simpl in *; congruence|]).
    by apply elem_of_nil in Hx.
Defined.

Lemma fuel_deleted_build :
  @buildTreeAndPaths example_host 3 fuel_deleted_categories
  = Some (fuel_deleted_tree, fuel_deleted_paths).
Proof. vm_compute. reflexivity. Qed.

Lemma delete_keeps_other_paths_witness :
  fuel_deleted_paths !! "t" = pathMap transport_view !! "t".
Proof.
  apply (@delete_keeps_other_paths example_host 4 3 transport_example
           transport_view rename_store fuel_deleted_store "f"
           fuel_deleted_categories fuel_deleted_tree fuel_deleted_paths
           transport_render transport_example_unique fuel_deleted_run
           fuel_deleted_build).
  - done.
  - intros Hd. apply descendant_last in Hd as (x & q & Hx & Hid & Hq & _).
    unfold transport_example in Hx.
    repeat (apply elem_of_cons in Hx as [->|Hx]; [simpl in *; congruence|]).
    by apply elem_of_nil in Hx.
Defined.


(** *** Reading a number *)

Lemma string_app_inv_head s a b : s +:+ a = s +:+ b → a = b.
Proof.
  induction s as [|c s IH]; [done|]. rewrite !string_app_cons.
  intros [= ?]. by apply IH.
Qed.

Lemma string_app_eq_nil s t : s +:+ t = "" → s = "" ∧ t = "".
Proof. destruct s; [by rewrite string_app_nil_l|by rewrite string_app_cons]. Qed.

(** *** Reading digits and signs *)

Lemma take_digits_rest s d r :
  take_digits s = (d, r) →
  s = d +:+ r ∧ is_digits d ∧ take_digits r = ("", r).
Proof.
  revert d r. induction s as [|c s IH]; intros d r; simpl.
  - by intros [= <- <-].
  - destruct (is_digit c) eqn:Hc.
    + destruct (take_digits s) as [d' r'] eqn:Hs. intros [= <- <-].
      destruct (IH d' r' eq_refl) as (-> & Hd & Hr).
      split_and!; [done| |done]. unfold is_digits. simpl. by rewrite Hc.
    + intros [= <- <-]. split_and!; [done..|]. simpl. by rewrite Hc.
Qed.

Lemma take_digits_app d x :
  is_digits d →
  take_digits (d +:+ x) = (d +:+ (take_digits x).1, (take_digits x).2).
Proof.
  unfold is_digits. induction d as [|c d IH]; simpl.
  - intros _. rewrite !string_app_nil_l. by destruct (take_digits x).
  - intros [Hc Hd]%andb_true_iff. rewrite !string_app_cons. simpl.
    rewrite Hc, (IH Hd). done.
Qed.

Lemma take_digits_other c x :
  is_digit c = false → take_digits (String c x) = ("", String c x).
Proof. intros Hc. simpl. by rewrite Hc. Qed.

Lemma take_sign_other c x :
  c ≠ "-"%char → c ≠ "+"%char → take_sign (String c x) = (false, String c x).
Proof.
  intros Hminus Hplus.
  destruct c as [[] [] [] [] [] [] [] []]; try done.
Qed.

Lemma take_sign_digit c x :
  is_digit c = true → take_sign (String c x) = (false, String c x).
Proof.
  intros Hc. apply take_sign_other; intros ->; by vm_compute in Hc.
Qed.

Lemma take_sign_reads s :
  ∃ sign, is_sign sign ∧ s = sign +:+ (take_sign s).2
          ∧ (take_sign s).1 = bool_decide (sign = "-").
Proof.
  destruct s as [|c s]; [exists ""; split_and!; by try left|].
  destruct (decide (c = "-"%char)) as [->|Hminus].
  { exists "-". split_and!; [by right; right|done..]. }
  destruct (decide (c = "+"%char)) as [->|Hplus].
  { exists "+". split_and!; [by right; left|done..]. }
  exists "". rewrite take_sign_other by done. split_and!; by try left.
Qed.

(** A sign in front of something that does not begin with one. *)
Lemma take_sign_signed sign body :
  is_sign sign → take_sign body = (false, body) →
  take_sign (sign +:+ body) = (bool_decide (sign = "-"), body).
Proof. by intros [->|[->| ->]] Hbody. Qed.

Lemma is_digits_cons c d : is_digits (String c d) → is_digit c = true.
Proof. unfold is_digits. simpl. by intros [? _]%andb_true_iff. Qed.

Lemma take_sign_digits d x :
  is_digits d → d ≠ "" → take_sign (d +:+ x) = (false, d +:+ x).
Proof.
  destruct d as [|c d]; [done|]. intros Hc%is_digits_cons _.
  rewrite string_app_cons. by apply take_sign_digit.
Qed.

(** *** The exponent *)

Lemma take_exponent_reads s :
  ∃ expo rest,
    s = expo +:+ rest ∧ exponent_part expo (take_exponent s)
    ∧ ∀ expo' e' rest', s = expo' +:+ rest' → exponent_part expo' e' →
        String.length expo' ≤ String.length expo.
Proof.
  destruct s as [|c s'].
  { exists "", "". split_and!; [done|constructor|].
    intros expo' e' rest' Heq _. symmetry in Heq.
    by apply string_app_eq_nil in Heq as [-> _]. }
  simpl take_exponent. case_bool_decide as Hmark.
  - destruct (take_sign_reads s') as (sign & Hsign & Hs' & Hneg).
    destruct (take_sign s') as [negative s''] eqn:Hts. simpl in Hs', Hneg.
    destruct (take_digits s'') as [d r] eqn:Hd.
    destruct (take_digits_rest _ _ _ Hd) as (Hs'' & Hdigits & Hr).
    assert (∀ expo' e' rest',
              String c s' = expo' +:+ rest' → exponent_part expo' e' →
              expo' = "" ∨
              ∃ sign' digits' x,
                expo' = String c "" +:+ sign' +:+ digits'
                ∧ String.length sign' = String.length sign
                ∧ digits' ≠ "" ∧ d = digits' +:+ x) as Hmax.
    { intros expo' e' rest' Heq Hexp.
      destruct Hexp as [|mark sign' digits' Hm Hsign' Hdig Hne]; [by left|].
      right. exists sign', digits', (take_digits rest').1.
      assert (mark = String c "" ∧ s' = sign' +:+ digits' +:+ rest')
        as [-> Hs1].
      { rewrite !string_app_assoc in Heq.
        destruct Hm as [-> | ->];
          rewrite string_app_cons, string_app_nil_l in Heq;
          by injection Heq as <- <-. }
      assert (take_sign s' = (bool_decide (sign' = "-"), digits' +:+ rest'))
        as Hts'.
      { rewrite Hs1. apply take_sign_signed; [done|].
        by apply take_sign_digits. }
      rewrite Hts in Hts'. injection Hts' as _ ->.
      rewrite take_digits_app in Hd by done. injection Hd as <- _.
      split_and!; [done| |done..].
      apply (f_equal String.length) in Hs1. rewrite Hs' in Hs1 at 1.
      rewrite !string_length_app in Hs1. lia. }
    destruct d as [|a d'].
    + exists "", (String c s'). split_and!; [done|constructor|].
      intros expo' e' rest' Heq Hexp.
      destruct (Hmax _ _ _ Heq Hexp)
        as [->|(sign' & digits' & x & _ & _ & Hne & Hx)]; [done|].
      exfalso. symmetry in Hx. by apply string_app_eq_nil in Hx as [-> _].
    + exists (String c "" +:+ sign +:+ String a d'), r. split_and!.
      * rewrite !string_app_assoc, string_app_cons, string_app_nil_l.
        by rewrite <-Hs'', <-Hs'.
      * replace (if negative then _ else _)
          with (signed sign (digits_value (String a d')))
          by (unfold signed; by rewrite Hneg).
        apply exponent_some; try done.
        destruct Hmark as [-> | ->]; auto.
      * intros expo' e' rest' Heq Hexp.
        destruct (Hmax _ _ _ Heq Hexp)
          as [->|(sign' & digits' & x & -> & Hlen & _ & Hx)]; [simpl; lia|].
        rewrite Hx, !string_length_app. lia.
  - exists "", (String c s'). split_and!; [done|constructor|].
    intros expo' e' rest' Heq Hexp.
    destruct Hexp as [|mark sign' digits' Hm]; [done|].
    exfalso. apply Hmark. rewrite !string_app_assoc in Heq.
    destruct Hm as [-> | ->]; rewrite string_app_cons in Heq;
      injection Heq as -> _; auto.
Qed.

Lemma exponent_start expo e :
  exponent_part expo e →
  expo = "" ∨ ∃ c x, expo = String c x ∧ (c = "e"%char ∨ c = "E"%char).
Proof.
  intros [|mark sign digits [-> | ->] _ _ _]; [by left|right..];
    rewrite string_app_cons; eauto.
Qed.

Lemma take_digits_mark c x :
  c = "e"%char ∨ c = "E"%char → take_digits (String c x) = ("", String c x).
Proof. by intros [-> | ->]. Qed.

Lemma take_fraction_other c s :
  c ≠ "."%char →
  match String c s with
  | String "." s2' => take_digits s2'
  | _ => (EmptyString, String c s)
  end = (EmptyString, String c s).
Proof. intros Hc. destruct c as [[] [] [] [] [] [] [] []]; done. Qed.

Lemma string_nonempty_length s : s ≠ "" → 0 < String.length s.
Proof. destruct s; [done|simpl; lia]. Qed.

Lemma string_length_nonempty s : 0 < String.length s → s ≠ "".
Proof. destruct s; [simpl; lia|done]. Qed.

(** *** The digits, the fraction and the exponent *)

Lemma numeral_reads s1 int s2 frac s3 :
  take_digits s1 = (int, s2) →
  match s2 with
  | String "." s2' => take_digits s2'
  | _ => (EmptyString, s2)
  end = (frac, s3) →
  ∃ point expo rest,
    s1 = int +:+ point +:+ frac +:+ expo +:+ rest
    ∧ is_digits int ∧ is_digits frac
    ∧ (point = "." ∨ point = "" ∧ frac = "")
    ∧ exponent_part expo (take_exponent s3)
    ∧ ∀ int' point' frac' expo' e' rest',
        s1 = int' +:+ point' +:+ frac' +:+ expo' +:+ rest' →
        is_digits int' → is_digits frac' → int' +:+ frac' ≠ "" →
        point' = "." ∨ point' = "" ∧ frac' = "" →
        exponent_part expo' e' →
        int +:+ frac ≠ ""
        ∧ String.length (int' +:+ point' +:+ frac' +:+ expo')
          ≤ String.length (int +:+ point +:+ frac +:+ expo).
Proof.
  intros Hint Hfrac.
  destruct (take_digits_rest _ _ _ Hint) as (Hs1 & Hdi & Hs2).
  destruct (take_exponent_reads s3) as (expo & rest & Hs3 & Hexp & Hexpmax).
  (* what the digits of another reading tell *)
  assert (∀ int' y, s1 = int' +:+ y → is_digits int' →
            int = int' +:+ (take_digits y).1 ∧ s2 = (take_digits y).2)
    as Hprefix.
  { intros int' y -> Hd'. rewrite take_digits_app in Hint by done.
    by injection Hint as <- <-. }
  assert (s2 = "" ∨ (∃ s2', s2 = String "." s2')
          ∨ ∃ c s2', s2 = String c s2' ∧ c ≠ "."%char) as Hcase.
  { destruct s2 as [|c s2']; [by left|right].
    destruct (decide (c = "."%char)) as [->|?]; eauto. }
  destruct Hcase as [Hnil|[[s2' Heq]|(c & s2' & Heq & Hc)]]; subst s2.
  - (* nothing after the digits *)
    injection Hfrac as <- <-.
    symmetry in Hs3. apply string_app_eq_nil in Hs3 as [-> ->].
    exists "", "", "".
    split_and!; [by rewrite Hs1, !string_app_nil_r|done..|by right|done|].
    intros int' point' frac' expo' e' rest' Heq Hd' Hf' Hne Hpoint Hexp'.
    destruct (Hprefix _ _ Heq Hd') as [Hi Hrest].
    apply string_nonempty_length in Hne.
    apply (f_equal String.length) in Hi.
    rewrite string_length_app in Hi, Hne.
    destruct Hpoint as [->|[-> ->]].
    + by rewrite string_app_cons, string_app_nil_l in Hrest.
    + rewrite !string_app_nil_l in Hrest.
      destruct (exponent_start _ _ Hexp') as [->|(m & x & -> & Hm)].
      * split; [apply string_length_nonempty|];
          rewrite !string_length_app; simpl in *; lia.
      * by rewrite string_app_cons, take_digits_mark in Hrest.
  - (* a point after the digits *)
    destruct (take_digits_rest _ _ _ Hfrac) as (-> & Hdf & Hs3').
    exists ".", expo, rest. split_and!; [|done..|by left|done|].
    { rewrite Hs1, Hs3. by rewrite string_app_cons, string_app_nil_l. }
    intros int' point' frac' expo' e' rest' Heq Hd' Hf' Hne Hpoint Hexp'.
    destruct (Hprefix _ _ Heq Hd') as [Hi Hrest].
    apply string_nonempty_length in Hne.
    apply (f_equal String.length) in Hi.
    rewrite string_length_app in Hi, Hne.
    destruct Hpoint as [->|[-> ->]].
    + rewrite string_app_cons, string_app_nil_l in Hi, Hrest.
      simpl in Hi, Hrest. injection Hrest as Hrest.
      assert (frac = frac' +:+ (take_digits (expo' +:+ rest')).1
              ∧ s3 = (take_digits (expo' +:+ rest')).2) as [Hf Hs3''].
      { rewrite Hrest in Hfrac. rewrite take_digits_app in Hfrac by done.
        by injection Hfrac as <- <-. }
      apply (f_equal String.length) in Hf.
      rewrite string_length_app in Hf.
      destruct (exponent_start _ _ Hexp') as [->|(m & x & -> & Hm)].
      * split; [apply string_length_nonempty|];
          rewrite !string_length_app; simpl in *; lia.
      * rewrite string_app_cons, take_digits_mark in Hf, Hs3'' by done.
        simpl in Hf, Hs3''.
        assert (String.length (String m x) ≤ String.length expo) as Hle.
        { eapply (Hexpmax _ e' rest'); [|done].
          by rewrite Hs3'', string_app_cons. }
        split; [apply string_length_nonempty|];
          rewrite !string_length_app; simpl in *; lia.
    + rewrite !string_app_nil_l in Hrest, Hi.
      destruct (exponent_start _ _ Hexp') as [->|(m & x & -> & Hm)].
      * split; [apply string_length_nonempty|];
          rewrite !string_length_app; simpl in *; lia.
      * rewrite string_app_cons, take_digits_mark in Hrest by done.
        simpl in Hrest. injection Hrest as <- _.
        by destruct Hm.
  - (* something else after the digits *)
    rewrite take_fraction_other in Hfrac by done. injection Hfrac as <- <-.
    exists "", expo, rest. split_and!; [|done..|by right|done|].
    { rewrite Hs1, Hs3. by rewrite !string_app_nil_l. }
    intros int' point' frac' expo' e' rest' Heq Hd' Hf' Hne Hpoint Hexp'.
    destruct (Hprefix _ _ Heq Hd') as [Hi Hrest].
    apply string_nonempty_length in Hne.
    apply (f_equal String.length) in Hi.
    rewrite string_length_app in Hi, Hne.
    destruct Hpoint as [->|[-> ->]].
    + rewrite string_app_cons, string_app_nil_l in Hrest.
      simpl in Hrest. by injection Hrest as -> _.
    + rewrite !string_app_nil_l in Hrest, Hi.
      destruct (exponent_start _ _ Hexp') as [->|(m & x & -> & Hm)].
      * split; [apply string_length_nonempty|];
          rewrite !string_length_app; simpl in *; lia.
      * rewrite string_app_cons, take_digits_mark in Hi, Hrest by done.
        simpl in Hi, Hrest.
        assert (String.length (String m x) ≤ String.length expo) as Hle.
        { eapply (Hexpmax _ e' rest'); [|done].
          by rewrite Hrest, string_app_cons. }
        split; [apply string_length_nonempty|];
          rewrite !string_length_app; simpl in *; lia.
Qed.

Lemma drop_prefix_Some p s r : drop_prefix p s = Some r → s = p +:+ r.
Proof.
  revert s. induction p as [|a p IH]; intros s; simpl.
  - by intros [= ->].
  - destruct s as [|b s]; [done|]. case_bool_decide as Hab; [|done].
    intros ->%IH. by rewrite Hab, string_app_cons.
Qed.

Lemma drop_prefix_app p r : drop_prefix p (p +:+ r) = Some r.
Proof.
  induction p as [|a p IH]; [done|]. rewrite string_app_cons. simpl.
  by rewrite bool_decide_eq_true_2.
Qed.

(** A numeral begins with a digit or with the point. *)
Lemma numeral_start int point frac tail :
  is_digits int → int +:+ frac ≠ "" →
  point = "." ∨ point = "" ∧ frac = "" →
  ∃ c x, int +:+ point +:+ frac +:+ tail = String c x
         ∧ (is_digit c = true ∨ c = "."%char).
Proof.
  intros Hd Hne Hpoint. destruct int as [|c int].
  - rewrite string_app_nil_l in *.
    destruct Hpoint as [->|[_ ->]]; [|done].
    rewrite string_app_cons. eauto.
  - rewrite string_app_cons. apply is_digits_cons in Hd. eauto.
Qed.

Lemma take_sign_numeral c x :
  is_digit c = true ∨ c = "."%char →
  take_sign (String c x) = (false, String c x).
Proof. intros [Hc| ->]; [by apply take_sign_digit|done]. Qed.

(** [parseFloat] reads the longest prefix that is a decimal number. *)
Lemma parseFloat_reads s :
  trimStart s = s →
  (∃ literal rest,
     s = literal +:+ rest ∧ decimal_literal literal (parseFloat s)
     ∧ ∀ literal' rest' v',
         s = literal' +:+ rest' → decimal_literal literal' v' →
         String.length literal' ≤ String.length literal)
  ∨ (parseFloat s = NaN
     ∧ ∀ literal rest v, s = literal +:+ rest → ¬ decimal_literal literal v).
Proof.
  intros Htrim. unfold parseFloat. rewrite Htrim.
  destruct (take_sign_reads s) as (sign & Hsign & Hs & Hneg).
  destruct (take_sign s) as [negative s1] eqn:Hts. simpl in Hs, Hneg.
  subst negative.
  assert (∀ sign' body, is_sign sign' →
            take_sign body = (false, body) → s = sign' +:+ body →
            s1 = body ∧ String.length sign' = String.length sign) as Hbody.
  { intros sign' body Hsign' Hb Heq.
    pose proof (take_sign_signed _ _ Hsign' Hb) as Hts'.
    rewrite <-Heq, Hts in Hts'. injection Hts' as _ ->. split; [done|].
    rewrite Hs in Heq at 1. apply (f_equal String.length) in Heq.
    rewrite !string_length_app in Heq. lia. }
  destruct (drop_prefix "Infinity" s1) as [r|] eqn:Hinf.
  - left. apply drop_prefix_Some in Hinf as Hs1. subst s1.
    exists (sign +:+ "Infinity"), r. split_and!.
    + by rewrite string_app_assoc.
    + by constructor.
    + intros literal' rest' v' Heq Hlit.
      destruct Hlit as [sign' Hsign'
                       |sign' int point frac expo e Hsign' Hdi Hdf Hne Hpoint _].
      * rewrite string_app_assoc in Heq.
        destruct (Hbody sign' ("Infinity" +:+ rest') Hsign' eq_refl Heq)
          as [_ Hlen].
        rewrite !string_length_app. lia.
      * exfalso. rewrite !string_app_assoc in Heq.
        destruct (numeral_start int point frac (expo +:+ rest') Hdi Hne Hpoint)
          as (c & x & Hstart & Hc).
        rewrite Hstart in Heq.
        destruct (Hbody sign' (String c x) Hsign' (take_sign_numeral _ _ Hc) Heq)
          as [Heq' _].
        injection Heq' as <- _. by destruct Hc.
  - destruct (take_digits s1) as [int s2] eqn:Hint.
    match goal with |- context [let '(_, _) := ?m in _] =>
      destruct m as [frac s3] eqn:Hfrac end.
    destruct (numeral_reads _ _ _ _ _ Hint Hfrac)
      as (point & expo & rest & Hs1 & Hdi & Hdf & Hpoint & Hexp & Hmax).
    assert (∀ literal rest' v,
              s = literal +:+ rest' → decimal_literal literal v →
              int +:+ frac ≠ ""
              ∧ String.length literal
                ≤ String.length (sign +:+ int +:+ point +:+ frac +:+ expo))
      as Hlonger.
    { intros literal rest' v Heq Hlit.
      destruct Hlit as [sign' Hsign'
                       |sign' int' point' frac' expo' e' Hsign' Hdi' Hdf' Hne'
                          Hpoint' Hexp'].
      - exfalso. rewrite string_app_assoc in Heq.
        destruct (Hbody sign' ("Infinity" +:+ rest') Hsign' eq_refl Heq)
          as [-> _].
        by rewrite drop_prefix_app in Hinf.
      - rewrite !string_app_assoc in Heq.
        destruct (numeral_start int' point' frac' (expo' +:+ rest')
                    Hdi' Hne' Hpoint') as (c & x & Hstart & Hc).
        assert (take_sign (int' +:+ point' +:+ frac' +:+ expo' +:+ rest')
                = (false, int' +:+ point' +:+ frac' +:+ expo' +:+ rest'))
          as Hns.
        { rewrite Hstart. by apply take_sign_numeral. }
        destruct (Hbody sign' _ Hsign' Hns Heq) as [Heq' Hlen].
        destruct (Hmax _ _ _ _ _ _ Heq' Hdi' Hdf' Hne' Hpoint' Hexp')
          as [Hne Hle].
        split; [done|].
        rewrite (string_length_app sign'), (string_length_app sign). lia. }
    destruct (int +:+ frac) as [|a ds] eqn:Hds.
    + right. split; [done|]. intros literal rest' v Heq Hlit.
      by destruct (Hlonger _ _ _ Heq Hlit).
    + left. exists (sign +:+ int +:+ point +:+ frac +:+ expo), rest.
      split_and!.
      * rewrite Hs at 1. rewrite Hs1. by rewrite !string_app_assoc.
      * rewrite <-Hds.
        replace (if bool_decide (sign = "-") then _ else _)
          with (signed sign (digits_value (int +:+ frac))) by done.
        apply literal_digits; try done. by rewrite Hds.
      * intros literal' rest' v' Heq Hlit.
        by destruct (Hlonger _ _ _ Heq Hlit).
Qed.

(** Nothing is left to trim in a cleaned amount. *)
Lemma trimStart_clean_amount value :
  trimStart (clean_amount value) = clean_amount value.
Proof.
  unfold trimStart.
  rewrite <-(concat_chars (clean_amount value)) at 2. f_equal.
  assert (Forall (λ ch, in_class white_space ch = false)
            (chars (clean_amount value))) as Hall.
  { unfold clean_amount. rewrite !chars_remove_class.
    apply Forall_forall.
    intros ch [_ [Hch _]%list_elem_of_filter]%list_elem_of_filter.
    unfold in_class in *. apply bool_decide_eq_false.
    apply bool_decide_eq_false in Hch. intros Hin. apply Hch.
    unfold currency_class. apply elem_of_app. by right. }
  destruct Hall as [|ch l Hch _]; [done|]. simpl. by rewrite Hch.
Qed.

(** Every character of a decimal number is one it can be written with. *)
Lemma all_chars_impl (p q : ascii → bool) s :
  (∀ c, p c = true → q c = true) →
  all_chars p s = true → all_chars q s = true.
Proof.
  intros Hpq. induction s as [|c s IH]; [done|]. simpl.
  intros [Hc Hs]%andb_true_iff. by rewrite (Hpq c Hc), IH.
Qed.

Lemma is_sign_chars sign : is_sign sign → all_chars literal_char sign = true.
Proof. intros [->|[->| ->]]; vm_compute; reflexivity. Qed.

Lemma is_digits_chars d : is_digits d → all_chars literal_char d = true.
Proof.
  apply all_chars_impl. intros c Hc. unfold literal_char. by rewrite Hc.
Qed.

Lemma exponent_chars expo e :
  exponent_part expo e → all_chars literal_char expo = true.
Proof.
  intros [|mark sign digits Hm Hsign Hd _]; [done|].
  rewrite !all_chars_app, (is_sign_chars sign), (is_digits_chars digits)
    by done.
  destruct Hm as [-> | ->]; vm_compute; reflexivity.
Qed.

Lemma decimal_literal_chars literal v :
  decimal_literal literal v → all_chars literal_char literal = true.
Proof.
  intros [sign Hsign|sign int point frac expo e Hsign Hdi Hdf _ Hpoint Hexp].
  - rewrite all_chars_app, is_sign_chars by done. vm_compute. reflexivity.
  - rewrite !all_chars_app, (is_sign_chars sign), (is_digits_chars int),
      (is_digits_chars frac) by done.
    rewrite (exponent_chars _ _ Hexp).
    destruct Hpoint as [->|[-> _]]; vm_compute; reflexivity.
Qed.

(** *** A decimal number has one value *)

Lemma take_sign_plain_digits d :
  is_digits d → d ≠ "" → take_sign d = (false, d).
Proof.
  intros Hd Hne. rewrite <-(string_app_nil_r d). by apply take_sign_digits.
Qed.

Lemma signed_flag sign sign' m :
  bool_decide (sign = "-") = bool_decide (sign' = "-") →
  signed sign m = signed sign' m.
Proof. unfold signed. by intros ->. Qed.

Lemma exponent_part_inv expo e :
  exponent_part expo e →
  (expo = "" ∧ e = 0%Z)
  ∨ ∃ mark sign digits,
      (mark = "e" ∨ mark = "E") ∧ is_sign sign ∧ is_digits digits
      ∧ digits ≠ "" ∧ expo = mark +:+ sign +:+ digits
      ∧ e = signed sign (digits_value digits).
Proof. intros [|mark sign digits]; [left|right]; eauto 10. Qed.

Lemma decimal_literal_inv literal v :
  decimal_literal literal v →
  (∃ sign, is_sign sign ∧ literal = sign +:+ "Infinity"
           ∧ v = Infinity (bool_decide (sign = "-")))
  ∨ ∃ sign int point frac expo e,
      is_sign sign ∧ is_digits int ∧ is_digits frac ∧ int +:+ frac ≠ ""
      ∧ (point = "." ∨ point = "" ∧ frac = "") ∧ exponent_part expo e
      ∧ literal = sign +:+ int +:+ point +:+ frac +:+ expo
      ∧ v = Dec (signed sign (digits_value (int +:+ frac)))
                (e - Z.of_nat (String.length frac)).
Proof.
  intros [sign|sign int point frac expo e]; [left|right]; eauto 15.
Qed.

Lemma exponent_part_functional expo e e' :
  exponent_part expo e → exponent_part expo e' → e = e'.
Proof.
  intros [[-> ->]|(mark & sign & digits & Hm & Hsign & Hd & Hne & -> & ->)]
           %exponent_part_inv
         [[Heq ->]|(mark' & sign' & digits' & Hm' & Hsign' & Hd' & Hne' & Heq
                    & ->)]%exponent_part_inv.
  - done.
  - exfalso. destruct Hm' as [-> | ->]; by rewrite string_app_cons in Heq.
  - exfalso. destruct Hm as [-> | ->]; by rewrite string_app_cons in Heq.
  - assert (sign +:+ digits = sign' +:+ digits') as Hbody.
    { destruct Hm as [-> | ->], Hm' as [-> | ->];
        rewrite !string_app_cons, !string_app_nil_l in Heq;
        by injection Heq. }
    pose proof (take_sign_signed _ _ Hsign
                  (take_sign_plain_digits _ Hd Hne)) as Hts.
    pose proof (take_sign_signed _ _ Hsign'
                  (take_sign_plain_digits _ Hd' Hne')) as Hts'.
    rewrite Hbody, Hts' in Hts. injection Hts as Hflag ->.
    by apply signed_flag.
Qed.

Lemma take_digits_exponent expo e :
  exponent_part expo e → take_digits expo = ("", expo).
Proof.
  intros [->|(c & x & -> & Hc)]%exponent_start; [done|].
  by apply take_digits_mark.
Qed.

Lemma take_digits_fraction frac expo e :
  is_digits frac → exponent_part expo e →
  take_digits (frac +:+ expo) = (frac, expo).
Proof.
  intros Hd Hexp. rewrite take_digits_app by done.
  rewrite (take_digits_exponent _ _ Hexp). simpl.
  by rewrite string_app_nil_r.
Qed.

Lemma take_digits_numeral int point frac expo e :
  is_digits int → is_digits frac →
  point = "." ∨ point = "" ∧ frac = "" → exponent_part expo e →
  take_digits (int +:+ point +:+ frac +:+ expo)
  = (int, point +:+ frac +:+ expo).
Proof.
  intros Hdi Hdf Hpoint Hexp. rewrite take_digits_app by done.
  assert (take_digits (point +:+ frac +:+ expo)
          = ("", point +:+ frac +:+ expo)) as ->.
  { destruct Hpoint as [->|[-> ->]].
    - by rewrite string_app_cons.
    - rewrite !string_app_nil_l. by eapply take_digits_exponent. }
  simpl. by rewrite string_app_nil_r.
Qed.

Lemma take_sign_literal sign int point frac expo :
  is_sign sign → is_digits int → int +:+ frac ≠ "" →
  point = "." ∨ point = "" ∧ frac = "" →
  take_sign (sign +:+ int +:+ point +:+ frac +:+ expo)
  = (bool_decide (sign = "-"), int +:+ point +:+ frac +:+ expo).
Proof.
  intros Hsign Hdi Hne Hpoint. apply take_sign_signed; [done|].
  destruct (numeral_start int point frac expo Hdi Hne Hpoint)
    as (c & x & -> & Hc).
  by apply take_sign_numeral.
Qed.

Lemma decimal_literal_functional literal v v' :
  decimal_literal literal v → decimal_literal literal v' → v = v'.
Proof.
  intros [(sign & Hsign & -> & ->)
         |(sign & int & point & frac & expo & e & Hsign & Hdi & Hdf & Hne
           & Hpoint & Hexp & -> & ->)]%decimal_literal_inv
         [(sign' & Hsign' & Heq & ->)
         |(sign' & int' & point' & frac' & expo' & e' & Hsign' & Hdi' & Hdf'
           & Hne' & Hpoint' & Hexp' & Heq & ->)]%decimal_literal_inv.
  - pose proof (take_sign_signed sign "Infinity" Hsign eq_refl) as Hts.
    pose proof (take_sign_signed sign' "Infinity" Hsign' eq_refl) as Hts'.
    rewrite Heq, Hts' in Hts. by injection Hts as ->.
  - exfalso.
    pose proof (take_sign_signed sign "Infinity" Hsign eq_refl) as Hts.
    rewrite Heq, take_sign_literal in Hts by done.
    injection Hts as _ Hbody.
    destruct (numeral_start int' point' frac' expo' Hdi' Hne' Hpoint')
      as (c & x & Hstart & Hc).
    rewrite Hstart in Hbody. injection Hbody as -> _. by destruct Hc.
  - exfalso.
    pose proof (take_sign_signed sign' "Infinity" Hsign' eq_refl) as Hts.
    rewrite <-Heq, take_sign_literal in Hts by done.
    injection Hts as _ Hbody.
    destruct (numeral_start int point frac expo Hdi Hne Hpoint)
      as (c & x & Hstart & Hc).
    rewrite Hstart in Hbody. injection Hbody as -> _. by destruct Hc.
  - pose proof (take_sign_literal sign int point frac expo
                  Hsign Hdi Hne Hpoint) as Hts.
    rewrite Heq, take_sign_literal in Hts by done.
    injection Hts as Hflag Hbody.
    pose proof (take_digits_numeral int point frac expo e
                  Hdi Hdf Hpoint Hexp) as Htd.
    rewrite <-Hbody, (take_digits_numeral _ _ _ _ e') in Htd by done.
    injection Htd as -> Hrest.
    assert (frac' = frac ∧ expo' = expo) as [-> ->].
    { destruct Hpoint as [->|[-> ->]], Hpoint' as [->|[-> ->]].
      - rewrite !(string_app_cons _ "" _), !string_app_nil_l in Hrest.
        injection Hrest as Hrest.
        pose proof (take_digits_fraction frac expo e Hdf Hexp) as Hf.
        rewrite <-Hrest, (take_digits_fraction _ _ e') in Hf by done.
        by injection Hf as -> ->.
      - exfalso. rewrite !string_app_nil_l, string_app_cons in Hrest.
        destruct (exponent_start _ _ Hexp') as [->|(c & x & -> & Hc)];
          [done|].
        injection Hrest as -> _. by destruct Hc.
      - exfalso. rewrite !string_app_nil_l, string_app_cons in Hrest.
        destruct (exponent_start _ _ Hexp) as [->|(c & x & -> & Hc)];
          [done|].
        injection Hrest as <- _. by destruct Hc.
      - by rewrite !string_app_nil_l in Hrest. }
    rewrite (exponent_part_functional _ _ _ Hexp Hexp').
    by rewrite (signed_flag sign' sign).
Qed.

(** *** The amount normalizer (C7) *)

(** C7, amended: for every input, [parseAmount] removes every currency
    symbol, thousands separator, white-space character and parenthesis and
    keeps the other characters in order.  Its result is the value of the
    longest prefix of what remains that is a decimal number (an optional
    sign, then digits with an optional fraction and an optional exponent,
    or [Infinity]), sign included, and that prefix has no other value;
    what follows it is ignored.
    When no prefix of the remainder is a decimal number the result is
    zero.  The result is never [NaN], and being a total function
    [parseAmount] cannot throw.  Parentheses do not negate: a value in
    parentheses gives the same amount as the value, ["(500.00)"] gives
    500.00, ["R 1,234.56"] gives 1234.56 and ["garbage"] gives zero. *)
Theorem amount_normalizer (value : string) :
  chars (clean_amount value)
  = filter (λ ch, in_class paren_class ch = false)
      (filter (λ ch, in_class currency_class ch = false) (chars value))
  ∧ ((∃ literal rest,
        clean_amount value = literal +:+ rest
        ∧ (∀ v, decimal_literal literal v ↔ v = parseAmount value)
        ∧ ∀ literal' rest' v',
            clean_amount value = literal' +:+ rest' →
            decimal_literal literal' v' →
            String.length literal' ≤ String.length literal)
     ∨ (parseAmount value = zero
        ∧ ∀ literal rest v,
            clean_amount value = literal +:+ rest →
            ¬ decimal_literal literal v))
  ∧ parseAmount value ≠ NaN
  ∧ (starts_character value →
     parseAmount ("(" +:+ value +:+ ")") = parseAmount value)
  ∧ parseAmount "(500.00)" = Dec 50000 (-2)
  ∧ parseAmount "R 1,234.56" = Dec 123456 (-2)
  ∧ parseAmount "-R 1,234.56" = Dec (-123456) (-2)
  ∧ parseAmount "garbage" = zero.
Proof.
  split_and!.
  - unfold clean_amount. by rewrite !chars_remove_class.
  - unfold parseAmount.
    destruct (parseFloat_reads (clean_amount value)
                (trimStart_clean_amount value))
      as [(literal & rest & Heq & Hlit & Hmax)|[Hnan Hnone]].
    + left. exists literal, rest. split_and!; [done| |done].
      assert (isNaN (parseFloat (clean_amount value)) = false) as ->
        by by destruct Hlit.
      intros v. split; [|by intros ->].
      intros Hv. by apply (decimal_literal_functional literal).
    + right. by rewrite Hnan.
  - unfold parseAmount. by destruct (parseFloat (clean_amount value)).
  - intros Hstart. unfold parseAmount.
    by rewrite clean_amount_parentheses.
  - vm_compute. reflexivity.
  - vm_compute. reflexivity.
  - vm_compute. reflexivity.
  - vm_compute. reflexivity.
Qed.

(** C7, refuted as stated: ["12abc"] keeps all its characters and is not a
    decimal number, yet the result is 12, not zero; in the same way
    ["1.2.3"] gives 1.2 and ["12.50 CR"] gives 12.50; and ["Infinity"]
    gives an amount that is not finite. *)
Lemma amount_normalizer_counterexample :
  clean_amount "12abc" = "12abc"
  ∧ (∀ v, ¬ decimal_literal "12abc" v)
  ∧ parseAmount "12abc" = Dec 12 0
  ∧ parseAmount "12abc" ≠ zero
  ∧ parseAmount "1.2.3" = Dec 12 (-1)
  ∧ parseAmount "12.50 CR" = Dec 1250 (-2)
  ∧ parseAmount "Infinity" = Infinity false.
Proof.
  split_and!; try (vm_compute; reflexivity).
  - intros v Hlit%decimal_literal_chars. by vm_compute in Hlit.
  - by vm_compute.
Qed.

Lemma credit_amount : parseAmount "12.50 CR" = Dec 1250 (-2).
Proof. vm_compute. reflexivity. Qed.

Lemma amount_normalizer_witness :
  starts_character "1,234.56"
  ∧ parseAmount "(1,234.56)" = parseAmount "1,234.56"
  ∧ ∃ literal rest,
      clean_amount "12.50 CR" = literal +:+ rest
      ∧ decimal_literal literal (Dec 1250 (-2)).
Proof.
  assert (starts_character "1,234.56") as Hstart by reflexivity.
  destruct (amount_normalizer "1,234.56") as (_ & _ & _ & Hparen & _).
  destruct (amount_normalizer "12.50 CR") as (_ & Hreads & _).
  split; [exact Hstart|]. split; [exact (Hparen Hstart)|].
  rewrite credit_amount in Hreads.
  destruct Hreads as [(literal & rest & Heq & Hvalue & _)|[Hzero _]].
  - exists literal, rest. split; [exact Heq|].
    exact (proj2 (Hvalue (Dec 1250 (-2))) eq_refl).
  - discriminate Hzero.
Defined.
